(** * OpenMarch: the generic undo/redo CRUD engine

    A shallow embedding of [electron/database/DatabaseActions.ts] and the
    properties its specification states about it.

    The engine talks to three collaborators: the relational store
    (better-sqlite3's [db.prepare(...).get/all/run]), the [History] module
    ([database.history]) and the JavaScript runtime (object references, the
    wall clock, the console).  The store and the [History] module are an
    interface here ([Store]); the engine is written once against that
    interface, in a state-and-exception monad that mirrors the control flow
    of the TypeScript ([try]/[catch]/[finally], early [return], [continue]).
*)

From Stdlib Require Import ZArith Lia.
From stdpp Require Import base option list strings pretty sorting.

Open Scope string_scope.
Open Scope list_scope.

(** ** JavaScript values *)

(** The scalars that occur as column values, identifiers and bind
    parameters. *)
Inductive Value :=
| VUndefined
| VNull
| VNum (n : Z)
| VStr (s : string).

Global Instance Value_eq_dec : EqDecision Value.
Proof. solve_decision. Defined.

(** Template-literal rendering, [`${v}`]. *)
Definition js_String (v : Value) : string :=
  match v with
  | VUndefined => "undefined"
  | VNull => "null"
  | VNum n => pretty n
  | VStr s => s
  end.

(** [Array.prototype.join] renders [undefined] and [null] as the empty
    string. *)
Definition js_join_item (v : Value) : string :=
  match v with
  | VUndefined | VNull => ""
  | _ => js_String v
  end.

Definition js_join (sep : string) (l : list Value) : string :=
  String.concat sep (js_join_item <$> l).

(** [new Set(l)]: iteration order is first-insertion order. *)
Fixpoint js_Set_add (seen l : list Value) : list Value :=
  match l with
  | [] => seen
  | v :: l => js_Set_add (if decide (v ∈ seen) then seen else seen ++ [v]) l
  end.

Definition js_Set (l : list Value) : list Value := js_Set_add [] l.

(** ** Objects

    An object is its own enumerable string-keyed properties in insertion
    order ([Object.keys] order; column names are never integer-like). *)
Abbreviation Obj := (list (string * Value)).
Abbreviation Row := Obj.

Definition obj_keys (o : Obj) : list string := fst <$> o.

Definition obj_has (k : string) (o : Obj) : bool :=
  bool_decide (k ∈ obj_keys o).

Fixpoint obj_get (k : string) (o : Obj) : Value :=
  match o with
  | [] => VUndefined
  | (k', v) :: o => if decide (k' = k) then v else obj_get k o
  end.

(** [o.k = v]: overwrite in place, or append a new property. *)
Fixpoint obj_set (k : string) (v : Value) (o : Obj) : Obj :=
  match o with
  | [] => [(k, v)]
  | (k', v') :: o =>
      if decide (k' = k) then (k, v) :: o else (k', v') :: obj_set k v o
  end.

(** [const { k, ...rest } = o]: the rest object. *)
Definition obj_remove (k : string) (o : Obj) : Obj :=
  filter (λ kv, kv.1 ≠ k) o.

(** ** Thrown values and responses *)

(** What a [catch (error: any)] clause inspects: [error.message] and
    [error.stack], either of which may be missing. *)
Record JsError := { err_message : option string; err_stack : option string }.

(** [s || d] on a possibly missing string: the empty string is falsy. *)
Definition js_or (o : option string) (d : string) : string :=
  match o with
  | Some s => if decide (s = "") then d else s
  | None => d
  end.

(** [new Error(msg)]; the captured stack starts with the message, its frames
    are not modelled. *)
Definition new_Error (msg : string) : JsError :=
  {| err_message := Some msg; err_stack := Some ("Error: " +:+ msg) |}.

Record ErrorInfo := { message : string; stack : option string }.

Record DatabaseResponse (A : Type) :=
  { success : bool; error : option ErrorInfo; data : A }.
Arguments success {A} _.
Arguments error {A} _.
Arguments data {A} _.

(** ** The store *)

(** One row of the undo history log.  [history_group] is the column that
    [decrementLastUndoGroup] reads and rewrites; the other fields follow the
    specification's History Record: table, row, and either a delete marker
    (reversal of an insert) or a column's prior value. *)
Inductive Change :=
| DeleteMarker
| PriorValue (column : string) (prior : Value).

Record HistoryRecord :=
  { sequence : Z; history_group : Z; hr_table : string; hr_rowid : Z;
    hr_change : Change }.

Global Instance Change_eq_dec : EqDecision Change.
Proof. solve_decision. Defined.
Global Instance HistoryRecord_eq_dec : EqDecision HistoryRecord.
Proof. solve_decision. Defined.

(** A database: the undo history table, and the rest (application tables,
    the group counter, the redo log), which the engine only reaches through
    statements and the [History] module. *)
Record Db (R : Type) := { history_undo : list HistoryRecord; rest : R }.
Arguments history_undo {R} _.
Arguments rest {R} _.
Arguments Build_Db {R} _ _.

(** The statements the engine prepares. *)
Inductive Sql :=
| SelectWhere (tableName idColumn : string)
| SelectAll (tableName : string)
| PragmaTableInfo (tableName : string)
| InsertInto (tableName : string) (keys : list string)
| UpdateSet (tableName : string) (keys : list string)
| DeleteWhere (tableName idColumn : string).

(** The double-quote character, and a double-quoted identifier. *)
Definition dq : string := String (Ascii.ascii_of_nat 34) EmptyString.
Definition quoted (s : string) : string := dq +:+ s +:+ dq.

(** The text handed to [db.prepare]. *)
Definition sql_text (q : Sql) : string :=
  match q with
  | SelectWhere t c => "SELECT * FROM " +:+ t +:+ " WHERE " +:+ quoted c +:+ " = ?"
  | SelectAll t => "SELECT * FROM " +:+ t
  | PragmaTableInfo t => "PRAGMA table_info(" +:+ t +:+ ");"
  | InsertInto t keys =>
      "INSERT INTO " +:+ t +:+ " (" +:+ String.concat ", " keys +:+ ") VALUES ("
      +:+ String.concat ", " ((λ k, "@" +:+ k) <$> keys) +:+ ")"
  | UpdateSet t keys =>
      "UPDATE " +:+ t +:+ " SET "
      +:+ String.concat ", " ((λ k, quoted k +:+ " = @" +:+ k) <$> keys)
      +:+ " WHERE " +:+ quoted "rowid" +:+ " = @id"
  | DeleteWhere t c => "DELETE FROM " +:+ t +:+ " WHERE " +:+ quoted c +:+ " = ?"
  end.

Inductive Params :=
| Positional (v : Value)
| Named (o : Obj).

(** better-sqlite3 and [database.history], as the engine uses them.  Reading
    statements leave the database as it is; a [run] returns
    [lastInsertRowid]. *)
Class Store (R : Type) := {
  db_prepare : Sql → Db R → option JsError;
  stmt_get : Sql → Value → Db R → JsError + option Row;
  stmt_all : Sql → Db R → JsError + list Row;
  stmt_run : Sql → Params → Db R → Db R * (JsError + Z);
  History_getCurrentUndoGroup : Db R → JsError + Z;
  History_incrementUndoGroup : Db R → Db R * (JsError + Z);
  History_performUndo : Db R → Db R * (JsError + ());
  History_clearMostRecentRedo : Db R → Db R * (JsError + ());
}.

(** ** The runtime state and the engine's monad *)

(** What the engine calls on its collaborators, in the order it calls them. *)
Inductive Call :=
| CallRun (q : Sql) (p : Params)
| CallGetCurrentUndoGroup
| CallIncrementUndoGroup
| CallDecrementLastUndoGroup
| CallPerformUndo
| CallClearMostRecentRedo
| CallConsoleWarn (msg : string).

Global Instance Sql_eq_dec : EqDecision Sql.
Proof. solve_decision. Defined.
Global Instance Params_eq_dec : EqDecision Params.
Proof. solve_decision. Defined.
Global Instance Call_eq_dec : EqDecision Call.
Proof. solve_decision. Defined.

(** The [let] variables of a mutation call that its [catch] clause reads
    after a [throw]. *)
Record Locals := { actionWasPerformed : bool; currentId : Value }.

(** The database, the object heap (a reference is an index; [{ ...o }]
    allocates), the wall clock (the [n]-th reading of
    [new Date().toISOString()]), the call log and the current frame. *)
Record State (R : Type) := {
  db : Db R;
  heap : list Obj;
  clock : nat → string;
  ticks : nat;
  calls : list Call;
  locals : Locals;
}.
Arguments db {R} _.
Arguments heap {R} _.
Arguments clock {R} _.
Arguments ticks {R} _.
Arguments calls {R} _.
Arguments locals {R} _.
Arguments Build_State {R} _ _ _ _ _ _.

Abbreviation loc := nat.

Section Monad.
Context {R : Type}.

(** A computation either returns or throws, and leaves a state. *)
Definition M (A : Type) : Type := State R → State R * (JsError + A).

Definition ret {A} (a : A) : M A := λ s, (s, inr a).

Definition throw {A} (e : JsError) : M A := λ s, (s, inl e).

Definition bind {A B} (m : M A) (k : A → M B) : M B := λ s,
  match m s with
  | (s', inr a) => k a s'
  | (s', inl e) => (s', inl e)
  end.

(** [try { body } catch (e) { handler e }]. *)
Definition try_catch {A} (body : M A) (handler : JsError → M A) : M A := λ s,
  match body s with
  | (s', inr a) => (s', inr a)
  | (s', inl e) => handler e s'
  end.

(** [try { body } finally { fin }]: [fin] runs on every exit of [body];
    a throw of [fin] replaces the outcome of [body]. *)
Definition try_finally {A} (body : M A) (fin : M ()) : M A := λ s,
  match body s with
  | (s', r) =>
      match fin s' with
      | (s'', inr _) => (s'', r)
      | (s'', inl e) => (s'', inl e)
      end
  end.

Definition try_catch_finally {A}
    (body : M A) (handler : JsError → M A) (fin : M ()) : M A :=
  try_finally (try_catch body handler) fin.

Definition when (b : bool) (m : M ()) : M () := if b then m else ret ().

Definition get_state : M (State R) := λ s, (s, inr s).

Definition log (c : Call) : M () := λ s,
  (Build_State (db s) (heap s) (clock s) (ticks s) (calls s ++ [c]) (locals s),
   inr ()).

Definition set_db (d : Db R) : M () := λ s,
  (Build_State d (heap s) (clock s) (ticks s) (calls s) (locals s), inr ()).

Definition set_locals (l : Locals) : M () := λ s,
  (Build_State (db s) (heap s) (clock s) (ticks s) (calls s) l, inr ()).

Definition set_actionWasPerformed (b : bool) : M () := λ s,
  set_locals {| actionWasPerformed := b; currentId := currentId (locals s) |} s.

Definition set_currentId (v : Value) : M () := λ s,
  set_locals
    {| actionWasPerformed := actionWasPerformed (locals s); currentId := v |} s.

(** [new Date().toISOString()]. *)
Definition now : M string := λ s,
  (Build_State (db s) (heap s) (clock s) (S (ticks s)) (calls s) (locals s),
   inr (clock s (ticks s))).

(** Object references. *)
Definition read (l : loc) : M Obj := λ s, (s, inr (default [] (heap s !! l))).

Definition alloc (o : Obj) : M loc := λ s,
  (Build_State (db s) (heap s ++ [o]) (clock s) (ticks s) (calls s) (locals s),
   inr (length (heap s))).

(** [l.k = v]. *)
Definition set_prop (l : loc) (k : string) (v : Value) : M () := λ s,
  (Build_State (db s)
     (<[l := obj_set k v (default [] (heap s !! l))]> (heap s))
     (clock s) (ticks s) (calls s) (locals s),
   inr ()).

(** [{ ...l }]. *)
Definition spread (l : loc) : M loc := bind (read l) alloc.

(** [for (const x of l) out.push(f x)]. *)
Fixpoint for_push {A B} (f : A → M B) (l : list A) : M (list B) :=
  match l with
  | [] => ret []
  | x :: l =>
      bind (f x) (λ y, bind (for_push f l) (λ ys, ret (y :: ys)))
  end.

(** [for (const x of l) if (p x) out.push(x)]. *)
Fixpoint for_filter {A} (p : A → M bool) (l : list A) : M (list A) :=
  match l with
  | [] => ret []
  | x :: l =>
      bind (p x) (λ b, bind (for_filter p l) (λ xs,
        ret (if b then x :: xs else xs)))
  end.
End Monad.
Arguments M : clear implicits.

Declare Scope js_scope.
Delimit Scope js_scope with js.
Notation "x <- m ;; k" := (bind m (λ x, k))
  (at level 100, m at next level, right associativity) : js_scope.
Notation "m ;;; k" := (bind m (λ _, k))
  (at level 100, right associativity) : js_scope.

(** ** The engine: [DatabaseActions.ts] *)

Section Engine.
Context {R : Type} `{Store R}.
Open Scope js_scope.

(** *** Calls on the collaborators *)

Definition prepare (q : Sql) : M R () := λ s,
  match db_prepare q (db s) with
  | Some e => (s, inl e)
  | None => (s, inr ())
  end.

Definition get (q : Sql) (v : Value) : M R (option Row) := λ s,
  (s, stmt_get q v (db s)).

Definition all (q : Sql) : M R (list Row) := λ s, (s, stmt_all q (db s)).

Definition lift_db {A} (c : Call) (f : Db R → Db R * (JsError + A)) : M R A :=
  log c ;;;
  s <- get_state ;;
  let '(d, r) := f (db s) in
  set_db d ;;;
  match r with inl e => throw e | inr a => ret a end.

Definition run (q : Sql) (p : Params) : M R Z :=
  lift_db (CallRun q p) (stmt_run q p).

Definition getCurrentUndoGroup : M R Z :=
  lift_db CallGetCurrentUndoGroup (λ d, (d, History_getCurrentUndoGroup d)).

Definition incrementUndoGroup : M R Z :=
  lift_db CallIncrementUndoGroup History_incrementUndoGroup.

Definition performUndo : M R () :=
  lift_db CallPerformUndo History_performUndo.

Definition clearMostRecentRedo : M R () :=
  lift_db CallClearMostRecentRedo History_clearMostRecentRedo.

Definition console_warn (msg : string) : M R () := log (CallConsoleWarn msg).

(** *** [decrementLastUndoGroup] *)

(** [SELECT MAX(history_group) FROM history_undo]: [NULL] on an empty
    table. *)
Definition select_max_group (h : list HistoryRecord) : option Z :=
  foldr (λ r acc, Some (match acc with
                        | Some m => Z.max (history_group r) m
                        | None => history_group r
                        end))
    None h.

(** [SELECT MAX(history_group) ... WHERE history_group < ?]; a comparison
    with [NULL] selects no row. *)
Definition select_max_group_below
    (bound : option Z) (h : list HistoryRecord) : option Z :=
  match bound with
  | None => None
  | Some b => select_max_group (filter (λ r, (history_group r < b)%Z) h)
  end.

(** [UPDATE history_undo SET history_group = ? WHERE history_group = ?]. *)
Definition update_group (new old : Z) (h : list HistoryRecord)
    : list HistoryRecord :=
  (λ r, if decide (history_group r = old)
        then {| sequence := sequence r; history_group := new;
                hr_table := hr_table r; hr_rowid := hr_rowid r;
                hr_change := hr_change r |}
        else r) <$> h.

(** The three statements on the history table; [if (previousGroup)] is a
    truthiness test, which [NULL] and [0] both fail. *)
Definition decrement_history (h : list HistoryRecord) : list HistoryRecord :=
  let maxGroup := select_max_group h in
  let previousGroup := select_max_group_below maxGroup h in
  match previousGroup, maxGroup with
  | Some p, Some m => if decide (p = 0%Z) then h else update_group p m h
  | _, _ => h
  end.

Definition decrementLastUndoGroup : M R () :=
  log CallDecrementLastUndoGroup ;;;
  s <- get_state ;;
  set_db (Build_Db (decrement_history (history_undo (db s))) (rest (db s))).

(** *** [getItem] *)

Definition getItem (id : Value) (tableName : string) (idColumn : option string)
    : M R (DatabaseResponse (option Row)) :=
  let idColumn := default "rowid" idColumn in
  try_catch
    (let q := SelectWhere tableName idColumn in
     prepare q ;;;
     result <- get q id ;;
     match result with
     | None =>
         ret {| success := false; data := None;
                error := Some {|
                  message := "No item with " +:+ quoted idColumn +:+ "="
                             +:+ js_String id +:+ " in table "
                             +:+ quoted tableName;
                  stack := None |} |}
     | Some row => ret {| success := true; data := Some row; error := None |}
     end)
    (λ error,
     ret {| success := false; data := None;
            error := Some {|
              message := js_or (err_message error)
                           ("Error getting item " +:+ quoted idColumn +:+ "="
                            +:+ js_String id);
              stack := Some (js_or (err_stack error)
                               "Unable to get error stack") |} |}).

(** *** [getColumns] *)

Definition getColumns (tableName : string) : M R (list Value) :=
  let q := PragmaTableInfo tableName in
  prepare q ;;;
  rows <- all q ;;
  ret (js_Set (obj_get "name" <$> rows)).

Definition has (columns : list Value) (c : string) : bool :=
  bool_decide (VStr c ∈ columns).

(** *** [getAllItems]

    [stmt.all()] returns an array, and an array is truthy, so the
    [if (!result)] branch is never taken. *)
Definition getAllItems (tableName : string) : M R (DatabaseResponse (list Row)) :=
  try_catch
    (let q := SelectAll tableName in
     prepare q ;;;
     result <- all q ;;
     ret {| success := true; data := result; error := None |})
    (λ error,
     ret {| success := false; data := [];
            error := Some {|
              message := js_or (err_message error)
                           ("Error getting items from " +:+ tableName);
              stack := Some (js_or (err_stack error)
                               "Unable to get error stack") |} |}).

(** *** [insertClause]: the keys, sorted; [sql_text] renders the clause. *)
Definition insertClause (args : Obj) : list string :=
  merge_sort String.le (obj_keys args).

(** *** [createItems] *)

(** The body of the insert loop, for one [oldItem]. *)
Definition create_one (tableName : string) (columns : list Value)
    (oldItem : loc) : M R Z :=
  item <- spread oldItem ;;
  o <- read item ;;
  itemToInsert <- (if obj_has "id" o then alloc (obj_remove "id" o)
                   else ret item) ;;
  createdAt <- now ;;
  let newItem := itemToInsert in
  when (has columns "created_at")
    (set_prop newItem "created_at" (VStr createdAt)) ;;;
  when (has columns "updated_at")
    (set_prop newItem "updated_at" (VStr createdAt)) ;;;
  args <- read newItem ;;
  let q := InsertInto tableName (insertClause args) in
  prepare q ;;;
  set_actionWasPerformed true ;;;
  run q (Named args).

(** The body of the re-fetch loop, for one new [id]. *)
Definition refetch_created (tableName : string) (id : Z) : M R Row :=
  r <- getItem (VNum id) tableName None ;;
  match data r with
  | None =>
      throw (new_Error ("No item with id " +:+ pretty id +:+ " in table "
                        +:+ quoted tableName))
  | Some newItem => ret newItem
  end.

(** The opening of the three [try] blocks: read the current undo group,
    advance it, and remember whether its value changed. *)
Definition open_group : M R bool :=
  currentUndoGroup <- getCurrentUndoGroup ;;
  newUndoGroup <- incrementUndoGroup ;;
  ret (negb (bool_decide (currentUndoGroup = newUndoGroup))).

(** The [finally] block of the three mutations. *)
Definition group_finally (useNextUndoGroup : bool) : M R () :=
  when useNextUndoGroup (incrementUndoGroup ;;; ret ()).

(** The [try] block. *)
Definition createItems_try (items : list loc) (tableName : string)
    (useNextUndoGroup : bool) : M R (DatabaseResponse (list Row)) :=
  groupWasIncremented <- open_group ;;
  columns <- getColumns tableName ;;
  newItemIds <- for_push (create_one tableName columns) items ;;
  newItems <- for_push (refetch_created tableName) newItemIds ;;
  s <- get_state ;;
  when (negb useNextUndoGroup && groupWasIncremented
        && actionWasPerformed (locals s))
    decrementLastUndoGroup ;;;
  ret {| success := true; data := newItems; error := None |}.

(** The [catch] block. *)
Definition createItems_catch (tableName : string) (error : JsError)
    : M R (DatabaseResponse (list Row)) :=
  performUndo ;;;
  clearMostRecentRedo ;;;
  ret {| success := false; data := [];
         error := Some {|
           message := js_or (err_message error)
                        ("Error getting items from " +:+ tableName);
           stack := Some (js_or (err_stack error)
                            "Unable to get error stack") |} |}.

Definition createItems (items : list loc) (tableName : string)
    (useNextUndoGroup : option bool) : M R (DatabaseResponse (list Row)) :=
  let useNextUndoGroup := default true useNextUndoGroup in
  set_actionWasPerformed false ;;;
  try_catch_finally
    (createItems_try items tableName useNextUndoGroup)
    (createItems_catch tableName)
    (group_finally useNextUndoGroup).

(** *** [updateItems] *)

(** [getItem(...).data === undefined]. *)
Definition not_found (tableName : string) (idColumn : option string)
    (id : Value) : M R bool :=
  r <- getItem id tableName idColumn ;;
  ret (bool_decide (data r = None)).

(** The body of the update loop, for one [oldItem]: the identifier of the
    updated row, or nothing after [continue]. *)
Definition update_one (tableName : string) (columns : list Value)
    (oldItem : loc) : M R (list Value) :=
  item <- spread oldItem ;;
  updatedAt <- now ;;
  let updatedItem := item in
  when (has columns "updated_at")
    (set_prop updatedItem "updated_at" (VStr updatedAt)) ;;;
  args <- read updatedItem ;;
  let id := obj_get "id" args in
  let rest := obj_remove "id" args in
  let setClause := obj_keys rest in
  if negb (obj_has "id" args) then
    console_warn "No id provided for update, skipping item" ;;;
    ret []
  else
    let q := UpdateSet tableName setClause in
    prepare q ;;;
    run q (Named args) ;;;
    set_actionWasPerformed true ;;;
    ret [id].

(** The body of the re-fetch loop, for one updated [id]. *)
Definition refetch_updated (tableName : string) (id : Value) : M R Row :=
  updatedItem <- getItem id tableName None ;;
  match data updatedItem, success updatedItem with
  | Some row, true => ret row
  | _, _ =>
      throw (new_Error (js_or (message <$> error updatedItem) "No item found"))
  end.

(** The verification loop: the identifiers, without repetition, and
    those of them that [getItem] does not find. *)
Definition updateItems_validate (items : list loc) (tableName : string)
    : M R (list Value) :=
  objs <- for_push read items ;;
  let ids := js_Set (obj_get "id" <$> objs) in
  set_actionWasPerformed false ;;;
  for_filter (not_found tableName None) ids.

(** The [try] block. *)
Definition updateItems_try (items : list loc) (tableName : string)
    (useNextUndoGroup : bool) : M R (DatabaseResponse (list Row)) :=
  groupWasIncremented <- open_group ;;
  columns <- getColumns tableName ;;
  updateIds <- for_push (update_one tableName columns) items ;;
  updatedItems <- for_push (refetch_updated tableName) (concat updateIds) ;;
  s <- get_state ;;
  when (negb useNextUndoGroup && actionWasPerformed (locals s)
        && groupWasIncremented)
    decrementLastUndoGroup ;;;
  ret {| success := true; data := updatedItems; error := None |}.

(** The [catch] block. *)
Definition updateItems_catch (tableName : string) (error : JsError)
    : M R (DatabaseResponse (list Row)) :=
  s <- get_state ;;
  when (actionWasPerformed (locals s))
    (performUndo ;;; clearMostRecentRedo) ;;;
  ret {| success := false; data := [];
         error := Some {|
           message := js_or (err_message error)
                        ("Error updating items from " +:+ tableName);
           stack := Some (js_or (err_stack error)
                            "Unable to get error stack") |} |}.

Definition updateItems (items : list loc) (tableName : string)
    (useNextUndoGroup : option bool) : M R (DatabaseResponse (list Row)) :=
  let useNextUndoGroup := default true useNextUndoGroup in
  notFoundIds <- updateItems_validate items tableName ;;
  if bool_decide (notFoundIds ≠ []) then
    ret {| success := false; data := [];
           error := Some {|
             message := "No items with ids [" +:+ js_join ", " notFoundIds
                        +:+ "] in table " +:+ quoted tableName;
             stack := None |} |}
  else
    try_catch_finally
      (updateItems_try items tableName useNextUndoGroup)
      (updateItems_catch tableName)
      (group_finally useNextUndoGroup).

(** *** [deleteItems] *)

(** [itemsMap]: a [Map] from identifier to row; [set] shadows. *)
Fixpoint map_get (id : Z) (m : list (Z * Row)) : option Row :=
  match m with
  | [] => None
  | (k, row) :: m => if decide (k = id) then Some row else map_get id m
  end.

(** The verification loop, with its two accumulators. *)
Fixpoint delete_validate (tableName idColumn : string) (ids : list Z)
    (notFoundIds : list Z) (itemsMap : list (Z * Row))
    : M R (list Z * list (Z * Row)) :=
  match ids with
  | [] => ret (notFoundIds, itemsMap)
  | id :: ids =>
      item <- getItem (VNum id) tableName (Some idColumn) ;;
      match data item with
      | None =>
          delete_validate tableName idColumn ids (notFoundIds ++ [id]) itemsMap
      | Some row =>
          delete_validate tableName idColumn ids notFoundIds
            ((id, row) :: itemsMap)
      end
  end.

(** The body of the delete loop, for one [id]. *)
Definition delete_one (tableName idColumn : string)
    (itemsMap : list (Z * Row)) (id : Z) : M R Row :=
  set_currentId (VNum id) ;;;
  match map_get id itemsMap with
  | None =>
      throw (new_Error ("No item found with " +:+ quoted idColumn +:+ "="
                        +:+ pretty id))
  | Some item =>
      let q := DeleteWhere tableName idColumn in
      prepare q ;;;
      run q (Positional (VNum id)) ;;;
      set_actionWasPerformed true ;;;
      ret item
  end.

Definition deleteItems_validate (ids : list Z) (tableName idColumn : string)
    : M R (list Z * list (Z * Row)) :=
  set_locals {| actionWasPerformed := false; currentId := VUndefined |} ;;;
  delete_validate tableName idColumn ids [] [].

(** The [try] block. *)
Definition deleteItems_try (ids : list Z) (tableName idColumn : string)
    (itemsMap : list (Z * Row)) (useNextUndoGroup : bool)
    : M R (DatabaseResponse (list Row)) :=
  groupWasIncremented <- open_group ;;
  incrementUndoGroup ;;;
  deletedObjects <- for_push (delete_one tableName idColumn itemsMap) ids ;;
  s <- get_state ;;
  when (negb useNextUndoGroup && actionWasPerformed (locals s)
        && groupWasIncremented)
    decrementLastUndoGroup ;;;
  ret {| success := true; data := deletedObjects; error := None |}.

(** The [catch] block; a [Set] renders as [[object Set]] in the fallback
    message. *)
Definition deleteItems_catch (tableName idColumn : string) (error : JsError)
    : M R (DatabaseResponse (list Row)) :=
  s <- get_state ;;
  when (actionWasPerformed (locals s))
    (performUndo ;;; clearMostRecentRedo) ;;;
  ret {| success := false; data := [];
         error := Some {|
           message := js_or (err_message error)
                        ("Error deleting item "
                         +:+ js_String (currentId (locals s))
                         +:+ " while trying to delete items "
                         +:+ idColumn +:+ dq +:+ "=[object Set]");
           stack := Some (js_or (err_stack error)
                            "Unable to get error stack") |} |}.

(** [ids] is the iteration order of the caller's [Set<number>].
    [useNextUndoGroup] has no default here: left out, it is [undefined],
    which both tests read as false. *)
Definition deleteItems (ids : list Z) (tableName : string)
    (useNextUndoGroup : option bool) (idColumn : option string)
    : M R (DatabaseResponse (list Row)) :=
  let idColumn := default "rowid" idColumn in
  let useNextUndoGroup := default false useNextUndoGroup in
  v <- deleteItems_validate ids tableName idColumn ;;
  let '(notFoundIds, itemsMap) := v in
  if bool_decide (notFoundIds ≠ []) then
    ret {| success := false; data := [];
           error := Some {|
             message := "No items with " +:+ idColumn +:+ "=["
                        +:+ js_join ", " (VNum <$> notFoundIds)
                        +:+ "] in table " +:+ quoted tableName;
             stack := None |} |}
  else
    try_catch_finally
      (deleteItems_try ids tableName idColumn itemsMap useNextUndoGroup)
      (deleteItems_catch tableName idColumn)
      (group_finally useNextUndoGroup).
End Engine.

(** Any of the three mutation calls. *)
Inductive Mutation :=
| Create (items : list loc)
| Update (items : list loc)
| Delete (ids : list Z) (idColumn : option string).

Definition perform {R : Type} `{Store R} (m : Mutation) (tableName : string)
    (useNextUndoGroup : option bool) : M R (DatabaseResponse (list Row)) :=
  match m with
  | Create items => createItems items tableName useNextUndoGroup
  | Update items => updateItems items tableName useNextUndoGroup
  | Delete ids idColumn => deleteItems ids tableName useNextUndoGroup idColumn
  end.

(** ** The Shape table: [ShapeTable.ts]

    The wrappers name the table [Constants.ShapeTableName] and leave
    [useNextUndoGroup] out. *)

Section ShapeTable.
Context {R : Type} `{Store R}.
Variable ShapeTableName : string.

Definition getShapes : M R (DatabaseResponse (list Row)) :=
  getAllItems ShapeTableName.

Definition createShape (args : list loc) : M R (DatabaseResponse (list Row)) :=
  createItems args ShapeTableName None.

Definition updateShape (args : list loc) : M R (DatabaseResponse (list Row)) :=
  updateItems args ShapeTableName None.

Definition deleteShape (ids : list Z) : M R (DatabaseResponse (list Row)) :=
  deleteItems ids ShapeTableName None None.
End ShapeTable.

(** ** JavaScript strings *)

Module JsString.
Import Stdlib.Strings.Ascii.

(** [String.prototype.split] with a one-character separator. *)
Fixpoint split (sep : ascii) (s : string) : list string :=
  match s with
  | EmptyString => [EmptyString]
  | String c s =>
      if decide (c = sep) then EmptyString :: split sep s
      else match split sep s with
           | x :: xs => String c x :: xs
           | [] => [String c EmptyString]
           end
  end.
End JsString.

(** ** Time signatures: [TimeSignature.ts] *)

Module TimeSignature.
Import Stdlib.Strings.Ascii.
Import JsString.

(** A number, as far as the class tells numbers apart: an integer, [NaN],
    or another number that [Number.isInteger] rejects (a fraction, an
    infinity), of which only the sign is kept. An integer is kept exactly;
    JavaScript does so up to [2^53]. *)
Inductive JsNumber :=
| Int (z : Z)
| NaN
| NotInteger (negative : bool).

(** [x <= 0]. *)
Definition le_zero (x : JsNumber) : bool :=
  match x with
  | Int z => bool_decide (z ≤ 0)%Z
  | NaN => false
  | NotInteger negative => negative
  end.

Definition Number_isInteger (x : JsNumber) : bool :=
  match x with
  | Int _ => true
  | _ => false
  end.

(** *** [parseInt] without a radix *)

(** White space among the code units below 256. *)
Definition is_white_space (c : ascii) : bool :=
  existsb (N.eqb (N_of_ascii c)) [9; 10; 11; 12; 13; 32; 160]%N.

Fixpoint trim_start (s : string) : string :=
  match s with
  | String c s' => if is_white_space c then trim_start s' else s
  | EmptyString => s
  end.

(** The value of a digit: [0]-[9], then the letters in either case. *)
Definition digit_value (c : ascii) : option N :=
  let n := N_of_ascii c in
  if (48 <=? n)%N && (n <=? 57)%N then Some (n - 48)%N
  else if (97 <=? n)%N && (n <=? 122)%N then Some (n - 87)%N
  else if (65 <=? n)%N && (n <=? 90)%N then Some (n - 55)%N
  else None.

Definition is_digit (radix : N) (c : ascii) : bool :=
  match digit_value c with
  | Some d => (d <? radix)%N
  | None => false
  end.

(** The value of the longest prefix of digits, from the accumulator. *)
Fixpoint scan (radix : N) (s : string) (acc : N) : N :=
  match s with
  | String c s' =>
      match digit_value c with
      | Some d =>
          if (d <? radix)%N then scan radix s' (acc * radix + d)%N else acc
      | None => acc
      end
  | EmptyString => acc
  end.

Definition starts_with_digit (radix : N) (s : string) : bool :=
  match s with
  | String c _ => is_digit radix c
  | EmptyString => false
  end.

Definition parseInt (inputString : string) : JsNumber :=
  let s := trim_start inputString in
  let '(sign, s) :=
    match s with
    | String "-" s' => ((-1)%Z, s')
    | String "+" s' => (1%Z, s')
    | _ => (1%Z, s)
    end in
  let '(radix, s) :=
    match s with
    | String "0" (String "x" s') | String "0" (String "X" s') => (16%N, s')
    | _ => (10%N, s)
    end in
  if starts_with_digit radix s then Int (sign * Z.of_N (scan radix s 0))
  else NaN.

(** *** The class *)

Inductive BeatUnit :=
| WHOLE | HALF | QUARTER | EIGHTH | SIXTEENTH | THIRTY_SECOND | SIXTY_FOURTH.

Definition BeatUnit_value (u : BeatUnit) : Z :=
  match u with
  | WHOLE => 1 | HALF => 2 | QUARTER => 4 | EIGHTH => 8
  | SIXTEENTH => 16 | THIRTY_SECOND => 32 | SIXTY_FOURTH => 64
  end.

Record TimeSignature := { numerator : Z; denominator : Z }.

Global Instance TimeSignature_eq_dec : EqDecision TimeSignature.
Proof. solve_decision. Defined.

(** The constructor; the type of [denominator] admits the seven literals
    only, and the constructor does not look at it. *)
Definition new_TimeSignature (numerator : JsNumber) (denominator : Z)
    : JsError + TimeSignature :=
  if le_zero numerator || negb (Number_isInteger numerator) then
    inl (new_Error
           "Invalid time signature numerator. Must be a positive integer.")
  else
    match numerator with
    | Int n => inr {| numerator := n; denominator := denominator |}
    | _ =>
        inl (new_Error
               "Invalid time signature numerator. Must be a positive integer.")
    end.

Definition validDenominators : list Z := [1; 2; 4; 8; 16; 32; 64]%Z.

Definition fromString (timeSignature : string) : JsError + TimeSignature :=
  match split "/" timeSignature with
  | [s0; s1] =>
      let numerator := parseInt s0 in
      match parseInt s1 with
      | Int denominator =>
          if bool_decide (denominator ∈ validDenominators)
          then new_TimeSignature numerator denominator
          else inl (new_Error
            "Invalid time signature denominator. Must be 1, 2, 4, 8, 16, 32, or 64")
      | _ =>
          inl (new_Error
            "Invalid time signature denominator. Must be 1, 2, 4, 8, 16, 32, or 64")
      end
  | _ =>
      inl (new_Error
             "Invalid time signature string. Must be in the form of '4/4'")
  end.

Definition equals (this other : TimeSignature) : bool :=
  bool_decide (numerator this = numerator other)
  && bool_decide (denominator this = denominator other).

Definition toString (this : TimeSignature) : string :=
  pretty (numerator this) +:+ "/" +:+ pretty (denominator this).
End TimeSignature.

(** ** The version check: [isNewerVersion] of [VersionChecker] *)

Module VersionChecker.
Import Stdlib.Strings.Ascii.
Import JsString.

(** A double: [NaN], an infinity, or the finite value [m * 2^e]. *)
Inductive Double :=
| NaN
| Infinity (negative : bool)
| Finite (m e : Z).

(** [a < b]; a comparison with [NaN] is false. *)
Definition lt (a b : Double) : bool :=
  match a, b with
  | NaN, _ | _, NaN => false
  | Infinity na, Infinity nb => na && negb nb
  | Infinity na, Finite _ _ => na
  | Finite _ _, Infinity nb => negb nb
  | Finite m1 e1, Finite m2 e2 =>
      let e := Z.min e1 e2 in
      (m1 * 2 ^ (e1 - e) <? m2 * 2 ^ (e2 - e))%Z
  end.

(** [a > b]. *)
Definition gt (a b : Double) : bool := lt b a.

Definition zero : Double := Finite 0 0.

Section IsNewerVersion.
(** [Number], applied to a string: the conversion is the runtime's. *)
Variable Number : string → Double.

(** [version.startsWith("v") ? version.substring(1) : version]. *)
Definition clean (version : string) : string :=
  match version with
  | String "v" rest => rest
  | _ => version
  end.

Definition components (version : string) : list Double :=
  Number <$> split "." (clean version).

(** [i < components.length ? components[i] : 0]. *)
Definition component (components : list Double) (i : nat) : Double :=
  default zero (components !! i).

(** The loop, over the indices that are left. *)
Fixpoint compare_from (componentsA componentsB : list Double)
    (indices : list nat) : bool :=
  match indices with
  | [] => false
  | i :: indices =>
      let valueA := component componentsA i in
      let valueB := component componentsB i in
      if gt valueA valueB then true
      else if lt valueA valueB then false
      else compare_from componentsA componentsB indices
  end.

Definition isNewerVersion (versionA versionB : string) : bool :=
  let componentsA := components versionA in
  let componentsB := components versionB in
  let maxLength := Nat.max (length componentsA) (length componentsB) in
  compare_from componentsA componentsB (seq 0 maxLength).
End IsNewerVersion.
End VersionChecker.

(** ** A reference store

    [database.history] and the schema are not part of the engine's file; this
    store follows the specification's data model: tables with declared
    columns and store-assigned identifiers, a group counter, change-capture
    triggers, and undo by replay. *)
Module RefStore.

(** A table: its declared columns ([id] is the integer key, an alias of
    the row identifier), its rows by identifier, the last identifier
    assigned, and whether the history triggers are installed. *)
Record Table := {
  t_columns : list string;
  t_rows : list (Z * Row);
  t_last_id : Z;
  t_tracked : bool;
}.

Record Rest := {
  tables : list (string * Table);
  cur_undo_group : Z;
  next_sequence : Z;
  history_redo : list (list HistoryRecord);
}.

Definition DB := Db Rest.

Definition fault (msg : string) : JsError :=
  {| err_message := Some msg; err_stack := Some ("SqliteError: " +:+ msg) |}.

Fixpoint find_table (t : string) (ts : list (string * Table)) : option Table :=
  match ts with
  | [] => None
  | (n, tb) :: ts => if decide (n = t) then Some tb else find_table t ts
  end.

Fixpoint put_table (t : string) (tb : Table) (ts : list (string * Table))
    : list (string * Table) :=
  match ts with
  | [] => [(t, tb)]
  | (n, tb') :: ts =>
      if decide (n = t) then (t, tb) :: ts else (n, tb') :: put_table t tb ts
  end.

Definition with_rows (rows : list (Z * Row)) (last : Z) (tb : Table) : Table :=
  {| t_columns := t_columns tb; t_rows := rows; t_last_id := last;
     t_tracked := t_tracked tb |}.

(** A column a statement may name: a declared one, or [rowid]. *)
Definition known_column (tb : Table) (c : string) : bool :=
  bool_decide (c ∈ t_columns tb) || bool_decide (c = "rowid").

(** The value of column [c] in the row [rowid]. *)
Definition column_value (c : string) (rowid : Z) (row : Row) : Value :=
  if decide (c = "rowid") then VNum rowid else obj_get c row.

(** A stored value: a parameter that was not given is [NULL]. *)
Definition stored (v : Value) : Value :=
  match v with VUndefined => VNull | _ => v end.

(** The row an [INSERT] of [args] creates. *)
Definition make_row (tb : Table) (rowid : Z) (args : Obj) : Row :=
  (λ c, (c, if decide (c = "id") then VNum rowid else stored (obj_get c args)))
    <$> t_columns tb.

(** Binding [undefined] is a [TypeError]. *)
Definition bind_fault (l : list Value) : option JsError :=
  if decide (VUndefined ∈ l)
  then Some (fault
    "SQLite3 can only bind numbers, strings, bigints, buffers, and null")
  else None.

(** The trigger: a record in the group that is current at the write. *)
Definition record_change (d : DB) (t : string) (seq : Z)
    (c : Z * Change) : HistoryRecord :=
  {| sequence := seq; history_group := cur_undo_group (rest d);
     hr_table := t; hr_rowid := c.1; hr_change := c.2 |}.

Definition record_changes (d : DB) (t : string)
    (cs : list (Z * Change)) : list HistoryRecord :=
  imap (λ i c, record_change d t (next_sequence (rest d) + Z.of_nat i) c) cs.

(** Store the new table and let its triggers append their records. *)
Definition commit (d : DB) (t : string) (tb : Table)
    (recs : list HistoryRecord) : DB :=
  let recs := if t_tracked tb then recs else [] in
  Build_Db (history_undo d ++ recs)
    {| tables := put_table t tb (tables (rest d));
       cur_undo_group := cur_undo_group (rest d);
       next_sequence := next_sequence (rest d) + Z.of_nat (length recs);
       history_redo := history_redo (rest d) |}.

Definition no_such_table (t : string) : JsError :=
  fault ("no such table: " +:+ t).

Definition ref_prepare (q : Sql) (d : DB) : option JsError :=
  let need_table t (k : Table → option JsError) :=
    match find_table t (tables (rest d)) with
    | None => Some (no_such_table t)
    | Some tb => k tb
    end in
  let need_columns t (tb : Table) (cs : list string) :=
    match filter (λ c, ¬ known_column tb c) cs with
    | [] => None
    | c :: _ => Some (fault ("table " +:+ t +:+ " has no column named " +:+ c))
    end in
  match q with
  | SelectWhere t c => need_table t (λ tb, need_columns t tb [c])
  | SelectAll t => need_table t (λ _, None)
  | PragmaTableInfo _ => None
  | InsertInto t keys => need_table t (λ tb, need_columns t tb keys)
  | UpdateSet t keys =>
      need_table t (λ tb,
        match keys with
        | [] => Some (fault "near WHERE: syntax error")
        | _ => need_columns t tb keys
        end)
  | DeleteWhere t c => need_table t (λ tb, need_columns t tb [c])
  end.

Definition matches (c : string) (v : Value) (r : Z * Row) : bool :=
  bool_decide (v ≠ VNull ∧ column_value c r.1 r.2 = v).

Definition ref_get (q : Sql) (v : Value) (d : DB) : JsError + option Row :=
  match ref_prepare q d, bind_fault [v], q with
  | Some e, _, _ => inl e
  | None, Some e, _ => inl e
  | None, None, SelectWhere t c =>
      match find_table t (tables (rest d)) with
      | Some tb => inr (snd <$> head (filter (λ r, matches c v r) (t_rows tb)))
      | None => inl (no_such_table t)
      end
  | None, None, _ => inl (fault "This statement does not return data")
  end.

Definition ref_all (q : Sql) (d : DB) : JsError + list Row :=
  match ref_prepare q d, q with
  | Some e, _ => inl e
  | None, SelectAll t =>
      match find_table t (tables (rest d)) with
      | Some tb => inr (snd <$> t_rows tb)
      | None => inl (no_such_table t)
      end
  | None, PragmaTableInfo t =>
      match find_table t (tables (rest d)) with
      | Some tb =>
          inr (imap (λ i c, [("cid", VNum (Z.of_nat i)); ("name", VStr c)])
                 (t_columns tb))
      | None => inr []
      end
  | None, _ => inl (fault "This statement does not return data")
  end.

Definition set_columns (keys : list string) (args : Obj) (row : Row) : Row :=
  foldl (λ row k, obj_set k (stored (obj_get k args)) row) row keys.

Definition ref_insert (t : string) (keys : list string) (args : Obj) (d : DB)
    : DB * (JsError + Z) :=
  match find_table t (tables (rest d)) with
  | None => (d, inl (no_such_table t))
  | Some tb =>
      let rowid := (t_last_id tb + 1)%Z in
      let row := make_row tb rowid args in
      match bind_fault ((λ k, obj_get k args) <$> keys) with
      | Some e => (d, inl e)
      | None =>
          (commit d t (with_rows (t_rows tb ++ [(rowid, row)]) rowid tb)
             (record_changes d t [(rowid, DeleteMarker)]),
           inr rowid)
      end
  end.

Definition ref_update (t : string) (keys : list string) (args : Obj) (d : DB)
    : DB * (JsError + Z) :=
  match find_table t (tables (rest d)) with
  | None => (d, inl (no_such_table t))
  | Some tb =>
      let id := obj_get "id" args in
      match bind_fault (id :: ((λ k, obj_get k args) <$> keys)) with
      | Some e => (d, inl e)
      | None =>
          match filter (λ r, matches "rowid" id r) (t_rows tb) with
          | [] => (d, inr (t_last_id tb))
          | (rowid, old) :: _ =>
              let new := set_columns keys args old in
              (commit d t
                 (with_rows
                    ((λ r, if decide (r.1 = rowid) then (rowid, new) else r)
                       <$> t_rows tb)
                    (t_last_id tb) tb)
                 (record_changes d t
                    ((λ k, (rowid, PriorValue k (obj_get k old))) <$> keys)),
               inr (t_last_id tb))
          end
      end
  end.

Definition ref_delete (t c : string) (v : Value) (d : DB)
    : DB * (JsError + Z) :=
  match find_table t (tables (rest d)) with
  | None => (d, inl (no_such_table t))
  | Some tb =>
      match bind_fault [v] with
      | Some e => (d, inl e)
      | None =>
          let gone := filter (λ r, matches c v r) (t_rows tb) in
          let kept := filter (λ r, ¬ matches c v r) (t_rows tb) in
          (commit d t (with_rows kept (t_last_id tb) tb)
             (record_changes d t
                (gone ≫= λ r,
                   (λ k, (r.1, PriorValue k (obj_get k r.2))) <$> t_columns tb)),
           inr (t_last_id tb))
      end
  end.

Definition ref_run (q : Sql) (p : Params) (d : DB) : DB * (JsError + Z) :=
  match ref_prepare q d, q, p with
  | Some e, _, _ => (d, inl e)
  | None, InsertInto t keys, Named args => ref_insert t keys args d
  | None, UpdateSet t keys, Named args => ref_update t keys args d
  | None, DeleteWhere t c, Positional v => ref_delete t c v d
  | None, _, _ => (d, inl (fault "Too few parameter values were provided"))
  end.

(** Modelled from the spec: [History.getCurrentUndoGroup] of
    [database.history], the specification's [currentGroup()]: the largest
    group value issued so far. *)
Definition ref_getCurrentUndoGroup (d : DB) : JsError + Z :=
  inr (cur_undo_group (rest d)).

(** Modelled from the spec: [History.incrementUndoGroup] of
    [database.history], the specification's [nextGroup()]: allocates and
    returns a group value strictly greater than the current one; every call
    advances the counter. *)
Definition ref_incrementUndoGroup (d : DB) : DB * (JsError + Z) :=
  let g := (cur_undo_group (rest d) + 1)%Z in
  (Build_Db (history_undo d)
     {| tables := tables (rest d); cur_undo_group := g;
        next_sequence := next_sequence (rest d);
        history_redo := history_redo (rest d) |},
   inr g).

(** Reverse one recorded change: a delete marker removes the row; a prior
    value is written back, into a re-created row if the row is gone. *)
Definition revert (ts : list (string * Table)) (r : HistoryRecord)
    : list (string * Table) :=
  match find_table (hr_table r) ts with
  | None => ts
  | Some tb =>
      let id := hr_rowid r in
      let rows :=
        match hr_change r with
        | DeleteMarker => filter (λ x, x.1 ≠ id) (t_rows tb)
        | PriorValue c v =>
            if bool_decide (id ∈ (fst <$> t_rows tb))
            then (λ x, if decide (x.1 = id) then (id, obj_set c v x.2) else x)
                   <$> t_rows tb
            else t_rows tb ++ [(id, obj_set c v (make_row tb id []))]
        end in
      put_table (hr_table r) (with_rows rows (t_last_id tb) tb) ts
  end.

(** Modelled from the spec: [History.performUndo] of [database.history]:
    replay the history records of the latest group in reverse, and keep
    them as a pending redo slot. *)
Definition ref_performUndo (d : DB) : DB * (JsError + ()) :=
  match foldr (λ r acc, Some (match acc with
                              | Some m => Z.max (history_group r) m
                              | None => history_group r
                              end)) None (history_undo d) with
  | None => (d, inr ())
  | Some g =>
      let mine := filter (λ r, history_group r = g) (history_undo d) in
      let others := filter (λ r, history_group r ≠ g) (history_undo d) in
      (Build_Db others
         {| tables := foldl revert (tables (rest d)) (reverse mine);
            cur_undo_group := cur_undo_group (rest d);
            next_sequence := next_sequence (rest d);
            history_redo := mine :: history_redo (rest d) |},
       inr ())
  end.

(** Modelled from the spec: [History.clearMostRecentRedo] of
    [database.history]: discard the pending redo slot. *)
Definition ref_clearMostRecentRedo (d : DB) : DB * (JsError + ()) :=
  (Build_Db (history_undo d)
     {| tables := tables (rest d); cur_undo_group := cur_undo_group (rest d);
        next_sequence := next_sequence (rest d);
        history_redo := tail (history_redo (rest d)) |},
   inr ()).

#[export] Instance ref_store : Store Rest := {|
  db_prepare := ref_prepare;
  stmt_get := ref_get;
  stmt_all := ref_all;
  stmt_run := ref_run;
  History_getCurrentUndoGroup := ref_getCurrentUndoGroup;
  History_incrementUndoGroup := ref_incrementUndoGroup;
  History_performUndo := ref_performUndo;
  History_clearMostRecentRedo := ref_clearMostRecentRedo;
|}.
End RefStore.


(** * Properties *)

(** ** Reasoning about computations *)

Section MonadFacts.
Context {R : Type}.

Lemma bind_inv {A B} (m : M R A) (k : A → M R B) s s' r :
  bind m k s = (s', r) →
  (∃ s1 a, m s = (s1, inr a) ∧ k a s1 = (s', r))
  ∨ (∃ e, m s = (s', inl e) ∧ r = inl e).
Proof.
  unfold bind. destruct (m s) as [s1 [e|a]]; intros Hk.
  - right. exists e. by inversion Hk.
  - left. by exists s1, a.
Qed.

Lemma bind_inv_ok {A B} (m : M R A) (k : A → M R B) s s' b :
  bind m k s = (s', inr b) →
  ∃ s1 a, m s = (s1, inr a) ∧ k a s1 = (s', inr b).
Proof.
  intros Hb. apply bind_inv in Hb as [Hok|(e & _ & He)]; [done | discriminate].
Qed.

Lemma bind_ok {A B} (m : M R A) (k : A → M R B) s s1 a :
  m s = (s1, inr a) → bind m k s = k a s1.
Proof. unfold bind. by intros ->. Qed.

Lemma bind_throw {A B} (m : M R A) (k : A → M R B) s s1 e :
  m s = (s1, inl e) → bind m k s = (s1, inl e).
Proof. unfold bind. by intros ->. Qed.

Lemma try_catch_inv {A} (body : M R A) handler s s' r :
  try_catch body handler s = (s', r) →
  (∃ a, body s = (s', inr a) ∧ r = inr a)
  ∨ (∃ s1 e, body s = (s1, inl e) ∧ handler e s1 = (s', r)).
Proof.
  unfold try_catch. destruct (body s) as [s1 [e|a]]; intros Hk.
  - right. by exists s1, e.
  - left. exists a. by inversion Hk.
Qed.

Lemma try_finally_inv {A} (body : M R A) fin s s' r :
  try_finally body fin s = (s', r) →
  ∃ s1 r1, body s = (s1, r1)
    ∧ ((∃ u, fin s1 = (s', inr u) ∧ r = r1) ∨ (∃ e, fin s1 = (s', inl e) ∧ r = inl e)).
Proof.
  unfold try_finally. destruct (body s) as [s1 r1]. intros Hk.
  exists s1, r1. split; [done|].
  destruct (fin s1) as [s2 [e|u]]; inversion Hk; subst; eauto.
Qed.

(** A computation that only reads: it returns, and leaves the state. *)
Definition reads {A} (m : M R A) : Prop := ∀ s, ∃ a, m s = (s, inr a).

Lemma for_filter_reads {A} (p : A → M R bool) l :
  (∀ x, reads (p x)) → reads (for_filter p l).
Proof.
  intros Hp. induction l as [|x l IH]; intros s; simpl.
  - by eexists.
  - destruct (Hp x s) as [b Hb]. destruct (IH s) as [xs Hxs].
    rewrite (bind_ok _ _ _ _ _ Hb), (bind_ok _ _ _ _ _ Hxs). by eexists.
Qed.
End MonadFacts.

Ltac inv_bind H :=
  let s1 := fresh "s" in
  let a := fresh "a" in
  let Hm := fresh "Hm" in
  apply bind_inv_ok in H as (s1 & a & Hm & H).

(** ** The Row Accessor *)

Section Accessor.
Context {R : Type} `{Store R}.

(** What [db.prepare(...).get(id)] yields: a fault, no row, or a row. *)
Definition lookup_row (d : Db R) (tableName idColumn : string) (id : Value)
    : JsError + option Row :=
  match db_prepare (SelectWhere tableName idColumn) d with
  | Some e => inl e
  | None => stmt_get (SelectWhere tableName idColumn) id d
  end.

(** The row [getItem] reports in [data]: none on a fault as on a miss. *)
Definition found_row (d : Db R) (tableName idColumn : string) (id : Value)
    : option Row :=
  match lookup_row d tableName idColumn id with
  | inr (Some row) => Some row
  | _ => None
  end.

Lemma getItem_cases id t c s :
  ∃ resp, getItem id t c s = (s, inr resp) ∧
    match lookup_row (db s) t (default "rowid" c) id with
    | inr (Some row) =>
        resp = {| success := true; data := Some row; error := None |}
    | inr None =>
        resp = {| success := false; data := None;
                  error := Some {|
                    message := "No item with " +:+ quoted (default "rowid" c)
                               +:+ "=" +:+ js_String id +:+ " in table "
                               +:+ quoted t;
                    stack := None |} |}
    | inl e =>
        resp = {| success := false; data := None;
                  error := Some {|
                    message := js_or (err_message e)
                                 ("Error getting item "
                                  +:+ quoted (default "rowid" c) +:+ "="
                                  +:+ js_String id);
                    stack := Some (js_or (err_stack e)
                                     "Unable to get error stack") |} |}
    end.
Proof.
  unfold getItem, lookup_row, try_catch, bind, prepare, get, ret.
  destruct (db_prepare _ (db s)) as [e|]; [by eexists|].
  destruct (stmt_get _ id (db s)) as [e|[row|]]; by eexists.
Qed.

Lemma getItem_data id t c s :
  ∃ resp, getItem id t c s = (s, inr resp)
    ∧ data resp = found_row (db s) t (default "rowid" c) id
    ∧ (success resp = true → ∃ row, data resp = Some row)
    ∧ (success resp = true → error resp = None)
    ∧ (success resp = false → data resp = None).
Proof.
  destruct (getItem_cases id t c s) as (resp & Hrun & Hresp).
  exists resp. split; [done|]. unfold found_row.
  destruct (lookup_row _ _ _ _) as [e|[row|]]; subst resp; simpl;
    repeat split; try done; eauto.
Qed.

Lemma getItem_reads id t c : reads (getItem id t c).
Proof. intros s. destruct (getItem_cases id t c s) as (resp & ? & _). eauto. Qed.

End Accessor.

(** ** The shape of responses *)

(** The invariant of the specification's Operation Result, for a result
    type whose neutral value is [neutral]. *)
Definition well_formed {A} (neutral : A) (r : DatabaseResponse A) : Prop :=
  (success r = true → error r = None) ∧ (success r = false → data r = neutral).

Ltac inv_binds H :=
  repeat (let s1 := fresh "s" in
          let a := fresh "a" in
          let Hm := fresh "Hm" in
          apply bind_inv_ok in H as (s1 & a & Hm & H); cbv beta zeta in H).

Section Responses.
Context {R : Type} `{Store R}.

Lemma ret_inv {A} (a b : A) (s s' : State R) :
  ret a s = (s', inr b) → s' = s ∧ b = a.
Proof. unfold ret. by inversion 1. Qed.

Lemma createItems_try_ok items t u s s' r :
  createItems_try items t u s = (s', inr r) →
  success r = true ∧ error r = None.
Proof.
  unfold createItems_try. intros Hr. inv_binds Hr.
  apply ret_inv in Hr as [_ ->]. done.
Qed.

Lemma updateItems_try_ok items t u s s' r :
  updateItems_try items t u s = (s', inr r) →
  success r = true ∧ error r = None.
Proof.
  unfold updateItems_try. intros Hr. inv_binds Hr.
  apply ret_inv in Hr as [_ ->]. done.
Qed.

Lemma deleteItems_try_ok ids t c m u s s' r :
  deleteItems_try ids t c m u s = (s', inr r) →
  success r = true ∧ error r = None.
Proof.
  unfold deleteItems_try. intros Hr. inv_binds Hr.
  apply ret_inv in Hr as [_ ->]. done.
Qed.

Lemma createItems_catch_ok t e s s' r :
  createItems_catch t e s = (s', inr r) → success r = false ∧ data r = [].
Proof.
  unfold createItems_catch. intros Hr. inv_binds Hr.
  apply ret_inv in Hr as [_ ->]. done.
Qed.

Lemma updateItems_catch_ok t e s s' r :
  updateItems_catch t e s = (s', inr r) → success r = false ∧ data r = [].
Proof.
  unfold updateItems_catch. intros Hr. inv_binds Hr.
  apply ret_inv in Hr as [_ ->]. done.
Qed.

Lemma deleteItems_catch_ok t c e s s' r :
  deleteItems_catch t c e s = (s', inr r) → success r = false ∧ data r = [].
Proof.
  unfold deleteItems_catch. intros Hr. inv_binds Hr.
  apply ret_inv in Hr as [_ ->]. done.
Qed.

(** A guarded block whose [try] answers success and whose [catch] answers
    failure with the neutral value answers a well-formed response. *)
Lemma guarded_well_formed {A} (neutral : A)
    (body : M R (DatabaseResponse A)) handler fin s s' r :
  (∀ s s' r, body s = (s', inr r) → success r = true ∧ error r = None) →
  (∀ e s s' r, handler e s = (s', inr r) → success r = false ∧ data r = neutral) →
  try_catch_finally body handler fin s = (s', inr r) →
  well_formed neutral r.
Proof.
  intros Hbody Hhandler Hr. unfold try_catch_finally in Hr.
  apply try_finally_inv in Hr as (s1 & r1 & Htc & [(u & _ & <-)|(e & _ & ?)]);
    [|done].
  apply try_catch_inv in Htc as [(a & Hb & [= <-])|(s2 & e & _ & Hh)].
  - apply Hbody in Hb as [Hs He]. split; [done | congruence].
  - apply Hhandler in Hh as [Hs Hd]. split; [congruence | done].
Qed.

(** C5. Every response that [getItem], [getAllItems], [createItems],
    [updateItems] or [deleteItems] returns is well formed: with
    [success = true] the [error] field is absent, and with [success = false]
    [data] is the neutral value of the result type (absent for the single
    row of [getItem], the empty array for the others). *)
Theorem responses_well_formed :
  (∀ id t c (s s' : State R) r,
     getItem id t c s = (s', inr r) → well_formed None r)
  ∧ (∀ t (s s' : State R) r,
     getAllItems t s = (s', inr r) → well_formed [] r)
  ∧ (∀ items t u (s s' : State R) r,
     createItems items t u s = (s', inr r) → well_formed [] r)
  ∧ (∀ items t u (s s' : State R) r,
     updateItems items t u s = (s', inr r) → well_formed [] r)
  ∧ (∀ ids t u c (s s' : State R) r,
     deleteItems ids t u c s = (s', inr r) → well_formed [] r).
Proof.
  repeat split.
  - destruct (getItem_data id t c s) as (resp & Hrun & _ & _ & He & _).
    rewrite Hrun in H0. inversion H0; subst. auto.
  - destruct (getItem_data id t c s) as (resp & Hrun & _ & _ & _ & Hd).
    rewrite Hrun in H0. inversion H0; subst. auto.
  - revert H0. unfold getAllItems, try_catch, bind, prepare, all, ret.
    destruct (db_prepare _ (db s)); [by inversion 1; subst|].
    destruct (stmt_all _ (db s)); inversion 1; by subst.
  - revert H0. unfold getAllItems, try_catch, bind, prepare, all, ret.
    destruct (db_prepare _ (db s)); [by inversion 1; subst|].
    destruct (stmt_all _ (db s)); inversion 1; by subst.
  - unfold createItems in H0. inv_bind H0. cbv beta in H0.
    eapply guarded_well_formed in H0 as [? _];
      eauto using createItems_try_ok, createItems_catch_ok.
  - unfold createItems in H0. inv_bind H0. cbv beta in H0.
    eapply guarded_well_formed in H0 as [_ ?];
      eauto using createItems_try_ok, createItems_catch_ok.
  - unfold updateItems in H0. inv_bind H0. cbv beta zeta in H0.
    case_bool_decide.
    + apply ret_inv in H0 as [_ ->]. done.
    + eapply guarded_well_formed in H0 as [? _];
        eauto using updateItems_try_ok, updateItems_catch_ok.
  - unfold updateItems in H0. inv_bind H0. cbv beta zeta in H0.
    case_bool_decide.
    + apply ret_inv in H0 as [_ ->]. done.
    + eapply guarded_well_formed in H0 as [_ ?];
        eauto using updateItems_try_ok, updateItems_catch_ok.
  - unfold deleteItems in H0. inv_bind H0. cbv beta zeta in H0.
    destruct a as [notFoundIds itemsMap]. case_bool_decide.
    + apply ret_inv in H0 as [_ ->]. done.
    + eapply guarded_well_formed in H0 as [? _];
        eauto using deleteItems_try_ok, deleteItems_catch_ok.
  - unfold deleteItems in H0. inv_bind H0. cbv beta zeta in H0.
    destruct a as [notFoundIds itemsMap]. case_bool_decide.
    + apply ret_inv in H0 as [_ ->]. done.
    + eapply guarded_well_formed in H0 as [_ ?];
        eauto using deleteItems_try_ok, deleteItems_catch_ok.
Qed.
End Responses.

(** ** Pre-validation *)

Section PreValidation.
Context {R : Type} `{Store R}.

(** The identifiers [updateItems] verifies: those of the items, each once,
    in the order they first occur. *)
Definition target_ids (h : list Obj) (items : list loc) : list Value :=
  js_Set ((λ l, obj_get "id" (default [] (h !! l))) <$> items).

(** The identifiers for which the lookup yields no row. *)
Definition missing_ids (d : Db R) (tableName idColumn : string)
    (ids : list Value) : list Value :=
  filter (λ id, found_row d tableName idColumn id = None) ids.

Lemma for_push_read (items : list loc) (s : State R) :
  for_push read items s = (s, inr ((λ l, default [] (heap s !! l)) <$> items)).
Proof.
  induction items as [|l items IH]; [done|].
  simpl. unfold bind at 1. unfold read at 1. unfold bind. by rewrite IH.
Qed.

Lemma not_found_eq t c id (s : State R) :
  not_found t c id s
  = (s, inr (bool_decide (found_row (db s) t (default "rowid" c) id = None))).
Proof.
  unfold not_found. destruct (getItem_data id t c s) as (resp & Hrun & Hd & _).
  rewrite (bind_ok _ _ _ _ _ Hrun). by rewrite Hd.
Qed.

Lemma for_filter_not_found t c ids (s : State R) :
  for_filter (not_found t c) ids s
  = (s, inr (missing_ids (db s) t (default "rowid" c) ids)).
Proof.
  induction ids as [|id ids IH]; [done|].
  simpl. rewrite (bind_ok _ _ _ _ _ (not_found_eq t c id s)).
  rewrite (bind_ok _ _ _ _ _ IH). unfold ret, missing_ids.
  rewrite filter_cons. by case_bool_decide; case_decide.
Qed.

(** The state in which the verification loop of [updateItems] ends. *)
Definition entered (s : State R) : State R :=
  Build_State (db s) (heap s) (clock s) (ticks s) (calls s)
    {| actionWasPerformed := false; currentId := currentId (locals s) |}.

Lemma updateItems_validate_eq items t (s : State R) :
  updateItems_validate items t s
  = (entered s,
     inr (missing_ids (db s) t "rowid" (target_ids (heap s) items))).
Proof.
  unfold updateItems_validate.
  rewrite (bind_ok _ _ _ _ _ (for_push_read items s)).
  unfold bind at 1. unfold set_actionWasPerformed, set_locals.
  rewrite for_filter_not_found. unfold target_ids. simpl.
  by rewrite <- list_fmap_compose.
Qed.

(** The state in which the verification loop of [deleteItems] ends. *)
Definition entered_delete (s : State R) : State R :=
  Build_State (db s) (heap s) (clock s) (ticks s) (calls s)
    {| actionWasPerformed := false; currentId := VUndefined |}.

(** The [itemsMap] the verification loop builds. *)
Definition items_map (d : Db R) (tableName idColumn : string) (ids : list Z)
    (m : list (Z * Row)) : list (Z * Row) :=
  foldl (λ m id, match found_row d tableName idColumn (VNum id) with
                 | Some row => (id, row) :: m
                 | None => m
                 end) m ids.

Lemma delete_validate_eq t c ids nf m (s : State R) :
  delete_validate t c ids nf m s
  = (s, inr (nf ++ filter (λ id, found_row (db s) t c (VNum id) = None) ids,
             items_map (db s) t c ids m)).
Proof.
  revert nf m. induction ids as [|id ids IH]; intros nf m; simpl.
  - by rewrite app_nil_r.
  - destruct (getItem_data (VNum id) t (Some c) s) as (resp & Hrun & Hd & _).
    rewrite (bind_ok _ _ _ _ _ Hrun). rewrite Hd. simpl.
    rewrite filter_cons.
    destruct (found_row (db s) t c (VNum id)) as [row|] eqn:Hf.
    + rewrite IH. by case_decide.
    + rewrite IH. case_decide; [|done]. by rewrite <- app_assoc.
Qed.

Lemma deleteItems_validate_eq ids t c (s : State R) :
  deleteItems_validate ids t c s
  = (entered_delete s,
     inr (filter (λ id, found_row (db s) t c (VNum id) = None) ids,
          items_map (db s) t c ids [])).
Proof.
  unfold deleteItems_validate, bind, set_locals.
  by rewrite delete_validate_eq.
Qed.

End PreValidation.

(** ** Merging the last group into the previous one *)

(** All the records of [l] belong to group [g]. *)
Definition tagged (g : Z) (l : list HistoryRecord) : Prop :=
  Forall (λ r, history_group r = g) l.

Section GroupMerge.
Implicit Types (h : list HistoryRecord) (r : HistoryRecord).

Lemma filter_none {A} (P : A → Prop) `{∀ x, Decision (P x)} (l : list A) :
  Forall (λ x, ¬ P x) l → filter P l = [].
Proof.
  induction 1 as [|x l Hx _ IH]; [done|].
  rewrite filter_cons. by case_decide.
Qed.

Lemma select_max_group_nil h : select_max_group h = None ↔ h = [].
Proof. destruct h; simpl; split; done. Qed.

Lemma select_max_group_bound h m :
  select_max_group h = Some m → Forall (λ r, (history_group r ≤ m)%Z) h.
Proof.
  revert m. induction h as [|r h IH]; intros m; simpl; [done|].
  destruct (select_max_group h) as [m'|] eqn:Hm'; intros [= <-].
  - constructor; [lia|]. eapply Forall_impl; [by apply IH|]. simpl. lia.
  - apply select_max_group_nil in Hm' as ->. constructor; [lia | done].
Qed.

Lemma select_max_group_elem h m :
  select_max_group h = Some m → ∃ r, r ∈ h ∧ history_group r = m.
Proof.
  revert m. induction h as [|r h IH]; intros m; simpl; [done|].
  destruct (select_max_group h) as [m'|] eqn:Hm'; intros [= <-].
  - destruct (Z.max_spec (history_group r) m') as [[_ ->]|[_ ->]].
    + destruct (IH m' eq_refl) as (r' & ? & ?). exists r'. by split; [right|].
    + exists r. by split; [left|].
  - exists r. by split; [left|].
Qed.

(** The maximum, characterised: a group of the log that bounds the log. *)
Lemma select_max_group_intro h m :
  (∃ r, r ∈ h ∧ history_group r = m) →
  Forall (λ r, (history_group r ≤ m)%Z) h →
  select_max_group h = Some m.
Proof.
  intros (r & Hr & Hg) Hall.
  destruct (select_max_group h) as [m'|] eqn:Hm'.
  - f_equal. apply select_max_group_elem in Hm' as Hex.
    destruct Hex as (r' & Hr' & Hg'). apply select_max_group_bound in Hm'.
    rewrite Forall_forall in Hall, Hm'.
    specialize (Hall r' Hr'). specialize (Hm' r Hr). simpl in *. lia.
  - apply select_max_group_nil in Hm'. subst. by apply not_elem_of_nil in Hr.
Qed.

Lemma update_group_length new old h :
  length (update_group new old h) = length h.
Proof. unfold update_group. by rewrite length_fmap. Qed.

(** What the [UPDATE] does to each record. *)
Lemma update_group_lookup new old h i r :
  h !! i = Some r →
  ∃ r', update_group new old h !! i = Some r'
    ∧ sequence r' = sequence r ∧ hr_table r' = hr_table r
    ∧ hr_rowid r' = hr_rowid r ∧ hr_change r' = hr_change r
    ∧ history_group r'
      = if decide (history_group r = old) then new else history_group r.
Proof.
  intros Hi. unfold update_group. rewrite list_lookup_fmap, Hi. simpl.
  eexists. split; [done|]. by case_decide.
Qed.

(** With a previous group that is not [0], the records of the last group
    move to it. *)
Lemma decrement_history_merges h m p :
  select_max_group h = Some m →
  select_max_group_below (Some m) h = Some p →
  p ≠ 0%Z →
  decrement_history h = update_group p m h.
Proof.
  intros Hm Hp Hnz. unfold decrement_history. rewrite Hm, Hp.
  by case_decide.
Qed.

(** With no strictly smaller group, nothing changes. *)
Lemma decrement_history_alone h :
  (∀ m, select_max_group h = Some m →
        Forall (λ r, ¬ (history_group r < m)%Z) h) →
  decrement_history h = h.
Proof.
  intros Hno. unfold decrement_history.
  destruct (select_max_group h) as [m|] eqn:Hm; [|done].
  simpl. by rewrite (filter_none _ _ (Hno m eq_refl)).
Qed.

(** With a previous group that is [0], nothing changes either. *)
Lemma decrement_history_zero h m :
  select_max_group h = Some m →
  select_max_group_below (Some m) h = Some 0%Z →
  decrement_history h = h.
Proof.
  intros Hm Hp. unfold decrement_history. rewrite Hm, Hp. by case_decide.
Qed.
Lemma decrement_history_length h : length (decrement_history h) = length h.
Proof.
  unfold decrement_history. repeat case_match; try done.
  apply update_group_length.
Qed.

Lemma filter_all {A} (P : A → Prop) `{∀ x, Decision (P x)} (l : list A) :
  Forall P l → filter P l = l.
Proof.
  induction 1 as [|x l Hx _ IH]; [done|].
  rewrite filter_cons. case_decide; [by rewrite IH | done].
Qed.

Lemma update_group_other new old h :
  Forall (λ r, history_group r ≠ old) h → update_group new old h = h.
Proof.
  induction 1 as [|r h Hr _ IH]; [done|].
  unfold update_group in *. rewrite fmap_cons, IH. by case_decide.
Qed.

Lemma update_group_tagged new old h :
  tagged old h → tagged new (update_group new old h).
Proof.
  induction 1 as [|r h Hr _ IH]; [constructor|].
  unfold update_group in *. rewrite fmap_cons. constructor; [|done].
  by case_decide.
Qed.

(** The merge, on a log that ends with a batch of one group [g] above
    everything before it: when the latest earlier group [p] is not [0], the
    batch moves to [p] and the earlier records stay. *)
Lemma decrement_history_folds old batch g p :
  batch ≠ [] → tagged g batch →
  Forall (λ r, (history_group r < g)%Z) old →
  select_max_group old = Some p → p ≠ 0%Z →
  decrement_history (old ++ batch) = old ++ update_group p g batch
  ∧ tagged p (update_group p g batch).
Proof.
  intros Hne Hb Hold Hp Hnz. split; [|by apply update_group_tagged].
  assert (select_max_group (old ++ batch) = Some g) as Hmax.
  { apply select_max_group_intro.
    - destruct batch as [|r batch]; [done|]. exists r.
      split; [apply elem_of_app; right; by left | by inversion Hb].
    - apply Forall_app. split.
      + eapply Forall_impl; [exact Hold|]. simpl. lia.
      + eapply Forall_impl; [exact Hb|]. simpl. lia. }
  assert (select_max_group_below (Some g) (old ++ batch) = Some p) as Hprev.
  { simpl. rewrite filter_app, (filter_all _ old) by done.
    rewrite (filter_none _ batch), app_nil_r; [done|].
    eapply Forall_impl; [exact Hb|]. simpl. lia. }
  rewrite (decrement_history_merges _ g p) by done.
  unfold update_group at 1. rewrite fmap_app. f_equal.
  apply update_group_other. eapply Forall_impl; [exact Hold|]. simpl. lia.
Qed.
End GroupMerge.

(** ** Relating the state before and after *)

Section Respects.
Context {R : Type}.
Variable Rel : State R → State R → Prop.
Context `{!PreOrder Rel}.

(** However [m] ends, the states before and after are related. *)
Definition respects {A} (m : M R A) : Prop :=
  ∀ s s' r, m s = (s', r) → Rel s s'.

(** The same, for the runs of [m] that return. *)
Definition respects_ok {A} (m : M R A) : Prop :=
  ∀ s s' a, m s = (s', inr a) → Rel s s'.

Lemma respects_weaken {A} (m : M R A) : respects m → respects_ok m.
Proof. intros Hm s s' a. apply Hm. Qed.

Lemma respects_reads {A} (m : M R A) : reads m → respects m.
Proof.
  intros Hm s s' r Hr. destruct (Hm s) as [a Ha].
  rewrite Ha in Hr. by inversion Hr.
Qed.

Lemma respects_ret {A} (a : A) : respects (ret a).
Proof. intros s s' r. unfold ret. by inversion 1. Qed.

Lemma respects_throw {A} e : respects (@throw R A e).
Proof. intros s s' r. unfold throw. by inversion 1. Qed.

Lemma respects_bind {A B} (m : M R A) (k : A → M R B) :
  respects m → (∀ a, respects (k a)) → respects (bind m k).
Proof.
  intros Hm Hk s s' r Hr.
  apply bind_inv in Hr as [(s1 & a & Hma & Hka)|(e & Hme & _)].
  - etrans; [by eapply Hm | by eapply Hk].
  - by eapply Hm.
Qed.

Lemma respects_ok_bind {A B} (m : M R A) (k : A → M R B) :
  respects_ok m → (∀ a, respects_ok (k a)) → respects_ok (bind m k).
Proof.
  intros Hm Hk s s' b Hr. apply bind_inv_ok in Hr as (s1 & a & Hma & Hka).
  etrans; [by eapply Hm | by eapply Hk].
Qed.

Lemma respects_when b (m : M R ()) : respects m → respects (when b m).
Proof. destruct b; [done|]. intros _. apply respects_ret. Qed.

Lemma respects_try_catch {A} (body : M R A) handler :
  respects body → (∀ e, respects (handler e)) →
  respects (try_catch body handler).
Proof.
  intros Hb Hh s s' r Hr.
  apply try_catch_inv in Hr as [(a & Hba & _)|(s1 & e & Hbe & Hhe)].
  - by eapply Hb.
  - etrans; [by eapply Hb | by eapply Hh].
Qed.

Lemma respects_try_finally {A} (body : M R A) fin :
  respects body → respects fin → respects (try_finally body fin).
Proof.
  intros Hb Hf s s' r Hr.
  apply try_finally_inv in Hr as (s1 & r1 & Hbr & [(u & Hfu & _)|(e & Hfe & _)]).
  - etrans; [by eapply Hb | by eapply Hf].
  - etrans; [by eapply Hb | by eapply Hf].
Qed.

Lemma respects_for_push {A B} (f : A → M R B) l :
  (∀ x, respects (f x)) → respects (for_push f l).
Proof.
  intros Hf. induction l as [|x l IH]; simpl.
  - apply respects_ret.
  - apply respects_bind; [done|]. intros y.
    apply respects_bind; [done|]. intros ys. apply respects_ret.
Qed.

Lemma respects_ok_for_push {A B} (f : A → M R B) l :
  (∀ x, respects_ok (f x)) → respects_ok (for_push f l).
Proof.
  intros Hf. induction l as [|x l IH]; simpl.
  - apply respects_weaken, respects_ret.
  - apply respects_ok_bind; [done|]. intros y.
    apply respects_ok_bind; [done|]. intros ys.
    apply respects_weaken, respects_ret.
Qed.

Lemma respects_for_filter {A} (p : A → M R bool) l :
  (∀ x, respects (p x)) → respects (for_filter p l).
Proof.
  intros Hp. induction l as [|x l IH]; simpl.
  - apply respects_ret.
  - apply respects_bind; [done|]. intros b.
    apply respects_bind; [done|]. intros xs. apply respects_ret.
Qed.
End Respects.

(** ** The call log *)

Section CallLog.
Context {R : Type} `{Store R}.

(** The calls made between two states. *)
Definition new_calls (s s' : State R) : list Call :=
  drop (length (calls s)) (calls s').

(** The log grew, by calls that satisfy [P]. *)
Definition logged (P : Call → Prop) (s s' : State R) : Prop :=
  ∃ cs, calls s' = calls s ++ cs ∧ Forall P cs.

Definition any_call : Call → Prop := λ _, True.
Definition not_undo : Call → Prop := λ c, c ≠ CallPerformUndo.

Global Instance logged_preorder P : PreOrder (logged P).
Proof.
  split.
  - intros s. exists []. by rewrite app_nil_r.
  - intros s1 s2 s3 (cs & Hcs & HP) (cs' & Hcs' & HP').
    exists (cs ++ cs'). split; [|by apply Forall_app].
    by rewrite Hcs', Hcs, app_assoc.
Qed.

Lemma logged_new_calls P s s' :
  logged P s s' → calls s' = calls s ++ new_calls s s' ∧ Forall P (new_calls s s').
Proof.
  intros (cs & Hcs & HP). unfold new_calls.
  rewrite !Hcs, drop_app_length. done.
Qed.

Lemma new_calls_app (s s' : State R) cs :
  calls s' = calls s ++ cs → new_calls s s' = cs.
Proof. intros Hc. unfold new_calls. by rewrite Hc, drop_app_length. Qed.

Lemma logged_silent P {A} (m : M R A) :
  (∀ s s' r, m s = (s', r) → calls s' = calls s) → respects (logged P) m.
Proof.
  intros Hm s s' r Hr. exists []. rewrite app_nil_r. split; [|done].
  by eapply Hm.
Qed.

Lemma logged_log P c : P c → respects (logged P) (log c).
Proof.
  intros Hc s s' r. unfold log. inversion 1; subst. simpl.
  exists [c]. split; [done | by constructor].
Qed.

Lemma logged_lift_db P {A} c (f : Db R → Db R * (JsError + A)) :
  P c → respects (logged P) (lift_db c f).
Proof.
  intros Hc. unfold lift_db.
  apply respects_bind; [apply _ | by apply logged_log |].
  intros _. apply logged_silent. intros s s' r.
  unfold bind, get_state, set_db, throw, ret.
  destruct (f (db s)) as [d [e|a]]; inversion 1; by subst.
Qed.
End CallLog.

(** Silent steps: those that leave the call log alone. *)
Ltac silent :=
  apply logged_silent;
  let s := fresh "s" in let s' := fresh "s" in let r := fresh "r" in
  let Hr := fresh "Hr" in
  intros s s' r Hr;
  unfold spread, read, alloc, now, when, set_prop, prepare, get, all,
    set_actionWasPerformed, set_currentId, set_locals, get_state, set_db,
    throw, ret, bind in Hr;
  repeat case_match; simplify_eq; done.

Ltac logged_steps :=
  repeat first
    [ solve [apply _]
    | apply respects_ret
    | apply respects_throw
    | apply respects_reads, getItem_reads
    | apply logged_lift_db; cbv beta delta [any_call not_undo]; done
    | apply logged_log; cbv beta delta [any_call not_undo]; done
    | apply respects_bind; [apply _ | | intros]
    | apply respects_when
    | apply respects_for_push; intros
    | apply respects_for_filter; intros
    | silent
    | case_match ].

Section Finalizer.
Context {R : Type} `{Store R}.

Lemma createItems_guarded_logged items t u :
  respects (logged any_call)
    (try_catch (createItems_try items t u) (createItems_catch t)).
Proof.
  unfold createItems_try, createItems_catch, open_group, getColumns, create_one,
    refetch_created, getCurrentUndoGroup, incrementUndoGroup, performUndo,
    clearMostRecentRedo, run, decrementLastUndoGroup.
  apply respects_try_catch; [apply _ | | intros e]; logged_steps.
Qed.

Lemma updateItems_guarded_logged items t u :
  respects (logged any_call)
    (try_catch (updateItems_try items t u) (updateItems_catch t)).
Proof.
  unfold updateItems_try, updateItems_catch, open_group, getColumns, update_one,
    refetch_updated, getCurrentUndoGroup, incrementUndoGroup, performUndo,
    clearMostRecentRedo, run, decrementLastUndoGroup, console_warn.
  apply respects_try_catch; [apply _ | | intros e]; logged_steps.
Qed.

Lemma deleteItems_guarded_logged ids t c m u :
  respects (logged any_call)
    (try_catch (deleteItems_try ids t c m u) (deleteItems_catch t c)).
Proof.
  unfold deleteItems_try, deleteItems_catch, open_group, delete_one,
    getCurrentUndoGroup, incrementUndoGroup, performUndo,
    clearMostRecentRedo, run, decrementLastUndoGroup.
  apply respects_try_catch; [apply _ | | intros e]; logged_steps.
Qed.

(** The [finally] block with [useNextUndoGroup = true] logs one call of
    [incrementUndoGroup], whether that call returns or throws. *)
Lemma group_finally_true (s s' : State R) r :
  group_finally true s = (s', r) →
  calls s' = calls s ++ [CallIncrementUndoGroup].
Proof.
  unfold group_finally, when, incrementUndoGroup, lift_db, bind, log,
    get_state, set_db, throw, ret. simpl.
  destruct (History_incrementUndoGroup (db s)) as [d [e|n]];
    inversion 1; by subst.
Qed.

(** A guarded block with that [finally] block ends its log with the call. *)
Lemma guarded_ends_with_increment {A}
    (body : M R A) handler (s s' : State R) r :
  respects (logged any_call) (try_catch body handler) →
  try_catch_finally body handler (group_finally true) s = (s', r) →
  ∃ cs, calls s' = calls s ++ cs ++ [CallIncrementUndoGroup].
Proof.
  intros Hlog Hr. unfold try_catch_finally in Hr.
  apply try_finally_inv in Hr as (s1 & r1 & Hb & Hfin).
  apply Hlog in Hb as (cs & Hcs & _). exists cs.
  assert (∃ r', group_finally true s1 = (s', r')) as [r' Hf]
    by (destruct Hfin as [(u & ? & _)|(e & ? & _)]; eauto).
  apply group_finally_true in Hf. by rewrite Hf, Hcs, app_assoc.
Qed.

End Finalizer.

(** ** Compensation *)

Section Compensation.
Context {R : Type} `{Store R}.

(** [performUndo] was called between the two states. *)
Definition compensated (s s' : State R) : Prop :=
  CallPerformUndo ∈ new_calls s s'.

Lemma createItems_try_quiet items t u :
  respects (logged not_undo) (createItems_try items t u).
Proof.
  unfold createItems_try, open_group, getColumns, create_one,
    refetch_created, getCurrentUndoGroup, incrementUndoGroup, run,
    decrementLastUndoGroup.
  logged_steps.
Qed.

Lemma updateItems_try_quiet items t u :
  respects (logged not_undo) (updateItems_try items t u).
Proof.
  unfold updateItems_try, open_group, getColumns, update_one,
    refetch_updated, getCurrentUndoGroup, incrementUndoGroup, run,
    decrementLastUndoGroup, console_warn.
  logged_steps.
Qed.

Lemma deleteItems_try_quiet ids t c m u :
  respects (logged not_undo) (deleteItems_try ids t c m u).
Proof.
  unfold deleteItems_try, open_group, delete_one,
    getCurrentUndoGroup, incrementUndoGroup, run, decrementLastUndoGroup.
  logged_steps.
Qed.

Lemma group_finally_quiet u : respects (logged not_undo) (group_finally u).
Proof. unfold group_finally, incrementUndoGroup. logged_steps. Qed.

(** [performUndo] logs its call first, whatever follows. *)
Lemma performUndo_first {A} (k : M R A) (s s' : State R) r :
  (performUndo ;;; k)%js s = (s', r) →
  respects (logged any_call) k →
  ∃ cs, calls s' = calls s ++ CallPerformUndo :: cs.
Proof.
  intros Hr Hk. apply bind_inv in Hr as [(s1 & [] & Hp & Hk')|(e & Hp & _)].
  - apply Hk in Hk' as (cs & Hcs & _). exists cs. rewrite Hcs.
    revert Hp. unfold performUndo, lift_db, bind, log, get_state, set_db,
      throw, ret. simpl.
    destruct (History_performUndo (db s)) as [d [e|[]]]; inversion 1; subst.
    simpl. by rewrite <- app_assoc.
  - exists []. revert Hp. unfold performUndo, lift_db, bind, log, get_state,
      set_db, throw, ret. simpl.
    destruct (History_performUndo (db s)) as [d [e'|[]]]; inversion 1; by subst.
Qed.

(** The [catch] blocks: [createItems] compensates always, the other two
    when [actionWasPerformed] is set. *)
Lemma createItems_catch_compensates t e (s s' : State R) r :
  createItems_catch t e s = (s', r) →
  ∃ cs, calls s' = calls s ++ CallPerformUndo :: cs.
Proof.
  intros Hr. eapply performUndo_first; [exact Hr|].
  unfold clearMostRecentRedo. logged_steps.
Qed.

Lemma flagged_catch_compensates {A} (a : A) (s s' : State R) r :
  (s0 <- get_state ;;
   when (actionWasPerformed (locals s0)) (performUndo ;;; clearMostRecentRedo) ;;;
   ret a)%js s = (s', r) →
  if actionWasPerformed (locals s)
  then ∃ cs, calls s' = calls s ++ CallPerformUndo :: cs
  else calls s' = calls s.
Proof.
  unfold bind at 1. unfold get_state at 1.
  destruct (actionWasPerformed (locals s)); simpl.
  - intros Hr. apply bind_inv in Hr as [(s1 & [] & Hp & Hk')|(e & Hp & _)].
    + unfold ret in Hk'. simplify_eq.
      eapply (performUndo_first clearMostRecentRedo); [exact Hp|].
      unfold clearMostRecentRedo. logged_steps.
    + eapply (performUndo_first clearMostRecentRedo); [exact Hp|].
      unfold clearMostRecentRedo. logged_steps.
  - unfold bind, ret. by inversion 1.
Qed.

(** A guarded block whose [try] and [finally] blocks never call
    [performUndo], and whose [catch] block calls it when [comp] holds of the
    state the fault left: compensation happens exactly when the [try] block
    throws in a state of which [comp] holds. *)
Lemma guarded_compensation {A} (comp : State R → bool)
    (body : M R A) handler fin (s s' : State R) r :
  respects (logged not_undo) body →
  respects (logged not_undo) fin →
  (∀ e s1 s2 r, handler e s1 = (s2, r) →
     if comp s1 then ∃ cs, calls s2 = calls s1 ++ CallPerformUndo :: cs
     else calls s2 = calls s1) →
  respects (logged any_call) (try_catch body handler) →
  try_catch_finally body handler fin s = (s', r) →
  compensated s s' ↔ ∃ s1 e, body s = (s1, inl e) ∧ comp s1 = true.
Proof.
  intros Hbody Hfin Hh Hany Hr. unfold try_catch_finally in Hr.
  apply try_finally_inv in Hr as (s2 & r2 & Htc & Hf).
  assert (logged not_undo s2 s') as (cf & Hcf & Hqf).
  { destruct Hf as [(u & Hf & _)|(e & Hf & _)]; by eapply Hfin. }
  apply try_catch_inv in Htc as [(a & Hb & _)|(s1 & e & Hb & Hhe)].
  - apply Hbody in Hb as Hlog. destruct Hlog as (cb & Hcb & Hqb).
    unfold compensated. rewrite (new_calls_app s s' (cb ++ cf))
      by (by rewrite Hcf, Hcb, app_assoc).
    split.
    + intros [Hin|Hin]%elem_of_app.
      * rewrite Forall_forall in Hqb. by destruct (Hqb _ Hin).
      * rewrite Forall_forall in Hqf. by destruct (Hqf _ Hin).
    + intros (s1 & e & Hb' & _). congruence.
  - apply Hbody in Hb as Hlog. destruct Hlog as (cb & Hcb & Hqb).
    specialize (Hh _ _ _ _ Hhe). unfold compensated.
    destruct (comp s1) eqn:Hcomp.
    + destruct Hh as (ch & Hch).
      rewrite (new_calls_app s s' (cb ++ CallPerformUndo :: ch ++ cf))
        by (rewrite Hcf, Hch, Hcb; by rewrite <- !app_assoc).
      split; [eauto|]. intros _. apply elem_of_app. right. by left.
    + rewrite (new_calls_app s s' (cb ++ cf))
        by (by rewrite Hcf, Hh, Hcb, app_assoc).
      split.
      * intros [Hin|Hin]%elem_of_app.
        -- rewrite Forall_forall in Hqb. by destruct (Hqb _ Hin).
        -- rewrite Forall_forall in Hqf. by destruct (Hqf _ Hin).
      * intros (s1' & e' & Hb' & Hc'). congruence.
Qed.
End Compensation.

(** ** The flag [actionWasPerformed] *)

(** Symbolic execution of a loop body, one [bind] at a time: each step is
    resolved to the state it leaves before the next one is looked at. *)
Ltac prim_unfold H :=
  cbv [spread read alloc now when set_prop prepare get all
       set_actionWasPerformed set_currentId set_locals get_state set_db
       run console_warn lift_db log throw ret bind
       getCurrentUndoGroup incrementUndoGroup performUndo
       clearMostRecentRedo] in H.

Ltac prim H :=
  repeat first [progress prim_unfold H | case_match];
  simplify_eq;
  cbn [db heap clock ticks calls locals actionWasPerformed currentId
       fst snd] in *.

Ltac step H :=
  lazymatch type of H with
  | bind _ _ _ = _ =>
      let s1 := fresh "s" in
      let a := fresh "a" in
      let Hm := fresh "Hm" in
      let e := fresh "e" in
      let He := fresh "He" in
      apply bind_inv in H as [(s1 & a & Hm & H)|(e & Hm & He)];
      [ prim Hm; cbv beta zeta in H | prim Hm ]
  end.

Ltac run_body H :=
  repeat step H; try prim H;
  cbn [db heap clock ticks calls locals actionWasPerformed currentId
       fst snd] in *.

Section Flag.
Context {R : Type} `{Store R}.

Definition flag (s : State R) : bool := actionWasPerformed (locals s).

Lemma create_one_flag t cols l (s s' : State R) id :
  create_one t cols l s = (s', inr id) → flag s' = true.
Proof. unfold create_one, flag. intros Hr. by run_body Hr. Qed.

Lemma update_one_flag t cols l (s s' : State R) ids :
  update_one t cols l s = (s', inr ids) →
  (ids ≠ [] → flag s' = true) ∧ (flag s = true → flag s' = true).
Proof. unfold update_one, flag. intros Hr. by run_body Hr. Qed.

Lemma delete_one_flag t c m id (s s' : State R) row :
  delete_one t c m id s = (s', inr row) → flag s' = true.
Proof. unfold delete_one, flag. intros Hr. by run_body Hr. Qed.

(** A loop whose every returning turn sets the flag. *)
Lemma for_push_sets_flag {A B} (f : A → M R B) l (s s' : State R) ys :
  (∀ x s s' y, f x s = (s', inr y) → flag s' = true) →
  for_push f l s = (s', inr ys) →
  l ≠ [] → flag s' = true.
Proof.
  intros Hf. revert s ys. induction l as [|x l IH]; intros s ys Hr Hl; [done|].
  simpl in Hr. inv_binds Hr. apply ret_inv in Hr as [-> ->].
  destruct l as [|x' l].
  - simpl in Hm0. apply ret_inv in Hm0 as [-> _]. by eapply Hf.
  - by eapply IH.
Qed.

Lemma update_loop_flag t cols items (s s' : State R) idss :
  for_push (update_one t cols) items s = (s', inr idss) →
  flag s = true ∨ concat idss ≠ [] → flag s' = true.
Proof.
  revert s idss. induction items as [|l items IH]; intros s idss Hr Hor.
  - simpl in Hr. apply ret_inv in Hr as [-> ->]. by destruct Hor.
  - simpl in Hr. inv_binds Hr. apply ret_inv in Hr as [-> ->].
    apply update_one_flag in Hm as [Hids Hmono].
    eapply IH; [done|]. destruct Hor as [Hs|Hc]; [by left; auto|].
    simpl in Hc. destruct a as [|id ids]; [by right|]. left. by apply Hids.
Qed.

(** The re-fetch loops read: they leave the state however they end. *)
Lemma refetch_created_reads t ids :
  respects eq (for_push (refetch_created t) ids : M R _).
Proof.
  apply respects_for_push; [apply _|]. intros id. unfold refetch_created.
  apply respects_bind; [apply _ | apply respects_reads, getItem_reads; apply _ |].
  intros r. case_match; [apply respects_ret | apply respects_throw]; apply _.
Qed.

Lemma refetch_updated_reads t ids :
  respects eq (for_push (refetch_updated t) ids : M R _).
Proof.
  apply respects_for_push; [apply _|]. intros id. unfold refetch_updated.
  apply respects_bind; [apply _ | apply respects_reads, getItem_reads; apply _ |].
  intros r. repeat case_match;
    first [apply respects_ret | apply respects_throw]; apply _.
Qed.
End Flag.

Section CompensationTheorem.
Context {R : Type} `{Store R}.

Lemma createItems_unfold items t u (s : State R) :
  createItems items t u s
  = try_catch_finally (createItems_try items t (default true u))
      (createItems_catch t) (group_finally (default true u)) (entered s).
Proof. done. Qed.

Lemma updateItems_unfold items t u (s : State R) :
  missing_ids (db s) t "rowid" (target_ids (heap s) items) = [] →
  updateItems items t u s
  = try_catch_finally (updateItems_try items t (default true u))
      (updateItems_catch t) (group_finally (default true u)) (entered s).
Proof.
  intros Hmiss. unfold updateItems.
  rewrite (bind_ok _ _ _ _ _ (updateItems_validate_eq items t s)).
  by rewrite Hmiss.
Qed.

Lemma deleteItems_unfold ids t u c (s : State R) :
  filter (λ id, found_row (db s) t (default "rowid" c) (VNum id) = None) ids
    = [] →
  deleteItems ids t u c s
  = try_catch_finally
      (deleteItems_try ids t (default "rowid" c)
         (items_map (db s) t (default "rowid" c) ids []) (default false u))
      (deleteItems_catch t (default "rowid" c))
      (group_finally (default false u)) (entered_delete s).
Proof.
  intros Hmiss. unfold deleteItems.
  rewrite (bind_ok _ _ _ _ _ (deleteItems_validate_eq ids t _ s)).
  by rewrite Hmiss.
Qed.

(** A fault of the re-fetch loop is a fault of the [try] block. *)
Lemma createItems_refetch_fault items t u (s0 s1 s2 s3 s4 : State R)
    g cols ids e :
  open_group s0 = (s1, inr g) →
  getColumns t s1 = (s2, inr cols) →
  for_push (create_one t cols) items s2 = (s3, inr ids) →
  for_push (refetch_created t) ids s3 = (s4, inl e) →
  createItems_try items t u s0 = (s4, inl e).
Proof.
  intros Hg Hc Hw Hf. unfold createItems_try.
  rewrite (bind_ok _ _ _ _ _ Hg), (bind_ok _ _ _ _ _ Hc), (bind_ok _ _ _ _ _ Hw).
  by rewrite (bind_throw _ _ _ _ _ Hf).
Qed.

Lemma updateItems_refetch_fault items t u (s0 s1 s2 s3 s4 : State R)
    g cols ids e :
  open_group s0 = (s1, inr g) →
  getColumns t s1 = (s2, inr cols) →
  for_push (update_one t cols) items s2 = (s3, inr ids) →
  for_push (refetch_updated t) (concat ids) s3 = (s4, inl e) →
  updateItems_try items t u s0 = (s4, inl e)
  ∧ actionWasPerformed (locals s4) = true.
Proof.
  intros Hg Hc Hw Hf. split.
  - unfold updateItems_try.
    rewrite (bind_ok _ _ _ _ _ Hg), (bind_ok _ _ _ _ _ Hc),
      (bind_ok _ _ _ _ _ Hw).
    by rewrite (bind_throw _ _ _ _ _ Hf).
  - assert (s4 = s3) as -> by (symmetry; by eapply refetch_updated_reads).
    eapply update_loop_flag; [done|]. right. intros Hnil.
    rewrite Hnil in Hf. done.
Qed.

End CompensationTheorem.

(** ** A table without row identifiers

    A store with one table declared [WITHOUT ROWID] and no history
    triggers: an [INSERT] stores the row, [lastInsertRowid] stays [0], and a
    lookup by [rowid] selects nothing. *)
Module NoRowid.

Definition Rest := list Row.

Definition insert (q : Sql) (p : Params) (d : Db Rest)
    : Db Rest * (JsError + Z) :=
  match q, p with
  | InsertInto _ _, Named args => (Build_Db (history_undo d) (rest d ++ [args]), inr 0%Z)
  | _, _ => (d, inr 0%Z)
  end.

#[export] Instance store : Store Rest := {|
  db_prepare := λ _ _, None;
  stmt_get := λ _ _ _, inr None;
  stmt_all := λ _ d, inr (rest d);
  stmt_run := insert;
  History_getCurrentUndoGroup := λ _, inr 0%Z;
  History_incrementUndoGroup := λ d, (d, inr 1%Z);
  History_performUndo := λ d, (d, inr ());
  History_clearMostRecentRedo := λ d, (d, inr ());
|}.

(** A caller that holds one object, [{name: "a"}]. *)
Definition start : State Rest :=
  Build_State (Build_Db [] []) [[("name", VStr "a")]] (λ _, "2024-05-01T10:00:00.000Z")
    0 [] {| actionWasPerformed := false; currentId := VUndefined |}.


End NoRowid.

(** ** The caller's objects *)

Section Heap.
Context {R : Type} `{Store R}.

(** Every object that existed is still there, unchanged. *)
Definition heap_grows (s s' : State R) : Prop := heap s `prefix_of` heap s'.

Global Instance heap_grows_preorder : PreOrder heap_grows.
Proof.
  split.
  - intros s. unfold heap_grows. done.
  - intros s1 s2 s3. unfold heap_grows. by etrans.
Qed.

Lemma heap_silent {A} (m : M R A) :
  (∀ s s' r, m s = (s', r) → heap s' = heap s) → respects heap_grows m.
Proof. intros Hm s s' r Hr. unfold heap_grows. by rewrite (Hm _ _ _ Hr). Qed.

(** A write to an object allocated later leaves the earlier ones. *)
Lemma prefix_insert_fresh {A} (h h' : list A) (l : nat) (x : A) :
  (length h ≤ l)%nat → h `prefix_of` h' → h `prefix_of` <[l:=x]> h'.
Proof.
  intros Hl [k ->]. exists (<[l - length h:=x]> k).
  by rewrite insert_app_r_alt.
Qed.

Lemma create_one_heap t cols l : respects heap_grows (create_one t cols l).
Proof.
  intros s s' r Hr. unfold create_one, heap_grows in *. run_body Hr;
    repeat first
      [ apply prefix_insert_fresh; [rewrite ?length_app; simpl; lia|]
      | apply prefix_app_r
      | reflexivity ].
Qed.

Lemma update_one_heap t cols l : respects heap_grows (update_one t cols l).
Proof.
  intros s s' r Hr. unfold update_one, heap_grows in *. run_body Hr;
    repeat first
      [ apply prefix_insert_fresh; [rewrite ?length_app; simpl; lia|]
      | apply prefix_app_r
      | reflexivity ].
Qed.
End Heap.

Ltac heap_quiet :=
  apply heap_silent;
  let s := fresh "s" in let s' := fresh "s" in let r := fresh "r" in
  let Hr := fresh "Hr" in
  intros s s' r Hr; run_body Hr; done.

Ltac heap_steps :=
  repeat first
    [ solve [apply _]
    | apply respects_ret
    | apply respects_throw
    | apply respects_reads, getItem_reads
    | apply create_one_heap
    | apply update_one_heap
    | apply respects_bind; [apply _ | | intros]
    | apply respects_when
    | apply respects_try_catch; [apply _ | | intros]
    | apply respects_try_finally
    | apply respects_for_push; intros
    | apply respects_for_filter; intros
    | heap_quiet
    | case_match ].

Section HeapTheorem.
Context {R : Type} `{Store R}.

Lemma createItems_heap items t u : respects heap_grows (createItems items t u).
Proof.
  unfold createItems, try_catch_finally, createItems_try, createItems_catch,
    group_finally, open_group, getColumns, refetch_created,
    getCurrentUndoGroup, incrementUndoGroup, performUndo,
    clearMostRecentRedo, decrementLastUndoGroup.
  heap_steps.
Qed.

Lemma updateItems_heap items t u : respects heap_grows (updateItems items t u).
Proof.
  unfold updateItems, updateItems_validate, not_found, try_catch_finally,
    updateItems_try, updateItems_catch,
    group_finally, open_group, getColumns, refetch_updated,
    getCurrentUndoGroup, incrementUndoGroup, performUndo,
    clearMostRecentRedo, decrementLastUndoGroup.
  heap_steps.
Qed.

(** C10. [createItems] and [updateItems] leave every object the caller
    holds as it was, however they end: the identifier is stripped from, and
    the timestamps are written to, copies that the call allocates. Every
    reference that pointed to an object before the call points to the same
    key-value pairs after it. *)
Theorem caller_objects_unchanged :
  (∀ items t u (s s' : State R) r,
     createItems items t u s = (s', r) →
     ∀ l o, heap s !! l = Some o → heap s' !! l = Some o)
  ∧ (∀ items t u (s s' : State R) r,
     updateItems items t u s = (s', r) →
     ∀ l o, heap s !! l = Some o → heap s' !! l = Some o).
Proof.
  split; intros items t u s s' r Hr l o Hl.
  - apply createItems_heap in Hr. by eapply prefix_lookup_Some.
  - apply updateItems_heap in Hr. by eapply prefix_lookup_Some.
Qed.
End HeapTheorem.

(** ** Folding a batch into the caller's step *)

Section Merge.
Context {R : Type} `{Store R}.

Definition not_run : Call → Prop := λ c, ∀ q p, c ≠ CallRun q p.

(** Between the two states the flag was set, or it kept its value and no
    statement was run. *)
Definition ran_or_unflagged (s s' : State R) : Prop :=
  ∃ cs, calls s' = calls s ++ cs
    ∧ (flag s' = true ∨ (flag s' = flag s ∧ Forall not_run cs)).

Global Instance ran_or_unflagged_preorder : PreOrder ran_or_unflagged.
Proof.
  split.
  - intros s. exists []. rewrite app_nil_r. split; [done|]. by right.
  - intros s1 s2 s3 (cs & Hcs & H12) (cs' & Hcs' & H23).
    exists (cs ++ cs'). split; [by rewrite Hcs', Hcs, app_assoc|].
    destruct H23 as [?|[Hf23 Hq23]]; [by left|].
    destruct H12 as [?|[Hf12 Hq12]]; [left; congruence|].
    right. split; [congruence | by apply Forall_app].
Qed.

Lemma ran_or_unflagged_quiet {A} (m : M R A) :
  (∀ s s' a, m s = (s', inr a) → flag s' = flag s ∧ logged not_run s s') →
  respects_ok ran_or_unflagged m.
Proof.
  intros Hm s s' a Hr. destruct (Hm _ _ _ Hr) as (Hf & cs & Hcs & Hq).
  exists cs. split; [done|]. by right.
Qed.

Lemma ran_or_unflagged_set {A} (m : M R A) :
  respects (logged any_call) m →
  (∀ s s' a, m s = (s', inr a) → flag s' = true) →
  respects_ok ran_or_unflagged m.
Proof.
  intros Hlog Hm s s' a Hr. destruct (Hlog _ _ _ Hr) as (cs & Hcs & _).
  exists cs. split; [done|]. left. by eapply Hm.
Qed.

Lemma create_one_logged t cols l :
  respects (logged any_call) (create_one t cols l : M R _).
Proof. unfold create_one, run. logged_steps. Qed.

Lemma delete_one_logged t c m id :
  respects (logged any_call) (delete_one t c m id : M R _).
Proof. unfold delete_one, run. logged_steps. Qed.

Lemma update_one_ran t cols l :
  respects_ok ran_or_unflagged (update_one t cols l : M R _).
Proof.
  intros s s' ids Hr. unfold update_one in Hr. unfold ran_or_unflagged, flag.
  run_body Hr;
    first
      [ eexists; split; [reflexivity|]; left; done
      | eexists; split; [reflexivity|]; right; split; [done|];
        repeat constructor; by intros ?? ].
Qed.

(** The group-open step, spelled out. *)
Lemma open_group_inv (s s' : State R) g :
  open_group s = (s', inr g) →
  ∃ c d n,
    History_getCurrentUndoGroup (db s) = inr c
    ∧ History_incrementUndoGroup (db s) = (d, inr n)
    ∧ g = negb (bool_decide (c = n))
    ∧ s' = Build_State d (heap s) (clock s) (ticks s)
             (calls s ++ [CallGetCurrentUndoGroup; CallIncrementUndoGroup])
             (locals s).
Proof.
  unfold open_group, getCurrentUndoGroup, incrementUndoGroup. intros Hr.
  run_body Hr. eexists _, _, _. repeat split; try done.
  by rewrite <- app_assoc.
Qed.

Lemma open_group_ran : respects_ok ran_or_unflagged (open_group : M R _).
Proof.
  intros s s' g Hr. apply open_group_inv in Hr as (c & d & n & _ & _ & _ & ->).
  eexists. split; [done|]. right. split; [done|].
  repeat constructor; by intros ??.
Qed.

Lemma getColumns_reads_ok t (s s' : State R) r :
  getColumns t s = (s', r) → s' = s.
Proof. unfold getColumns. intros Hr. by run_body Hr. Qed.

(** The group advances: [incrementUndoGroup] returns another value than
    [getCurrentUndoGroup]. *)
Definition group_advances (d : Db R) : Prop :=
  ∀ c d' n,
    History_getCurrentUndoGroup d = inr c →
    History_incrementUndoGroup d = (d', inr n) → c ≠ n.

(** A statement was run between the two states. *)
Definition ran (s s' : State R) : Prop := ∃ q p, CallRun q p ∈ new_calls s s'.

(** The end of the three [try] blocks: with [useNextUndoGroup = false] and
    the group advanced, a statement run since the block was entered makes
    the block call [decrementLastUndoGroup]. *)
Lemma finalize_merges {A} (a : A) (cond : State R → bool)
    (s0 s s' : State R) r :
  ran_or_unflagged s0 s → flag s0 = false →
  (∀ st, cond st = actionWasPerformed (locals st)) →
  (st <- get_state ;; when (cond st) decrementLastUndoGroup ;;; ret a)%js s
  = (s', inr r) →
  ran s0 s' → CallDecrementLastUndoGroup ∈ new_calls s0 s'.
Proof.
  intros (cs & Hcs & Hor) Hf0 Hcond Hr (q & p & Hran).
  unfold bind at 1 in Hr. unfold get_state at 1 in Hr. rewrite Hcond in Hr.
  destruct (actionWasPerformed (locals s)) eqn:Hflag; simpl in Hr.
  - unfold decrementLastUndoGroup in Hr. run_body Hr.
    rewrite (new_calls_app s0 _ (cs ++ [CallDecrementLastUndoGroup]))
      by (simpl; by rewrite Hcs, app_assoc).
    apply elem_of_app. right. by left.
  - run_body Hr. destruct Hor as [Hs|[_ Hq]]; [unfold flag in Hs; congruence|].
    rewrite (new_calls_app s0 s' cs) in Hran by done.
    rewrite Forall_forall in Hq. by destruct (Hq _ Hran q p).
Qed.
End Merge.

Section MergeTheorem.
Context {R : Type} `{Store R}.

(** A guarded block without the final advance that answers success
    answers from its [try] block. *)
Lemma guarded_success {B} (body : M R (DatabaseResponse (list B)))
    (handler : JsError → M R (DatabaseResponse (list B)))
    (s s' : State R) r :
  (∀ e s1 s2 r, handler e s1 = (s2, inr r) → success r = false ∧ data r = []) →
  try_catch_finally body handler (group_finally false) s = (s', inr r) →
  success r = true →
  body s = (s', inr r).
Proof.
  intros Hh Hr Hs. unfold try_catch_finally in Hr.
  apply try_finally_inv in Hr as (s1 & r1 & Htc & [(u & Hf & <-)|(e & Hf & ?)]);
    [|done].
  unfold group_finally, when, ret in Hf. simplify_eq.
  apply try_catch_inv in Htc as [(a & Hb & ?)|(s2 & e & _ & Hhe)].
  - by simplify_eq.
  - apply Hh in Hhe as [? _]. congruence.
Qed.

Lemma open_group_advanced (s s' : State R) g :
  group_advances (db s) → open_group s = (s', inr g) → g = true.
Proof.
  intros Hadv Hg. apply open_group_inv in Hg as (c & d & n & Hc & Hn & -> & _).
  rewrite bool_decide_false; [done|]. by eapply Hadv.
Qed.

Lemma createItems_merges items t (s s' : State R) r :
  createItems items t (Some false) s = (s', inr r) →
  success r = true → group_advances (db s) → ran s s' →
  CallDecrementLastUndoGroup ∈ new_calls s s'.
Proof.
  intros Hr Hs Hadv Hran. rewrite createItems_unfold in Hr.
  apply guarded_success in Hr;
    [|intros ????; apply createItems_catch_ok | done].
  unfold createItems_try in Hr.
  apply bind_inv_ok in Hr as (s1 & g & Hg & Hr).
  apply bind_inv_ok in Hr as (s2 & cols & Hc & Hr).
  apply bind_inv_ok in Hr as (s3 & ids & Hw & Hr).
  apply bind_inv_ok in Hr as (s4 & rows & Hf & Hr).
  apply (open_group_advanced (entered s)) in Hg as Hgt; [|done]. subst g.
  change (new_calls s s') with (new_calls (entered s) s').
  eapply (finalize_merges _ _ (entered s)); [| done | | exact Hr | exact Hran].
  - etrans; [by eapply open_group_ran|].
    apply getColumns_reads_ok in Hc as ->.
    apply refetch_created_reads in Hf as <-.
    eapply respects_ok_for_push; [apply _ | | exact Hw].
    intros l. apply ran_or_unflagged_set;
      [apply create_one_logged | intros ???; apply create_one_flag].
  - intros st. simpl. by destruct (actionWasPerformed (locals st)).
Qed.

Lemma updateItems_merges items t (s s' : State R) r :
  updateItems items t (Some false) s = (s', inr r) →
  success r = true → group_advances (db s) → ran s s' →
  CallDecrementLastUndoGroup ∈ new_calls s s'.
Proof.
  intros Hr Hs Hadv Hran.
  destruct (decide (missing_ids (db s) t "rowid" (target_ids (heap s) items)
                    = [])) as [Hmiss|Hmiss].
  2:{ unfold updateItems in Hr.
      rewrite (bind_ok _ _ _ _ _ (updateItems_validate_eq items t s)) in Hr.
      rewrite bool_decide_true in Hr by done.
      unfold ret in Hr. by simplify_eq. }
  rewrite updateItems_unfold in Hr by done.
  apply guarded_success in Hr;
    [|intros ????; apply updateItems_catch_ok | done].
  unfold updateItems_try in Hr.
  apply bind_inv_ok in Hr as (s1 & g & Hg & Hr).
  apply bind_inv_ok in Hr as (s2 & cols & Hc & Hr).
  apply bind_inv_ok in Hr as (s3 & ids & Hw & Hr).
  apply bind_inv_ok in Hr as (s4 & rows & Hf & Hr).
  apply (open_group_advanced (entered s)) in Hg as Hgt; [|done]. subst g.
  change (new_calls s s') with (new_calls (entered s) s').
  eapply (finalize_merges _ _ (entered s)); [| done | | exact Hr | exact Hran].
  - etrans; [by eapply open_group_ran|].
    apply getColumns_reads_ok in Hc as ->.
    apply refetch_updated_reads in Hf as <-.
    eapply respects_ok_for_push; [apply _ | | exact Hw].
    intros l. apply update_one_ran.
  - intros st. simpl. by destruct (actionWasPerformed (locals st)).
Qed.

Lemma deleteItems_merges ids t c (s s' : State R) r :
  deleteItems ids t (Some false) c s = (s', inr r) →
  success r = true → group_advances (db s) → ran s s' →
  CallDecrementLastUndoGroup ∈ new_calls s s'.
Proof.
  intros Hr Hs Hadv Hran.
  destruct (decide (filter (λ id, found_row (db s) t (default "rowid" c)
                                    (VNum id) = None) ids = []))
    as [Hmiss|Hmiss].
  2:{ unfold deleteItems in Hr.
      rewrite (bind_ok _ _ _ _ _ (deleteItems_validate_eq ids t _ s)) in Hr.
      rewrite bool_decide_true in Hr by done.
      unfold ret in Hr. by simplify_eq. }
  rewrite deleteItems_unfold in Hr by done.
  apply guarded_success in Hr;
    [|intros ????; apply deleteItems_catch_ok | done].
  unfold deleteItems_try in Hr.
  apply bind_inv_ok in Hr as (s1 & g & Hg & Hr).
  apply bind_inv_ok in Hr as (s2 & n & Hi & Hr).
  apply bind_inv_ok in Hr as (s3 & rows & Hw & Hr).
  apply (open_group_advanced (entered_delete s)) in Hg as Hgt; [|done]. subst g.
  change (new_calls s s') with (new_calls (entered_delete s) s').
  eapply (finalize_merges _ _ (entered_delete s));
    [| done | | exact Hr | exact Hran].
  - etrans; [by eapply open_group_ran|].
    etrans.
    + eapply (ran_or_unflagged_quiet incrementUndoGroup); [|exact Hi].
      intros st st' a Ha. unfold incrementUndoGroup in Ha. run_body Ha.
      split; [done|]. eexists. split; [reflexivity|].
      repeat constructor; by intros ??.
    + eapply respects_ok_for_push; [apply _ | | exact Hw].
      intros id. apply ran_or_unflagged_set;
        [apply delete_one_logged | intros ???; apply delete_one_flag].
  - intros st. simpl. by destruct (actionWasPerformed (locals st)).
Qed.
End MergeTheorem.

(** ** The reference store: what a call records *)

Module RefStoreFacts.
Import RefStore.

Definition cur (s : State Rest) : Z := cur_undo_group (rest (db s)).
Definition hist (s : State Rest) : list HistoryRecord := history_undo (db s).

(** The database gained records of its current group, and kept the group. *)
Definition db_records (d d' : DB) : Prop :=
  cur_undo_group (rest d') = cur_undo_group (rest d)
  ∧ ∃ new, history_undo d' = history_undo d ++ new
           ∧ tagged (cur_undo_group (rest d)) new.

Lemma db_records_refl d : db_records d d.
Proof.
  split; [done|]. exists []. rewrite app_nil_r. split; [done | constructor].
Qed.

Lemma record_changes_tagged d t cs :
  tagged (cur_undo_group (rest d)) (record_changes d t cs).
Proof.
  apply Forall_forall. intros r Hr. unfold record_changes in Hr.
  apply elem_of_lookup_imap in Hr as (i & c & -> & _). done.
Qed.

Lemma commit_records d t tb cs :
  db_records d (commit d t tb (record_changes d t cs)).
Proof.
  split; [done|]. unfold commit. simpl. eexists. split; [done|].
  destruct (t_tracked tb); [apply record_changes_tagged | constructor].
Qed.

Lemma ref_run_records q p d d' r :
  ref_run q p d = (d', r) → db_records d d'.
Proof.
  unfold ref_run, ref_insert, ref_update, ref_delete. intros Hr.
  repeat case_match; simplify_eq;
    first [apply db_records_refl | apply commit_records].
Qed.
(** The state gained records of the current group and kept the group; and
    the flag was set, or it kept its value and nothing was recorded. *)
Definition records (s s' : State Rest) : Prop :=
  cur s' = cur s
  ∧ ∃ new, hist s' = hist s ++ new ∧ tagged (cur s) new
           ∧ (flag s' = true ∨ (flag s' = flag s ∧ new = [])).

#[export] Instance records_preorder : PreOrder records.
Proof.
  split.
  - intros s. split; [done|]. exists []. rewrite app_nil_r.
    split; [done|]. split; [constructor | by right].
  - intros s1 s2 s3 (Hc12 & n12 & Hh12 & Ht12 & Hf12)
      (Hc23 & n23 & Hh23 & Ht23 & Hf23).
    split; [congruence|]. exists (n12 ++ n23).
    split; [by rewrite Hh23, Hh12, app_assoc|].
    split; [apply Forall_app; split; [done | by rewrite <- Hc12]|].
    destruct Hf23 as [?|[Hf23 ->]]; [by left|].
    destruct Hf12 as [?|[Hf12 ->]]; [left; congruence|].
    right. split; [congruence | done].
Qed.

Ltac use_run :=
  match goal with
  | Hx : stmt_run _ _ _ = _ |- _ =>
      let Hcur := fresh "Hcur" in
      let new := fresh "new" in
      let Hh := fresh "Hh" in
      let Ht := fresh "Ht" in
      apply ref_run_records in Hx as (Hcur & new & Hh & Ht);
      split; [exact Hcur|]; exists new;
      split; [exact Hh|]; split; [exact Ht|]; by left
  end.

Lemma create_one_records t cols l : respects_ok records (create_one t cols l).
Proof.
  intros s s' id Hr. unfold create_one in Hr. unfold records, cur, hist, flag.
  run_body Hr; use_run.
Qed.

Lemma update_one_records t cols l : respects_ok records (update_one t cols l).
Proof.
  intros s s' id Hr. unfold update_one in Hr. unfold records, cur, hist, flag.
  run_body Hr;
    first
      [ use_run
      | split; [done|]; exists []; rewrite app_nil_r; split; [done|];
        split; [constructor | by right] ].
Qed.

Lemma delete_one_records t c m id : respects_ok records (delete_one t c m id).
Proof.
  intros s s' row Hr. unfold delete_one in Hr. unfold records, cur, hist, flag.
  run_body Hr; use_run.
Qed.

(** The group-open step on this store: the counter advances by one, and
    the value changed. *)
Lemma ref_open_group (s s' : State Rest) g :
  open_group s = (s', inr g) →
  g = true ∧ cur s' = (cur s + 1)%Z ∧ hist s' = hist s ∧ flag s' = flag s.
Proof.
  intros Hg. apply open_group_inv in Hg as (c & d & n & Hc & Hn & -> & ->).
  simpl in Hc, Hn. unfold ref_getCurrentUndoGroup in Hc.
  unfold ref_incrementUndoGroup in Hn. simplify_eq.
  split; [|done]. rewrite bool_decide_false; [done | lia].
Qed.

Lemma ref_incrementUndoGroup_ok (s s' : State Rest) r :
  incrementUndoGroup s = (s', r) →
  cur s' = (cur s + 1)%Z ∧ hist s' = hist s ∧ flag s' = flag s
  ∧ ∃ n, r = inr n.
Proof.
  unfold incrementUndoGroup. intros Hr. run_body Hr;
    match goal with
    | Hx : History_incrementUndoGroup _ = _ |- _ =>
        simpl in Hx; unfold ref_incrementUndoGroup in Hx; simplify_eq
    end.
  unfold cur, hist, flag. simpl. eauto.
Qed.

(** On this store the group always advances. *)
Lemma ref_group_advances (d : DB) : group_advances d.
Proof.
  intros c d' n Hc Hn. simpl in Hc, Hn.
  unfold ref_getCurrentUndoGroup in Hc. unfold ref_incrementUndoGroup in Hn.
  simplify_eq. lia.
Qed.

(** The end of a [try] block that merges. *)
Lemma ref_finalize {A} (a : A) (cond : State Rest → bool)
    (s s' : State Rest) r :
  (∀ st, cond st = actionWasPerformed (locals st)) →
  (st <- get_state ;; when (cond st) decrementLastUndoGroup ;;; ret a)%js s
  = (s', inr r) →
  cur s' = cur s
  ∧ hist s' = if flag s then decrement_history (hist s) else hist s.
Proof.
  intros Hcond Hr. unfold bind at 1 in Hr. unfold get_state at 1 in Hr.
  rewrite Hcond in Hr. unfold flag.
  destruct (actionWasPerformed (locals s)); simpl in Hr.
  - unfold decrementLastUndoGroup in Hr. by run_body Hr.
  - by run_body Hr.
Qed.

(** The end of a [try] block that does not merge. *)
Lemma ref_no_finalize {A} (a : A) (s s' : State Rest) r :
  (st <- get_state ;; when false decrementLastUndoGroup ;;; ret a)%js s
  = (s', inr r) →
  s' = s.
Proof. intros Hr. by run_body Hr. Qed.
(** A guarded block that answers success answered from its [try] block,
    and its [finally] block returned. *)
Lemma guarded_returns {B} (body : M Rest (DatabaseResponse (list B)))
    (handler : JsError → M Rest (DatabaseResponse (list B))) fin
    (s s' : State Rest) r :
  (∀ e s1 s2 r, handler e s1 = (s2, inr r) → success r = false ∧ data r = []) →
  try_catch_finally body handler fin s = (s', inr r) →
  success r = true →
  ∃ s1, body s = (s1, inr r) ∧ ∃ u, fin s1 = (s', inr u).
Proof.
  intros Hh Hr Hs. unfold try_catch_finally in Hr.
  apply try_finally_inv in Hr as (s1 & r1 & Htc & [(u & Hf & <-)|(e & Hf & ?)]);
    [|done].
  apply try_catch_inv in Htc as [(a & Hb & ?)|(s2 & e & _ & Hhe)].
  - simplify_eq. eauto.
  - apply Hh in Hhe as [? _]. congruence.
Qed.

(** The [finally] block on this store. *)
Lemma ref_group_finally (u : bool) (s s' : State Rest) x :
  group_finally u s = (s', inr x) →
  cur s' = (if u then cur s + 1 else cur s)%Z ∧ hist s' = hist s.
Proof.
  unfold group_finally. destruct u; simpl; intros Hr.
  - apply bind_inv_ok in Hr as (s1 & n & Hi & Hr).
    apply ret_inv in Hr as [-> _].
    by apply ref_incrementUndoGroup_ok in Hi as (? & ? & _).
  - by apply ret_inv in Hr as [-> _].
Qed.

(** What a successful call added to the log: with the final advance, records
    of one new group; without it, such records after the merge. *)
Definition appended (s s' : State Rest) : Prop :=
  ∃ k new, (0 < k)%Z ∧ tagged (cur s + k) new
    ∧ hist s' = hist s ++ new ∧ cur s' = (cur s + k + 1)%Z.

Definition folded (s s' : State Rest) : Prop :=
  ∃ k new, (0 < k)%Z ∧ tagged (cur s + k) new ∧ cur s' = (cur s + k)%Z
    ∧ (hist s' = decrement_history (hist s ++ new)
       ∨ (new = [] ∧ hist s' = hist s)).

(** From the state after the group was opened to the outcome. *)
Lemma ref_outcome (u : bool) (k : Z) (s sa sb s1 s' : State Rest) x :
  (0 < k)%Z →
  cur sa = (cur s + k)%Z → hist sa = hist s → flag sa = false →
  records sa sb →
  cur s1 = cur sb →
  hist s1 = (if negb u && flag sb then decrement_history (hist sb) else hist sb) →
  group_finally u s1 = (s', inr x) →
  if u then appended s s' else folded s s'.
Proof.
  intros Hk Hca Hha Hfa (Hcb & new & Hhb & Htb & Hfb) Hc1 Hh1 Hfin.
  apply ref_group_finally in Hfin as [Hc' Hh'].
  rewrite Hca in Htb. rewrite Hha in Hhb.
  destruct u; simpl in *.
  - exists k, new. repeat split; [done | done | congruence | lia].
  - exists k, new. repeat split; [done | done | lia |].
    destruct Hfb as [Hfb|[Hfb ->]].
    + left. rewrite Hfb in Hh1. congruence.
    + right. split; [done|]. rewrite Hfa in Hfb. rewrite Hfb in Hh1.
      rewrite app_nil_r in Hhb. congruence.
Qed.

Lemma createItems_history items t (u : bool) (s s' : State Rest) r :
  createItems items t (Some u) s = (s', inr r) → success r = true →
  if u then appended s s' else folded s s'.
Proof.
  intros Hr Hs. rewrite createItems_unfold in Hr.
  apply guarded_returns in Hr as (s1 & Hr & x & Hfin);
    [|intros ????; apply createItems_catch_ok | done].
  unfold createItems_try in Hr.
  apply bind_inv_ok in Hr as (sa & g & Hg & Hr).
  apply bind_inv_ok in Hr as (s2 & cols & Hc & Hr).
  apply bind_inv_ok in Hr as (sb & ids & Hw & Hr).
  apply bind_inv_ok in Hr as (s4 & rows & Hf & Hr).
  apply ref_open_group in Hg as (-> & Hca & Hha & Hfa).
  apply getColumns_reads_ok in Hc as ->.
  apply refetch_created_reads in Hf as <-.
  assert (records sa sb) as Hrec.
  { eapply respects_ok_for_push; [apply _ | | exact Hw].
    intros l. apply create_one_records. }
  simpl in Hfin. eapply (ref_outcome u 1 s sa sb s1); try done.
  - destruct u; simpl in Hr.
    + by apply ref_no_finalize in Hr as ->.
    + eapply ref_finalize in Hr as [? _]; [done|].
      intros st. simpl. by destruct (actionWasPerformed (locals st)).
  - destruct u; simpl in Hr.
    + by apply ref_no_finalize in Hr as ->.
    + eapply ref_finalize in Hr as [_ ?]; [done|].
      intros st. simpl. by destruct (actionWasPerformed (locals st)).
Qed.
Lemma updateItems_history items t (u : bool) (s s' : State Rest) r :
  updateItems items t (Some u) s = (s', inr r) → success r = true →
  if u then appended s s' else folded s s'.
Proof.
  intros Hr Hs.
  destruct (decide (missing_ids (db s) t "rowid" (target_ids (heap s) items)
                    = [])) as [Hmiss|Hmiss].
  2:{ unfold updateItems in Hr.
      rewrite (bind_ok _ _ _ _ _ (updateItems_validate_eq items t s)) in Hr.
      rewrite bool_decide_true in Hr by done.
      unfold ret in Hr. by simplify_eq. }
  rewrite updateItems_unfold in Hr by done.
  apply guarded_returns in Hr as (s1 & Hr & x & Hfin);
    [|intros ????; apply updateItems_catch_ok | done].
  unfold updateItems_try in Hr.
  apply bind_inv_ok in Hr as (sa & g & Hg & Hr).
  apply bind_inv_ok in Hr as (s2 & cols & Hc & Hr).
  apply bind_inv_ok in Hr as (sb & ids & Hw & Hr).
  apply bind_inv_ok in Hr as (s4 & rows & Hf & Hr).
  apply ref_open_group in Hg as (-> & Hca & Hha & Hfa).
  apply getColumns_reads_ok in Hc as ->.
  apply refetch_updated_reads in Hf as <-.
  assert (records sa sb) as Hrec.
  { eapply respects_ok_for_push; [apply _ | | exact Hw].
    intros l. apply update_one_records. }
  simpl in Hfin. eapply (ref_outcome u 1 s sa sb s1); try done.
  - destruct u; simpl in Hr.
    + by apply ref_no_finalize in Hr as ->.
    + eapply ref_finalize in Hr as [? _]; [done|].
      intros st. simpl. by destruct (actionWasPerformed (locals st)).
  - destruct u; simpl in Hr.
    + by apply ref_no_finalize in Hr as ->.
    + eapply ref_finalize in Hr as [_ ?]; [done|].
      intros st. simpl. by destruct (actionWasPerformed (locals st)).
Qed.

Lemma deleteItems_history ids t c (u : bool) (s s' : State Rest) r :
  deleteItems ids t (Some u) c s = (s', inr r) → success r = true →
  if u then appended s s' else folded s s'.
Proof.
  intros Hr Hs.
  destruct (decide (filter (λ id, found_row (db s) t (default "rowid" c)
                                    (VNum id) = None) ids = []))
    as [Hmiss|Hmiss].
  2:{ unfold deleteItems in Hr.
      rewrite (bind_ok _ _ _ _ _ (deleteItems_validate_eq ids t _ s)) in Hr.
      rewrite bool_decide_true in Hr by done.
      unfold ret in Hr. by simplify_eq. }
  rewrite deleteItems_unfold in Hr by done.
  apply guarded_returns in Hr as (s1 & Hr & x & Hfin);
    [|intros ????; apply deleteItems_catch_ok | done].
  unfold deleteItems_try in Hr.
  apply bind_inv_ok in Hr as (sa & g & Hg & Hr).
  apply bind_inv_ok in Hr as (sa' & n & Hi & Hr).
  apply bind_inv_ok in Hr as (sb & rows & Hw & Hr).
  apply ref_open_group in Hg as (-> & Hca & Hha & Hfa).
  apply ref_incrementUndoGroup_ok in Hi as (Hca' & Hha' & Hfa' & _).
  assert (records sa' sb) as Hrec.
  { eapply respects_ok_for_push; [apply _ | | exact Hw].
    intros id. apply delete_one_records. }
  simpl in Hfin. eapply (ref_outcome u 2 s sa' sb s1); try done.
  - change (cur (entered_delete s)) with (cur s) in Hca. lia.
  - by rewrite Hha', Hha.
  - by rewrite Hfa', Hfa.
  - destruct u; simpl in Hr.
    + by apply ref_no_finalize in Hr as ->.
    + eapply ref_finalize in Hr as [? _]; [done|].
      intros st. simpl. by destruct (actionWasPerformed (locals st)).
  - destruct u; simpl in Hr.
    + by apply ref_no_finalize in Hr as ->.
    + eapply ref_finalize in Hr as [_ ?]; [done|].
      intros st. simpl. by destruct (actionWasPerformed (locals st)).
Qed.
Lemma perform_history m t (u : bool) (s s' : State Rest) r :
  perform m t (Some u) s = (s', inr r) → success r = true →
  if u then appended s s' else folded s s'.
Proof.
  destruct m; simpl.
  - apply createItems_history.
  - apply updateItems_history.
  - apply deleteItems_history.
Qed.

(** Two calls in a row, the first with the final advance and the second
    without: when each of them recorded a change, the records of both are in
    one group, above every group the log held before. *)
Lemma two_calls_one_step m1 m2 t1 t2 (s0 s1 s2 : State Rest) r1 r2 :
  (0 ≤ cur s0)%Z →
  Forall (λ r, (history_group r ≤ cur s0)%Z) (hist s0) →
  perform m1 t1 (Some true) s0 = (s1, inr r1) → success r1 = true →
  perform m2 t2 (Some false) s1 = (s2, inr r2) → success r2 = true →
  (length (hist s0) < length (hist s1))%nat →
  (length (hist s1) < length (hist s2))%nat →
  ∃ g new, hist s2 = hist s0 ++ new ∧ tagged g new
    ∧ Forall (λ r, (history_group r < g)%Z) (hist s0).
Proof.
  intros Hc0 Hinv H1 Hs1 H2 Hs2 Hl1 Hl2.
  apply perform_history in H1 as (k1 & new1 & Hk1 & Ht1 & Hh1 & Hcur1); [|done].
  apply perform_history in H2 as (k2 & new2 & Hk2 & Ht2 & Hcur2 & Hh2); [|done].
  destruct Hh2 as [Hh2|[-> Hh2]]; [|rewrite Hh2 in Hl2; lia].
  assert (new1 ≠ []) as Hn1.
  { intros ->. rewrite Hh1, app_nil_r in Hl1. lia. }
  assert (new2 ≠ []) as Hn2.
  { intros ->. rewrite Hh2, decrement_history_length, app_nil_r in Hl2. lia. }
  destruct (decrement_history_folds (hist s1) new2 (cur s1 + k2) (cur s0 + k1))
    as [Hfold Htag]; try done.
  - rewrite Hh1. apply Forall_app. split.
    + eapply Forall_impl; [exact Hinv|]. simpl. lia.
    + eapply Forall_impl; [exact Ht1|]. simpl. lia.
  - rewrite Hh1. apply select_max_group_intro.
    + destruct new1 as [|r new1]; [done|]. exists r.
      split; [apply elem_of_app; right; by left | by inversion Ht1].
    + apply Forall_app. split.
      * eapply Forall_impl; [exact Hinv|]. simpl. lia.
      * eapply Forall_impl; [exact Ht1|]. simpl. lia.
  - lia.
  - exists (cur s0 + k1)%Z, (new1 ++ update_group (cur s0 + k1) (cur s1 + k2) new2).
    split; [by rewrite Hh2, Hfold, Hh1, app_assoc|].
    split; [by apply Forall_app|].
    eapply Forall_impl; [exact Hinv|]. simpl. lia.
Qed.
End RefStoreFacts.


(** ** Rows created by [createItems] on the reference store *)


Section CreateOne.
Context {R : Type} `{Store R}.

(** The object [create_one] hands to the statement: the item without its
    [id], with the timestamps the table has columns for. *)
Definition stamped (columns : list Value) (ts : string) (o : Obj) : Obj :=
  let o := obj_remove "id" o in
  let o := if has columns "created_at" then obj_set "created_at" (VStr ts) o
           else o in
  if has columns "updated_at" then obj_set "updated_at" (VStr ts) o else o.

Lemma obj_remove_absent k o : obj_has k o = false → obj_remove k o = o.
Proof.
  unfold obj_has, obj_remove, obj_keys. intros Hk.
  apply bool_decide_eq_false in Hk. apply filter_all.
  apply Forall_forall. intros [k' v] Hin Heq. simpl in Heq. subst k'.
  apply Hk. apply list_elem_of_fmap. by exists (k, v).
Qed.

Lemma snoc_lookup {A} (h : list A) x : (h ++ [x]) !! length h = Some x.
Proof. by apply list_lookup_middle. Qed.

Lemma snoc_lookup' {A} (h : list A) x y :
  ((h ++ [x]) ++ [y]) !! (length h + 1) = Some y.
Proof.
  replace (length h + 1) with (length (h ++ [x])) by (rewrite length_app; simpl; lia).
  apply snoc_lookup.
Qed.

Ltac fwd :=
  rewrite (bind_ok _ _ _ _ _ eq_refl); cbv beta;
  cbn [db heap clock ticks calls locals actionWasPerformed currentId].

Lemma create_one_eq t cols l (s : State R) :
  let o := default [] (heap s !! l) in
  let args := stamped cols (clock s (ticks s)) o in
  let q := InsertInto t (insertClause args) in
  ∃ h', heap s `prefix_of` h' ∧
    create_one t cols l s
    = match db_prepare q (db s) with
      | Some e =>
          (Build_State (db s) h' (clock s) (S (ticks s)) (calls s) (locals s),
           inl e)
      | None =>
          (Build_State (stmt_run q (Named args) (db s)).1 h' (clock s)
             (S (ticks s)) (calls s ++ [CallRun q (Named args)])
             {| actionWasPerformed := true;
                currentId := currentId (locals s) |},
           (stmt_run q (Named args) (db s)).2)
      end.
Proof.
  intros o args q. unfold create_one.
  fwd. fwd. rewrite snoc_lookup. cbn [default from_option id]. fold o.
  assert (∀ (h' : list Obj) (a : Obj) (st : State R),
    st = Build_State (db s) h' (clock s) (S (ticks s)) (calls s) (locals s) →
    a = args →
    (prepare (InsertInto t (insertClause a)) ;;;
     set_actionWasPerformed true ;;;
     run (InsertInto t (insertClause a)) (Named a))%js st
    = match db_prepare q (db s) with
      | Some e => (st, inl e)
      | None =>
          (Build_State (stmt_run q (Named args) (db s)).1 h' (clock s)
             (S (ticks s)) (calls s ++ [CallRun q (Named args)])
             {| actionWasPerformed := true;
                currentId := currentId (locals s) |},
           (stmt_run q (Named args) (db s)).2)
      end) as Htail.
  { intros h' a st -> ->. fold q. unfold bind at 1. unfold prepare at 1.
    cbn [db]. destruct (db_prepare q (db s)); [done|].
    fwd. unfold run, lift_db, bind, log, get_state, set_db, throw, ret.
    cbn [db heap clock ticks calls locals].
    by destruct (stmt_run q (Named args) (db s)) as [d [e|n]]. }
  assert (∀ h' : list Obj, heap s `prefix_of` h' →
    ∀ st a, st = Build_State (db s) h' (clock s) (S (ticks s)) (calls s)
                   (locals s) → a = args →
    ∃ h', heap s `prefix_of` h' ∧
      (prepare (InsertInto t (insertClause a)) ;;;
       set_actionWasPerformed true ;;;
       run (InsertInto t (insertClause a)) (Named a))%js st
      = match db_prepare q (db s) with
        | Some e =>
            (Build_State (db s) h' (clock s) (S (ticks s)) (calls s) (locals s),
             inl e)
        | None =>
            (Build_State (stmt_run q (Named args) (db s)).1 h' (clock s)
               (S (ticks s)) (calls s ++ [CallRun q (Named args)])
               {| actionWasPerformed := true;
                  currentId := currentId (locals s) |},
             (stmt_run q (Named args) (db s)).2)
        end) as Hend.
  { intros h' Hpre st a -> ->. exists h'. split; [done|].
    rewrite (Htail h' args _ eq_refl eq_refl). by destruct (db_prepare _ _). }
  destruct (obj_has "id" o) eqn:Hid.
  - fwd. fwd.
    destruct (has cols "created_at") eqn:Hc, (has cols "updated_at") eqn:Hu;
      cbn [when]; fwd; fwd; fwd.
    all: rewrite ?length_app; cbn [length].
    all: repeat first
      [ rewrite list_lookup_insert_eq
          by (rewrite ?length_insert, ?length_app; simpl; lia)
      | rewrite snoc_lookup' ].
    all: cbn [default from_option id].
    all: eapply Hend; [| reflexivity | subst args; unfold stamped; by rewrite Hc, Hu].
    all: repeat first
      [ apply prefix_insert_fresh; [lia|]
      | rewrite <- app_assoc; apply prefix_app_r; reflexivity ].
  - fwd. fwd.
    destruct (has cols "created_at") eqn:Hc, (has cols "updated_at") eqn:Hu;
      cbn [when]; fwd; fwd; fwd.
    all: repeat first
      [ rewrite list_lookup_insert_eq
          by (rewrite ?length_insert, ?length_app; simpl; lia)
      | rewrite snoc_lookup ].
    all: cbn [default from_option id].
    all: eapply Hend;
      [| reflexivity
       | subst args; unfold stamped;
         by rewrite Hc, Hu, (obj_remove_absent _ _ Hid)].
    all: repeat first
      [ apply prefix_insert_fresh; [lia|]
      | apply prefix_app_r; reflexivity ].
Qed.
End CreateOne.

Section ObjFacts.
Implicit Types (o : Obj) (k : string) (v : Value).

Lemma obj_get_set_eq k v o : obj_get k (obj_set k v o) = v.
Proof.
  induction o as [|[k' v'] o IH]; simpl.
  - by case_decide.
  - case_decide; simpl; case_decide; congruence.
Qed.

Lemma obj_get_set_ne k k' v o :
  k ≠ k' → obj_get k' (obj_set k v o) = obj_get k' o.
Proof.
  intros Hne. induction o as [|[k0 v0] o IH]; simpl.
  - by case_decide.
  - repeat (case_decide; simpl); congruence.
Qed.

Lemma obj_set_Forall (P : string * Value → Prop) k v o :
  P (k, v) → Forall P o → Forall P (obj_set k v o).
Proof.
  intros Hkv. induction 1 as [|[k' v'] o Hx Ho IH]; simpl.
  - by constructor.
  - case_decide; by constructor.
Qed.

(** A property of every pair holds of the value found under a key. *)
Lemma obj_get_Forall (P : Value → Prop) k o :
  Forall (λ kv, P kv.2) o → k ∈ obj_keys o → P (obj_get k o).
Proof.
  induction 1 as [|[k' v'] o Hx _ IH]; simpl.
  - by intros ?%not_elem_of_nil.
  - intros Hin. case_decide; [done|]. apply IH.
    apply elem_of_cons in Hin as [?|?]; [congruence | done].
Qed.

Lemma elem_of_js_Set_add v seen l :
  v ∈ js_Set_add seen l ↔ v ∈ seen ∨ v ∈ l.
Proof.
  revert seen. induction l as [|x l IH]; intros seen; simpl.
  - split; [by left | intros [?|?%not_elem_of_nil]; done].
  - rewrite IH. case_decide.
    + rewrite elem_of_cons. split; [tauto|]. intros [?|[->|?]]; tauto.
    + rewrite elem_of_app, !elem_of_cons, elem_of_nil. tauto.
Qed.

Lemma elem_of_js_Set v l : v ∈ js_Set l ↔ v ∈ l.
Proof.
  unfold js_Set. rewrite elem_of_js_Set_add. split; [|by right].
  by intros [?%not_elem_of_nil|?].
Qed.
End ObjFacts.

Module RefCreate.
Import RefStore RefStoreFacts.

(** An object the table takes: apart from [id], its keys are declared
    columns and none of its values is [undefined]. *)
Definition insertable (tb : Table) (o : Obj) : Prop :=
  Forall (λ kv, kv.1 ∈ t_columns tb ∧ kv.2 ≠ VUndefined) (obj_remove "id" o).

(** The columns [getColumns] reports for a table. *)
Definition columns_of (tb : Table) : list Value := js_Set (VStr <$> t_columns tb).

Lemma has_columns_of tb c : c ∈ t_columns tb → has (columns_of tb) c = true.
Proof.
  intros Hc. unfold has, columns_of. apply bool_decide_eq_true.
  apply elem_of_js_Set. apply list_elem_of_fmap. by exists c.
Qed.

Lemma table_info_names (cols : list string) (n : nat) :
  obj_get "name"
    <$> imap (λ i c, [("cid", VNum (Z.of_nat (n + i))); ("name", VStr c)]) cols
  = VStr <$> cols.
Proof.
  revert n. induction cols as [|c cols IH]; intros n; [done|].
  rewrite imap_cons, !fmap_cons. f_equal.
  etrans; [|apply (IH (S n))]. f_equal.
  apply imap_ext. intros i x _. simpl. do 4 f_equal. lia.
Qed.

Lemma ref_getColumns t tb (s : State Rest) :
  find_table t (tables (rest (db s))) = Some tb →
  getColumns t s = (s, inr (columns_of tb)).
Proof.
  intros Ht. unfold getColumns, bind, prepare, all, ret. simpl.
  unfold ref_all. simpl. rewrite Ht. unfold columns_of.
  by rewrite <- (table_info_names (t_columns tb) 0).
Qed.

Lemma find_table_put t tb ts : find_table t (put_table t tb ts) = Some tb.
Proof.
  induction ts as [|[n tb'] ts IH]; simpl.
  - by case_decide.
  - case_decide; simpl; by case_decide.
Qed.

Lemma stamped_insertable tb ts o :
  "created_at" ∈ t_columns tb → "updated_at" ∈ t_columns tb →
  insertable tb o →
  let args := stamped (columns_of tb) ts o in
  Forall (λ kv, kv.1 ∈ t_columns tb ∧ kv.2 ≠ VUndefined) args
  ∧ obj_get "created_at" args = VStr ts
  ∧ obj_get "updated_at" args = VStr ts.
Proof.
  intros Hc Hu Ho. unfold stamped.
  rewrite !has_columns_of by done. simpl. split; [|split].
  - by repeat apply obj_set_Forall.
  - rewrite obj_get_set_ne by done. apply obj_get_set_eq.
  - apply obj_get_set_eq.
Qed.

(** The row identifier the next insert gets, and the row it stores. *)
Definition next_id (tb : Table) : Z := (t_last_id tb + 1)%Z.

Definition inserted (tb : Table) (args : Obj) : Table :=
  with_rows (t_rows tb ++ [(next_id tb, make_row tb (next_id tb) args)])
    (next_id tb) tb.

Lemma ref_insert_ok t tb (d : DB) args :
  find_table t (tables (rest d)) = Some tb →
  Forall (λ kv, kv.1 ∈ t_columns tb ∧ kv.2 ≠ VUndefined) args →
  db_prepare (InsertInto t (insertClause args)) d = None
  ∧ ∃ d', stmt_run (InsertInto t (insertClause args)) (Named args) d
          = (d', inr (next_id tb))
    ∧ find_table t (tables (rest d')) = Some (inserted tb args).
Proof.
  intros Ht Hargs.
  assert (ref_prepare (InsertInto t (insertClause args)) d = None) as Hprep.
  { unfold ref_prepare. rewrite Ht. rewrite filter_none; [done|].
    unfold insertClause. rewrite merge_sort_Permutation.
    unfold obj_keys. apply Forall_fmap. eapply Forall_impl; [exact Hargs|].
    intros [k v] [Hk _]. simpl in *. unfold known_column.
    rewrite bool_decide_true by done. simpl. tauto. }
  split; [exact Hprep|]. simpl. unfold ref_run. rewrite Hprep.
  unfold ref_insert. rewrite Ht.
  assert (bind_fault ((λ k, obj_get k args) <$> insertClause args) = None)
    as ->.
  { unfold bind_fault. case_decide as Hin; [|done]. exfalso.
    apply list_elem_of_fmap in Hin as (k & Hk & Hin).
    unfold insertClause in Hin. rewrite merge_sort_Permutation in Hin.
    revert Hk. apply not_eq_sym.
    apply (obj_get_Forall (λ v, v ≠ VUndefined)); [|done].
    eapply Forall_impl; [exact Hargs|]. by intros [? ?] [_ ?]. }
  eexists. split; [done|]. unfold commit. simpl. apply find_table_put.
Qed.

Lemma ref_create_one t tb l o (s : State Rest) :
  find_table t (tables (rest (db s))) = Some tb →
  "created_at" ∈ t_columns tb → "updated_at" ∈ t_columns tb →
  heap s !! l = Some o → insertable tb o →
  ∃ s', create_one t (columns_of tb) l s = (s', inr (next_id tb))
    ∧ find_table t (tables (rest (db s')))
      = Some (inserted tb (stamped (columns_of tb) (clock s (ticks s)) o))
    ∧ clock s' = clock s ∧ ticks s' = S (ticks s)
    ∧ heap s `prefix_of` heap s'.
Proof.
  intros Ht Hc Hu Hl Ho.
  destruct (create_one_eq t (columns_of tb) l s) as (h' & Hpre & Heq).
  rewrite Hl in Heq. cbn [default from_option id] in Heq.
  destruct (stamped_insertable tb (clock s (ticks s)) o Hc Hu Ho) as (Hargs & _).
  destruct (ref_insert_ok t tb (db s) _ Ht Hargs) as (Hprep & d' & Hrun & Ht').
  rewrite Hprep, Hrun in Heq. eexists. split; [exact Heq|]. done.
Qed.

Lemma known_rowid tb : known_column tb "rowid" = true.
Proof. unfold known_column. by rewrite orb_true_r. Qed.

Lemma ref_found_row t tb (d : DB) (id : Z) :
  find_table t (tables (rest d)) = Some tb →
  found_row d t "rowid" (VNum id)
  = snd <$> head (filter (λ r, matches "rowid" (VNum id) r) (t_rows tb)).
Proof.
  intros Ht. unfold found_row, lookup_row.
  change (db_prepare (SelectWhere t "rowid") d)
    with (ref_prepare (SelectWhere t "rowid") d).
  change (stmt_get (SelectWhere t "rowid") (VNum id) d)
    with (ref_get (SelectWhere t "rowid") (VNum id) d).
  assert (ref_prepare (SelectWhere t "rowid") d = None) as Hprep.
  { unfold ref_prepare. rewrite Ht. rewrite filter_none; [done|].
    constructor; [|constructor]. rewrite known_rowid. simpl. tauto. }
  rewrite Hprep. unfold ref_get. rewrite Hprep, Ht.
  unfold bind_fault. case_decide as Hin.
  { apply list_elem_of_singleton in Hin. done. }
  by destruct (head _) as [[? ?]|].
Qed.

Lemma first_match (old more : list (Z * Row)) (id : Z) row :
  Forall (λ r, r.1 ≠ id) old →
  head (filter (λ r, matches "rowid" (VNum id) r) (old ++ (id, row) :: more))
  = Some (id, row).
Proof.
  intros Hold. rewrite filter_app, filter_none, filter_cons.
  - rewrite decide_True; [done|]. unfold matches. simpl.
    apply bool_decide_pack. split; [done|]. unfold column_value.
    by case_decide.
  - eapply Forall_impl; [exact Hold|]. intros [rid r] Hne. simpl in *.
    unfold matches. simpl. intros [_ Hm]%bool_decide_unpack.
    unfold column_value in Hm. case_decide; [|done]. by simplify_eq.
Qed.

Lemma ref_refetch_created t tb (s : State Rest) (id : Z) row :
  find_table t (tables (rest (db s))) = Some tb →
  head (filter (λ r, matches "rowid" (VNum id) r) (t_rows tb)) = Some (id, row) →
  refetch_created t id s = (s, inr row).
Proof.
  intros Ht Hrow. unfold refetch_created.
  destruct (getItem_data (VNum id) t None s) as (resp & Hrun & Hd & _).
  rewrite (bind_ok _ _ _ _ _ Hrun), Hd. simpl.
  by rewrite (ref_found_row t tb), Hrow.
Qed.

Lemma make_row_get tb id args c :
  c ∈ t_columns tb →
  obj_get c (make_row tb id args)
  = if decide (c = "id") then VNum id else stored (obj_get c args).
Proof.
  unfold make_row. induction (t_columns tb) as [|c' cols IH]; simpl.
  - by intros ?%not_elem_of_nil.
  - intros Hin. destruct (decide (c' = c)) as [->|Hne]; [done|].
    apply IH. apply elem_of_cons in Hin as [?|?]; [congruence | done].
Qed.

(** The group-open step keeps the tables, the objects and the clock. *)
Lemma ref_open_group_eq (s : State Rest) :
  ∃ sa, open_group s = (sa, inr true)
    ∧ tables (rest (db sa)) = tables (rest (db s))
    ∧ heap sa = heap s ∧ clock sa = clock s ∧ ticks sa = ticks s.
Proof.
  destruct (open_group s) as [sa r] eqn:Hg. unfold open_group in Hg.
  run_body Hg;
    repeat match goal with
      | Hx : History_getCurrentUndoGroup _ = _ |- _ =>
          simpl in Hx; unfold ref_getCurrentUndoGroup in Hx; simplify_eq
      | Hx : History_incrementUndoGroup _ = _ |- _ =>
          simpl in Hx; unfold ref_incrementUndoGroup in Hx; simplify_eq
      end.
  rewrite bool_decide_false by lia. by eexists.
Qed.

Lemma finalize_returns {A} (a : A) (cond : State Rest → bool) (s : State Rest) :
  ∃ s1, (st <- get_state ;; when (cond st) decrementLastUndoGroup ;;; ret a)%js s
        = (s1, inr a).
Proof.
  unfold bind at 1. unfold get_state at 1. destruct (cond s); simpl.
  - unfold decrementLastUndoGroup, bind, log, get_state, set_db, ret. simpl.
    by eexists.
  - unfold bind, ret. by eexists.
Qed.

Lemma ref_group_finally_returns (u : bool) (s : State Rest) :
  ∃ s', group_finally u s = (s', inr ()).
Proof.
  unfold group_finally, incrementUndoGroup, lift_db, bind, log, get_state,
    set_db, throw, ret. destruct u; simpl; by eexists.
Qed.

Lemma for_push_two {A B} (f : A → M Rest B) x y (s s1 s2 : State Rest) a b :
  f x s = (s1, inr a) → f y s1 = (s2, inr b) →
  for_push f [x; y] s = (s2, inr [a; b]).
Proof.
  intros H1 H2. simpl. rewrite (bind_ok _ _ _ _ _ H1).
  unfold bind at 1. by rewrite (bind_ok _ _ _ _ _ H2).
Qed.

End RefCreate.

(** ** More of the engine *)

(** ** The statements the engine runs *)

Section Statements.
Context {R : Type} `{Store R}.

(** A property of every statement that was run; the other calls are free. *)
Definition runs (P : Sql → Params → Prop) (c : Call) : Prop :=
  match c with
  | CallRun q p => P q p
  | _ => True
  end.

Lemma obj_keys_set_ne k k' v (o : Obj) :
  k ≠ k' → k ∈ obj_keys (obj_set k' v o) ↔ k ∈ obj_keys o.
Proof.
  intros Hne. unfold obj_keys. induction o as [|[k1 v1] o IH]; simpl.
  - rewrite list_elem_of_singleton. split; [done | by intros ?%elem_of_nil].
  - case_decide; subst; simpl; rewrite !elem_of_cons; [done|].
    by rewrite IH.
Qed.

Lemma obj_keys_remove k (o : Obj) : k ∉ obj_keys (obj_remove k o).
Proof.
  unfold obj_keys, obj_remove. intros Hin.
  apply list_elem_of_fmap in Hin as ([k' v] & -> & Hin).
  by apply list_elem_of_filter in Hin as [Hne _].
Qed.

Lemma stamped_no_id cols ts (o : Obj) : obj_has "id" (stamped cols ts o) = false.
Proof.
  unfold obj_has, stamped. apply bool_decide_eq_false.
  repeat case_match; rewrite ?obj_keys_set_ne by done; apply obj_keys_remove.
Qed.

(** An INSERT into [t] whose column list is the sorted keys of the object
    it binds, and that binds no [id]. *)
Definition inserts_into (t : string) (q : Sql) (p : Params) : Prop :=
  ∃ args, q = InsertInto t (insertClause args) ∧ p = Named args
          ∧ obj_has "id" args = false.

Lemma create_one_inserts t cols l :
  respects (logged (runs (inserts_into t))) (create_one t cols l).
Proof.
  intros s s' r Hr. destruct (create_one_eq t cols l s) as (h' & _ & Heq).
  cbv zeta in Heq. rewrite Heq in Hr.
  destruct (db_prepare _ (db s)); simplify_eq.
  - exists []. by rewrite app_nil_r.
  - eexists. simpl. split; [done|]. constructor; [|done]. simpl.
    eexists. split; [done|]. split; [done|]. apply stamped_no_id.
Qed.
End Statements.

Ltac stmt_steps tac :=
  repeat first
    [ solve [apply _]
    | tac
    | apply respects_ret
    | apply respects_throw
    | apply respects_reads, getItem_reads
    | apply logged_lift_db; exact I
    | apply logged_log; exact I
    | apply respects_bind; [apply _ | | intros]
    | apply respects_when
    | apply respects_try_catch; [apply _ | | intros]
    | apply respects_try_finally
    | apply respects_for_push; intros
    | apply respects_for_filter; intros
    | silent
    | case_match ].

Section StatementTheorems.
Context {R : Type} `{Store R}.


(** An UPDATE of [t] by [rowid] that binds an object with an [id], and
    sets the other keys of that object, in their order. *)
Definition updates (t : string) (q : Sql) (p : Params) : Prop :=
  ∃ args, q = UpdateSet t (obj_keys (obj_remove "id" args)) ∧ p = Named args
          ∧ obj_has "id" args = true.

Lemma update_one_updates t cols l :
  respects (logged (runs (updates t))) (update_one t cols l).
Proof.
  unfold update_one, console_warn, run.
  stmt_steps ltac:(fail).
  apply logged_log. simpl. eexists. split; [done|]. split; [done|].
  by apply negb_false_iff.
Qed.


(** A DELETE on [t] by [idColumn], for one of the identifiers. *)
Definition deletes (t idColumn : string) (ids : list Z) (q : Sql) (p : Params)
    : Prop :=
  ∃ id, q = DeleteWhere t idColumn ∧ p = Positional (VNum id) ∧ id ∈ ids.

Lemma delete_one_deletes t c m ids id :
  id ∈ ids → respects (logged (runs (deletes t c ids))) (delete_one t c m id).
Proof.
  intros Hin. unfold delete_one, run.
  stmt_steps ltac:(fail).
  apply logged_log. simpl. by exists id.
Qed.

Lemma respects_for_push_elem {A B} (Rel : State R → State R → Prop)
    `{!PreOrder Rel} (f : A → M R B) l :
  (∀ x, x ∈ l → respects Rel (f x)) → respects Rel (for_push f l).
Proof.
  induction l as [|x l IH]; intros Hf; simpl.
  - by apply respects_ret.
  - apply respects_bind; [done | apply Hf; by left |]. intros y.
    apply respects_bind; [done | |].
    + apply IH. intros x' Hx'. apply Hf. by right.
    + intros ys. by apply respects_ret.
Qed.

Lemma deleteItems_logged ids t u c :
  respects (logged (runs (deletes t (default "rowid" c) ids)))
    (deleteItems ids t u c).
Proof.
  unfold deleteItems.
  apply respects_bind; [apply _ | |].
  - intros s s' r Hr. rewrite deleteItems_validate_eq in Hr.
    simplify_eq. exists []. by rewrite app_nil_r.
  - intros [nf m]. case_match; [apply respects_ret; apply _|].
    unfold try_catch_finally, deleteItems_try, deleteItems_catch,
      group_finally, open_group,
      getCurrentUndoGroup, incrementUndoGroup, performUndo,
      clearMostRecentRedo, decrementLastUndoGroup.
    stmt_steps ltac:(apply respects_for_push_elem;
                     [apply _ | intros; by apply delete_one_deletes]).
Qed.

(** X5. Every statement that [deleteItems] runs, however the call ends, is
    a DELETE on the table it was given that selects by the identifier
    column, for one of the identifiers of the caller's set. *)
Theorem deleteItems_runs_only_deletes_of_its_ids
    ids t u c (s s' : State R) r :
  deleteItems ids t u c s = (s', r) →
  calls s' = calls s ++ new_calls s s'
  ∧ Forall (runs (deletes t (default "rowid" c) ids)) (new_calls s s').
Proof. intros Hr. by apply logged_new_calls, (deleteItems_logged _ _ _ _ _ _ _ Hr). Qed.
End StatementTheorems.

Section MoreEngine.
Context {R : Type} `{Store R}.

Lemma for_push_length {A B} (f : A → M R B) l (s s' : State R) ys :
  for_push f l s = (s', inr ys) → length ys = length l.
Proof.
  revert s s' ys. induction l as [|x l IH]; intros s s' ys Hr; simpl in Hr.
  - by apply ret_inv in Hr as [_ ->].
  - inv_binds Hr. apply ret_inv in Hr as [_ ->]. simpl. f_equal. by eapply IH.
Qed.

Lemma delete_one_row t c m id (s s' : State R) row :
  delete_one t c m id s = (s', inr row) → map_get id m = Some row.
Proof. unfold delete_one. intros Hr. by run_body Hr. Qed.

Lemma for_push_delete_rows t c m ids (s s' : State R) rows :
  for_push (delete_one t c m) ids s = (s', inr rows) →
  Some <$> rows = (λ id, map_get id m) <$> ids.
Proof.
  revert s s' rows.
  induction ids as [|id ids IH]; intros s s' rows Hr; simpl in Hr.
  - by apply ret_inv in Hr as [_ ->].
  - inv_binds Hr. apply ret_inv in Hr as [_ ->].
    apply delete_one_row in Hm. rewrite !fmap_cons, Hm. f_equal. by eapply IH.
Qed.

Lemma items_map_other (d : Db R) t c ids m id :
  id ∉ ids → map_get id (items_map d t c ids m) = map_get id m.
Proof.
  revert m. induction ids as [|id0 ids IH]; intros m Hid; [done|].
  apply not_elem_of_cons in Hid as [Hne Hid]. unfold items_map in *. simpl.
  rewrite IH by done. destruct (found_row _ _ _ _); [|done].
  simpl. by case_decide.
Qed.

Lemma items_map_found (d : Db R) t c ids m id row :
  id ∈ ids → found_row d t c (VNum id) = Some row →
  map_get id (items_map d t c ids m) = Some row.
Proof.
  revert m. induction ids as [|id0 ids IH]; intros m Hid Hf.
  { by apply elem_of_nil in Hid. }
  destruct (decide (id ∈ ids)) as [Hin|Hout].
  - unfold items_map in *. simpl. by apply IH.
  - apply elem_of_cons in Hid as [->|?]; [|done].
    change (items_map d t c (id0 :: ids) m)
      with (items_map d t c ids
              (match found_row d t c (VNum id0) with
               | Some row => (id0, row) :: m
               | None => m
               end)).
    rewrite items_map_other by done. rewrite Hf. simpl. by case_decide.
Qed.

Lemma guarded_success_inv {A} (body : M R (DatabaseResponse A)) handler fin
    (s s' : State R) r :
  (∀ e s1 s2 r', handler e s1 = (s2, inr r') → success r' = false) →
  try_catch_finally body handler fin s = (s', inr r) → success r = true →
  ∃ s1, body s = (s1, inr r).
Proof.
  intros Hh Hr Hs. unfold try_catch_finally in Hr.
  apply try_finally_inv in Hr as (s1 & r1 & Hb & [(u & _ & <-)|(e & _ & ?)]);
    [|done].
  apply try_catch_inv in Hb as [(a & Hb & [= <-])|(s2 & e & _ & Hhe)].
  - by exists s1.
  - apply Hh in Hhe. congruence.
Qed.

(** X6. A [deleteItems] that answers [success = true] returns, for each
    identifier in the order of the caller's set, the row that the lookup
    found before the call deleted anything. *)
Theorem deleteItems_returns_rows_read_before_deleting
    ids t u c (s s' : State R) r :
  deleteItems ids t u c s = (s', inr r) → success r = true →
  Some <$> data r
  = (λ id, found_row (db s) t (default "rowid" c) (VNum id)) <$> ids.
Proof.
  intros Hr Hs. unfold deleteItems in Hr.
  rewrite (bind_ok _ _ _ _ _ (deleteItems_validate_eq ids t _ s)) in Hr.
  case_bool_decide as Hmiss.
  { apply ret_inv in Hr as [_ ->]. done. }
  apply guarded_success_inv in Hr as [s1 Hb]; [|clear; intros e s1 s2 r' Hh|done].
  2: { unfold deleteItems_catch in Hh. inv_binds Hh.
       by apply ret_inv in Hh as [_ ->]. }
  unfold deleteItems_try in Hb. inv_binds Hb. apply ret_inv in Hb as [_ ->].
  simpl. apply for_push_delete_rows in Hm1. rewrite Hm1.
  apply list_fmap_ext. intros i id Hi.
  assert (id ∈ ids) as Hin by (by eapply list_elem_of_lookup_2).
  destruct (found_row (db s) t (default "rowid" c) (VNum id)) as [row|] eqn:Hf.
  - simpl in Hf. by apply items_map_found.
  - exfalso. assert (id ∈ filter
      (λ id, found_row (db s) t (default "rowid" c) (VNum id) = None) ids)
      as Hbad by (by apply list_elem_of_filter).
    rewrite Hmiss in Hbad. by apply elem_of_nil in Hbad.
Qed.

Lemma update_loop_length t cols items (s s' : State R) idss :
  for_push (update_one t cols) items s = (s', inr idss) →
  (length (concat idss) ≤ length items)%nat.
Proof.
  revert s s' idss.
  induction items as [|l items IH]; intros s s' idss Hr; simpl in Hr.
  - by apply ret_inv in Hr as [_ ->].
  - inv_binds Hr. apply ret_inv in Hr as [_ ->]. simpl.
    rewrite length_app. apply IH in Hm0.
    assert (length a ≤ 1)%nat; [|lia].
    clear -Hm. unfold update_one in Hm. run_body Hm; simpl; lia.
Qed.

(** X7. A [createItems] that answers [success = true] returns exactly one
    row per item; an [updateItems] that answers [success = true] returns at
    most one row per item. *)
Theorem one_row_per_item :
  (∀ items t u (s s' : State R) r,
     createItems items t u s = (s', inr r) → success r = true →
     length (data r) = length items)
  ∧ (∀ items t u (s s' : State R) r,
     updateItems items t u s = (s', inr r) → success r = true →
     (length (data r) ≤ length items)%nat).
Proof.
  split.
  - intros items t u s s' r Hr Hs. unfold createItems in Hr.
    unfold bind at 1 in Hr. simpl in Hr.
    apply guarded_success_inv in Hr as [s1 Hb]; [|clear; intros e s1 s2 r' Hh|done].
    2: { unfold createItems_catch in Hh. inv_binds Hh.
         by apply ret_inv in Hh as [_ ->]. }
    unfold createItems_try in Hb. inv_binds Hb. apply ret_inv in Hb as [_ ->].
    simpl. apply for_push_length in Hm1, Hm2. congruence.
  - intros items t u s s' r Hr Hs. unfold updateItems in Hr.
    rewrite (bind_ok _ _ _ _ _ (updateItems_validate_eq items t s)) in Hr.
    case_bool_decide as Hmiss.
    { apply ret_inv in Hr as [_ ->]. done. }
    apply guarded_success_inv in Hr as [s1 Hb]; [|clear; intros e s1 s2 r' Hh|done].
    2: { unfold updateItems_catch in Hh. inv_binds Hh.
         by apply ret_inv in Hh as [_ ->]. }
    unfold updateItems_try in Hb. inv_binds Hb. apply ret_inv in Hb as [_ ->].
    simpl.
    repeat match goal with
    | Hp : for_push (update_one _ _) _ _ = _ |- _ =>
        apply update_loop_length in Hp
    | Hp : for_push (refetch_updated _) _ _ = _ |- _ =>
        apply for_push_length in Hp
    end. lia.
Qed.
End MoreEngine.

Section ReadOnly.
Context {R : Type} `{Store R}.

(** X1. [getAllItems] returns a response on every input and leaves the
    state as it was. When preparing and running the query return, it
    answers [success = true] with the rows the query returned, the empty
    list included; when either faults it answers [success = false] with
    empty [data], the fault's message (or a fallback text that names the
    table) and the fault's stack (or a fallback text). *)
Theorem getAllItems_never_throws t (s : State R) :
  ∃ resp, getAllItems t s = (s, inr resp) ∧
    match db_prepare (SelectAll t) (db s), stmt_all (SelectAll t) (db s) with
    | None, inr rows =>
        resp = {| success := true; data := rows; error := None |}
    | Some e, _ | None, inl e =>
        resp = {| success := false; data := [];
                  error := Some {|
                    message := js_or (err_message e)
                                 ("Error getting items from " +:+ t);
                    stack := Some (js_or (err_stack e)
                                     "Unable to get error stack") |} |}
    end.
Proof.
  unfold getAllItems, try_catch, bind, prepare, all, ret.
  destruct (db_prepare _ (db s)) as [e|]; [by eexists|].
  destruct (stmt_all _ (db s)) as [e|rows]; by eexists.
Qed.
End ReadOnly.

Section InsertClause.

(** X2. The column list [insertClause] builds is the keys of the object,
    sorted: two objects with the same keys, written in any order, give the
    same list, and so the same INSERT text. *)
Theorem insertClause_ignores_key_order (a b : Obj) :
  obj_keys a ≡ₚ obj_keys b →
  insertClause a = insertClause b
  ∧ Sorted String.le (insertClause a)
  ∧ insertClause a ≡ₚ obj_keys a.
Proof.
  intros Hp. unfold insertClause. split; [|split].
  - apply (Sorted_unique String.le).
    + apply Sorted_merge_sort; apply _.
    + apply Sorted_merge_sort; apply _.
    + by rewrite !merge_sort_Permutation.
  - apply Sorted_merge_sort; apply _.
  - apply merge_sort_Permutation.
Qed.
End InsertClause.

Section Retag.

Lemma select_max_group_below_lt m h p :
  select_max_group_below (Some m) h = Some p → (p < m)%Z.
Proof.
  simpl. intros Hp. apply select_max_group_elem in Hp as (r & Hr & <-).
  by apply list_elem_of_filter in Hr as [? _].
Qed.

(** X8. [decrementLastUndoGroup] keeps the number and the order of the
    history records and, in every record, the sequence number, the table,
    the row and the recorded change; it never raises a group tag, and a
    record whose tag is not the largest one of the log is left as it
    was. *)
Theorem decrementLastUndoGroup_only_retags (h : list HistoryRecord) :
  length (decrement_history h) = length h
  ∧ ∀ i r, h !! i = Some r →
      ∃ r', decrement_history h !! i = Some r'
        ∧ sequence r' = sequence r ∧ hr_table r' = hr_table r
        ∧ hr_rowid r' = hr_rowid r ∧ hr_change r' = hr_change r
        ∧ (history_group r' ≤ history_group r)%Z
        ∧ (select_max_group h ≠ Some (history_group r) → r' = r).
Proof.
  split; [apply decrement_history_length|].
  intros i r Hi. unfold decrement_history.
  destruct (select_max_group h) as [m|] eqn:Hm;
    [|exists r; by repeat split].
  destruct (select_max_group_below (Some m) h) as [p|] eqn:Hp;
    [|exists r; by repeat split].
  case_decide; [exists r; by repeat split|].
  apply select_max_group_below_lt in Hp.
  unfold update_group. rewrite list_lookup_fmap, Hi. simpl.
  eexists. split; [done|].
  case_decide as Hg; simpl; repeat split; try done; try lia.
  intros Hne. congruence.
Qed.
End Retag.

Section EmptyBatch.
Context {R : Type} `{Store R}.

(** The [History] calls return on every database. *)
Definition history_returns : Prop :=
  (∀ d : Db R, ∃ g, History_getCurrentUndoGroup d = inr g)
  ∧ (∀ d : Db R, ∃ d' g, History_incrementUndoGroup d = (d', inr g)).

(** [PRAGMA table_info(t)] returns on every database. *)
Definition columns_return (t : string) : Prop :=
  ∀ d : Db R, db_prepare (PragmaTableInfo t) d = None
              ∧ ∃ rows, stmt_all (PragmaTableInfo t) d = inr rows.

Definition logs (c : Call) (d : Db R) (s : State R) : State R :=
  Build_State d (heap s) (clock s) (ticks s) (calls s ++ [c]) (locals s).

Lemma lift_db_eq {A} c (f : Db R → Db R * (JsError + A)) (s : State R) :
  lift_db c f s = (logs c (f (db s)).1 s, (f (db s)).2).
Proof.
  unfold lift_db, bind, log, get_state, set_db, throw, ret, logs. simpl.
  by destruct (f (db s)) as [d [e|a]].
Qed.

Lemma lift_db_ok {A} c (f : Db R → Db R * (JsError + A)) (s : State R) d a :
  f (db s) = (d, inr a) → lift_db c f s = (logs c d s, inr a).
Proof. intros Hf. by rewrite lift_db_eq, Hf. Qed.

Lemma open_group_returns (s : State R) :
  history_returns →
  ∃ d g, open_group s
         = (logs CallIncrementUndoGroup d (logs CallGetCurrentUndoGroup (db s) s),
            inr g).
Proof.
  intros [Hget Hinc]. unfold open_group, getCurrentUndoGroup, incrementUndoGroup.
  destruct (Hget (db s)) as [g Hg].
  destruct (Hinc (db s)) as (d & g' & Hg').
  rewrite (bind_ok _ _ _ _ _
             (lift_db_ok CallGetCurrentUndoGroup
                (λ d, (d, History_getCurrentUndoGroup d)) s (db s) g
                ltac:(cbv beta; by rewrite Hg))).
  rewrite (bind_ok _ _ _ _ _
             (lift_db_ok CallIncrementUndoGroup History_incrementUndoGroup
                (logs CallGetCurrentUndoGroup (db s) s) d g' Hg')).
  by eexists _, _.
Qed.

Lemma getColumns_returns t (s : State R) :
  columns_return t → ∃ cols, getColumns t s = (s, inr cols).
Proof.
  intros Hc. destruct (Hc (db s)) as (Hp & rows & Hrows).
  unfold getColumns, bind, prepare, all, ret. rewrite Hp, Hrows. by eexists.
Qed.

Lemma group_finally_returns u (s : State R) :
  history_returns →
  ∃ d, group_finally u s
       = (if u then logs CallIncrementUndoGroup d s else s, inr ()).
Proof.
  intros [_ Hinc]. unfold group_finally, incrementUndoGroup.
  destruct u; simpl; [|by exists (db s)].
  destruct (Hinc (db s)) as (d & g & Hg). exists d.
  by rewrite (bind_ok _ _ _ _ _ (lift_db_ok _ _ _ _ _ Hg)).
Qed.

Lemma for_push_nil {A B} (f : A → M R B) (s : State R) :
  for_push f [] s = (s, inr []).
Proof. done. Qed.

Lemma finalize_skipped {A} (a : A) (cond : State R → bool) (s : State R) :
  cond s = false →
  (st <- get_state ;; when (cond st) decrementLastUndoGroup ;;; ret a)%js s
  = (s, inr a).
Proof.
  intros Hc. unfold bind at 1. unfold get_state at 1. by rewrite Hc.
Qed.

(** X9. On a store whose [History] calls and whose column query return, an
    empty batch answers [success = true] with no row and runs no statement,
    yet it advances the undo group: [createItems] and [updateItems] call
    [getCurrentUndoGroup] and [incrementUndoGroup], and [incrementUndoGroup]
    once more unless [useNextUndoGroup] is [false]; [deleteItems] calls
    [incrementUndoGroup] twice when it opens its group, and once more only
    when [useNextUndoGroup] is given as [true]. Nothing is merged back. *)
Theorem empty_batch_still_advances_the_group :
  history_returns →
  (∀ t u (s : State R),
     columns_return t →
     ∃ s', createItems [] t u s
           = (s', inr {| success := true; data := []; error := None |})
       ∧ new_calls s s'
         = [CallGetCurrentUndoGroup; CallIncrementUndoGroup]
           ++ (if default true u then [CallIncrementUndoGroup] else []))
  ∧ (∀ t u (s : State R),
     columns_return t →
     ∃ s', updateItems [] t u s
           = (s', inr {| success := true; data := []; error := None |})
       ∧ new_calls s s'
         = [CallGetCurrentUndoGroup; CallIncrementUndoGroup]
           ++ (if default true u then [CallIncrementUndoGroup] else []))
  ∧ (∀ t u c (s : State R),
     ∃ s', deleteItems [] t u c s
           = (s', inr {| success := true; data := []; error := None |})
       ∧ new_calls s s'
         = [CallGetCurrentUndoGroup; CallIncrementUndoGroup;
            CallIncrementUndoGroup]
           ++ (if default false u then [CallIncrementUndoGroup] else [])).
Proof.
  intros Hh. split; [|split].
  - intros t u s Hc. rewrite createItems_unfold.
    destruct (open_group_returns (entered s) Hh) as (d1 & g & Hopen).
    set (s1 := logs CallIncrementUndoGroup d1
                 (logs CallGetCurrentUndoGroup (db (entered s)) (entered s)))
      in *.
    destruct (getColumns_returns t s1 Hc) as (cols & Hcols).
    destruct (group_finally_returns (default true u) s1 Hh) as (d2 & Hfin).
    unfold try_catch_finally, try_finally, try_catch, createItems_try.
    rewrite (bind_ok _ _ _ _ _ Hopen), (bind_ok _ _ _ _ _ Hcols).
    rewrite (bind_ok _ _ _ _ _ (for_push_nil _ _)).
    rewrite (bind_ok _ _ _ _ _ (for_push_nil _ _)).
    rewrite (finalize_skipped _
               (λ st, negb (default true u) && g
                      && actionWasPerformed (locals st)))
      by (simpl; by rewrite andb_false_r).
    rewrite Hfin. eexists. split; [done|].
    apply new_calls_app. destruct (default true u); simpl;
      by rewrite <- ?app_assoc.
  - intros t u s Hc. rewrite updateItems_unfold by done.
    destruct (open_group_returns (entered s) Hh) as (d1 & g & Hopen).
    set (s1 := logs CallIncrementUndoGroup d1
                 (logs CallGetCurrentUndoGroup (db (entered s)) (entered s)))
      in *.
    destruct (getColumns_returns t s1 Hc) as (cols & Hcols).
    destruct (group_finally_returns (default true u) s1 Hh) as (d2 & Hfin).
    unfold try_catch_finally, try_finally, try_catch, updateItems_try.
    rewrite (bind_ok _ _ _ _ _ Hopen), (bind_ok _ _ _ _ _ Hcols).
    rewrite (bind_ok _ _ _ _ _ (for_push_nil _ _)). cbn [concat].
    rewrite (bind_ok _ _ _ _ _ (for_push_nil _ _)).
    rewrite (finalize_skipped _
               (λ st, negb (default true u) && actionWasPerformed (locals st)
                      && g))
      by (simpl; by rewrite andb_false_r).
    rewrite Hfin. eexists. split; [done|].
    apply new_calls_app. destruct (default true u); simpl;
      by rewrite <- ?app_assoc.
  - intros t u c s. rewrite deleteItems_unfold by done.
    destruct (open_group_returns (entered_delete s) Hh) as (d1 & g & Hopen).
    set (s1 := logs CallIncrementUndoGroup d1
                 (logs CallGetCurrentUndoGroup (db (entered_delete s))
                    (entered_delete s))) in *.
    pose proof Hh as [Hget Hinc]. destruct (Hinc (db s1)) as (d2 & g2 & Hg2).
    destruct (group_finally_returns (default false u)
                (logs CallIncrementUndoGroup d2 s1) Hh) as (d3 & Hfin).
    unfold try_catch_finally, try_finally, try_catch, deleteItems_try.
    rewrite (bind_ok _ _ _ _ _ Hopen).
    unfold incrementUndoGroup at 1.
    rewrite (bind_ok _ _ _ _ _ (lift_db_ok _ _ _ _ _ Hg2)).
    rewrite (bind_ok _ _ _ _ _ (for_push_nil _ _)).
    rewrite (finalize_skipped _
               (λ st, negb (default false u) && actionWasPerformed (locals st)
                      && g))
      by (simpl; by rewrite andb_false_r).
    rewrite Hfin. eexists. split; [done|].
    apply new_calls_app. destruct (default false u); simpl;
      by rewrite <- ?app_assoc.
Qed.
End EmptyBatch.

(** ** When the merge is called *)

Definition no_merge : Call → Prop := λ c, c ≠ CallDecrementLastUndoGroup.

Ltac no_merge_steps :=
  repeat first
    [ solve [apply _]
    | apply respects_ret
    | apply respects_throw
    | apply respects_reads, getItem_reads
    | apply logged_lift_db; cbv beta delta [no_merge]; done
    | apply logged_log; cbv beta delta [no_merge]; done
    | apply respects_bind; [apply _ | | intros]
    | apply respects_when
    | apply respects_try_catch; [apply _ | | intros]
    | apply respects_try_finally
    | apply respects_for_push; intros
    | apply respects_for_filter; intros
    | silent
    | case_match ].

Section MergeOnly.
Context {R : Type} `{Store R}.

(** Whether the call is to close its own undo group: the default is
    [true] in [createItems] and [updateItems]; [deleteItems] declares
    none. *)
Definition own_group (m : Mutation) (u : option bool) : bool :=
  match m with
  | Delete _ _ => default false u
  | _ => default true u
  end.

Lemma no_merge_absurd (s s' : State R) :
  logged no_merge s s' → CallDecrementLastUndoGroup ∉ new_calls s s'.
Proof.
  intros Hl%logged_new_calls. destruct Hl as [_ Hall] . intros Hin.
  rewrite Forall_forall in Hall. by apply Hall in Hin.
Qed.

(** A [throw] out of a computation that ends with the merge happens before
    the merge. *)
Definition throws_before_merge {A} (m : M R A) : Prop :=
  ∀ s s' e, m s = (s', inl e) → logged no_merge s s'.

Lemma throws_bind {A B} (m : M R A) (k : A → M R B) :
  respects (logged no_merge) m → (∀ a, throws_before_merge (k a)) →
  throws_before_merge (bind m k).
Proof.
  intros Hm Hk s s' e Hr.
  apply bind_inv in Hr as [(s1 & a & Hma & Hka)|(e' & Hme & _)].
  - etrans; [by eapply Hm | by eapply Hk].
  - by eapply Hm.
Qed.

Lemma throws_finalize {A} (a : A) (cond : State R → bool) :
  throws_before_merge
    (st <- get_state ;; when (cond st) decrementLastUndoGroup ;;; ret a)%js.
Proof.
  intros s s' e Hr. unfold bind at 1 in Hr. unfold get_state at 1 in Hr.
  destruct (cond s); simpl in Hr.
  - unfold decrementLastUndoGroup in Hr. by run_body Hr.
  - by run_body Hr.
Qed.

Lemma group_finally_no_merge u :
  respects (logged no_merge) (group_finally u : M R _).
Proof. unfold group_finally, incrementUndoGroup. no_merge_steps. Qed.

Lemma guarded_merge {A} (body : M R A) handler u (s s' : State R) r :
  (u = true → respects (logged no_merge) body) →
  throws_before_merge body →
  (∀ e, respects (logged no_merge) (handler e)) →
  try_catch_finally body handler (group_finally u) s = (s', r) →
  CallDecrementLastUndoGroup ∈ new_calls s s' →
  u = false ∧ ∃ a, r = inr a ∧ body s = (s', inr a).
Proof.
  intros Hown Hthrow Hh Hr Hin.
  assert (u = false) as ->.
  { destruct u; [|done]. exfalso. revert Hin. apply no_merge_absurd.
    revert Hr. apply respects_try_finally; [apply _ | |].
    - apply respects_try_catch; [apply _ | by apply Hown | done].
    - apply group_finally_no_merge. }
  split; [done|]. unfold try_catch_finally in Hr.
  apply try_finally_inv in Hr as (s1 & r1 & Hb & Hfin).
  assert (s' = s1 ∧ r = r1) as [-> ->].
  { unfold group_finally, when, ret in Hfin.
    destruct Hfin as [(? & ? & ?)|(? & ? & ?)]; by simplify_eq. }
  apply try_catch_inv in Hb as [(a & Hb & ->)|(s2 & e & Hb & Hhe)].
  - by exists a.
  - exfalso. revert Hin. apply no_merge_absurd.
    etrans; [by eapply Hthrow | by eapply Hh].
Qed.

(** The flag is set only by a turn that runs a statement. *)
Definition flag_needs_run (s s' : State R) : Prop :=
  ∃ cs, calls s' = calls s ++ cs
    ∧ (flag s' = true → flag s = true ∨ ∃ q p, CallRun q p ∈ cs).

Global Instance flag_needs_run_preorder : PreOrder flag_needs_run.
Proof.
  split.
  - intros s. exists []. rewrite app_nil_r. split; [done|]. by left.
  - intros s1 s2 s3 (cs & Hcs & H12) (cs' & Hcs' & H23).
    exists (cs ++ cs'). split; [by rewrite Hcs', Hcs, app_assoc|].
    intros Hf. destruct (H23 Hf) as [Hf2|(q & p & Hin)].
    + destruct (H12 Hf2) as [?|(q & p & Hin)]; [by left|].
      right. exists q, p. apply elem_of_app. by left.
    + right. exists q, p. apply elem_of_app. by right.
Qed.

Lemma flag_kept {A} (m : M R A) :
  respects (logged any_call) m →
  (∀ s s' r, m s = (s', r) → flag s' = flag s) →
  respects flag_needs_run m.
Proof.
  intros Hlog Hm s s' r Hr. destruct (Hlog _ _ _ Hr) as (cs & Hcs & _).
  exists cs. split; [done|]. rewrite (Hm _ _ _ Hr). by left.
Qed.

Lemma create_one_needs_run t cols l :
  respects flag_needs_run (create_one t cols l : M R _).
Proof.
  intros s s' r Hr. destruct (create_one_eq t cols l s) as (h' & _ & Heq).
  cbv zeta in Heq. rewrite Heq in Hr. unfold flag_needs_run, flag.
  destruct (db_prepare _ (db s)); simplify_eq; simpl.
  - exists []. rewrite app_nil_r. split; [done|]. by left.
  - eexists. split; [done|]. intros _. right. eexists _, _. by left.
Qed.

Lemma update_one_needs_run t cols l :
  respects flag_needs_run (update_one t cols l : M R _).
Proof.
  intros s s' r Hr. unfold update_one in Hr. unfold flag_needs_run, flag.
  run_body Hr;
    (eexists; split; [first [reflexivity | symmetry; apply app_nil_r]|];
     intros Hf; first [by left | right; eexists _, _; by left]).
Qed.

Lemma delete_one_needs_run t c m id :
  respects flag_needs_run (delete_one t c m id : M R _).
Proof.
  intros s s' r Hr. unfold delete_one in Hr. unfold flag_needs_run, flag.
  run_body Hr;
    (eexists; split; [first [reflexivity | symmetry; apply app_nil_r]|];
     intros Hf; first [by left | right; eexists _, _; by left]).
Qed.

Lemma finalize_inv {A} (a : A) (cond : State R → bool) (s s' : State R) r :
  (st <- get_state ;; when (cond st) decrementLastUndoGroup ;;; ret a)%js s
  = (s', r) →
  r = inr a
  ∧ ((cond s = true ∧ calls s' = calls s ++ [CallDecrementLastUndoGroup])
     ∨ (cond s = false ∧ s' = s)).
Proof.
  intros Hr. unfold bind at 1 in Hr. unfold get_state at 1 in Hr.
  destruct (cond s) eqn:Hc; simpl in Hr.
  - unfold decrementLastUndoGroup in Hr. run_body Hr. split; [done|]. by left.
  - run_body Hr. split; [done|]. by right.
Qed.

(** The end of a [try] block that merged: the flag was set, so a statement
    was run since the block was entered. *)
Lemma merged_ran {A} (a : A) (cond : State R → bool) (s0 s s' : State R) r :
  logged no_merge s0 s → flag_needs_run s0 s → flag s0 = false →
  (∀ st, cond st = true → flag st = true) →
  (st <- get_state ;; when (cond st) decrementLastUndoGroup ;;; ret a)%js s
  = (s', r) →
  CallDecrementLastUndoGroup ∈ new_calls s0 s' → ran s0 s'.
Proof.
  intros Hquiet (cs & Hcs & Hflag) Hf0 Hcond Hr Hin.
  apply finalize_inv in Hr as [_ [[Hc Hcalls]|[_ ->]]].
  - destruct (Hflag (Hcond _ Hc)) as [?|(q & p & Hrun)]; [congruence|].
    exists q, p.
    rewrite (new_calls_app s0 s' (cs ++ [CallDecrementLastUndoGroup]))
      by (by rewrite Hcalls, Hcs, app_assoc).
    apply elem_of_app. by left.
  - by apply no_merge_absurd in Hquiet.
Qed.

Lemma open_group_quiet : respects (logged no_merge) (open_group : M R _).
Proof.
  unfold open_group, getCurrentUndoGroup, incrementUndoGroup. no_merge_steps.
Qed.

Lemma getColumns_quiet t : respects (logged no_merge) (getColumns t : M R _).
Proof. unfold getColumns. no_merge_steps. Qed.

Lemma create_loop_quiet t cols items :
  respects (logged no_merge) (for_push (create_one t cols) items : M R _).
Proof. unfold create_one, run. no_merge_steps. Qed.

Lemma update_loop_quiet t cols items :
  respects (logged no_merge) (for_push (update_one t cols) items : M R _).
Proof. unfold update_one, run, console_warn. no_merge_steps. Qed.

Lemma delete_loop_quiet t c m ids :
  respects (logged no_merge) (for_push (delete_one t c m) ids : M R _).
Proof. unfold delete_one, run. no_merge_steps. Qed.

Lemma refetch_created_quiet t ids :
  respects (logged no_merge) (for_push (refetch_created t) ids : M R _).
Proof. unfold refetch_created. no_merge_steps. Qed.

Lemma refetch_updated_quiet t ids :
  respects (logged no_merge) (for_push (refetch_updated t) ids : M R _).
Proof. unfold refetch_updated. no_merge_steps. Qed.

Lemma incrementUndoGroup_quiet :
  respects (logged no_merge) (incrementUndoGroup : M R _).
Proof. unfold incrementUndoGroup. no_merge_steps. Qed.

Lemma open_group_flag : respects flag_needs_run (open_group : M R _).
Proof.
  apply flag_kept.
  - unfold open_group, getCurrentUndoGroup, incrementUndoGroup. logged_steps.
  - intros s s' r Hr. unfold open_group, getCurrentUndoGroup,
      incrementUndoGroup, flag in *. by run_body Hr.
Qed.

Lemma incrementUndoGroup_flag :
  respects flag_needs_run (incrementUndoGroup : M R _).
Proof.
  apply flag_kept.
  - unfold incrementUndoGroup. logged_steps.
  - intros s s' r Hr. unfold incrementUndoGroup, flag in *. by run_body Hr.
Qed.

Lemma createItems_merge_only items t u (s s' : State R) r :
  createItems items t u s = (s', r) →
  CallDecrementLastUndoGroup ∈ new_calls s s' →
  default true u = false
  ∧ (∃ resp, r = inr resp ∧ success resp = true) ∧ ran s s'.
Proof.
  intros Hr Hin. rewrite createItems_unfold in Hr.
  change (new_calls s s') with (new_calls (entered s) s') in *.
  change (ran s s') with (ran (entered s) s').
  apply guarded_merge in Hr as (Hu & resp & -> & Hb); [| | | |done].
  - split; [done|]. split.
    { exists resp. split; [done|]. by apply createItems_try_ok in Hb as [? _]. }
    unfold createItems_try in Hb.
    apply bind_inv_ok in Hb as (s1 & g & Hg & Hb).
    apply bind_inv_ok in Hb as (s2 & cols & Hc & Hb).
    apply bind_inv_ok in Hb as (s3 & ids & Hw & Hb).
    apply bind_inv_ok in Hb as (s4 & rows & Hf & Hb).
    apply getColumns_reads_ok in Hc as ->.
    apply refetch_created_reads in Hf as <-.
    eapply (merged_ran _ _ (entered s)); [| | done | | exact Hb | done].
    + etrans; [by eapply open_group_quiet | by eapply create_loop_quiet].
    + etrans; [by eapply open_group_flag|].
      eapply respects_for_push; [apply _ | | exact Hw].
      intros l. apply create_one_needs_run.
    + intros st Hst. unfold flag. by apply andb_prop in Hst as [_ ?].
  - intros ->. unfold createItems_try. cbn [negb andb].
    unfold open_group, getColumns, create_one, refetch_created, run,
      getCurrentUndoGroup, incrementUndoGroup.
    no_merge_steps.
  - unfold createItems_try.
    apply throws_bind; [apply open_group_quiet | intros g].
    apply throws_bind; [apply getColumns_quiet | intros cols].
    apply throws_bind; [apply create_loop_quiet | intros ids].
    apply throws_bind; [apply refetch_created_quiet | intros rows].
    apply throws_finalize.
  - intros e. unfold createItems_catch, performUndo, clearMostRecentRedo.
    no_merge_steps.
Qed.

Lemma updateItems_merge_only items t u (s s' : State R) r :
  updateItems items t u s = (s', r) →
  CallDecrementLastUndoGroup ∈ new_calls s s' →
  default true u = false
  ∧ (∃ resp, r = inr resp ∧ success resp = true) ∧ ran s s'.
Proof.
  intros Hr Hin.
  destruct (decide (missing_ids (db s) t "rowid" (target_ids (heap s) items)
                    = [])) as [Hmiss|Hmiss].
  2:{ unfold updateItems in Hr.
      rewrite (bind_ok _ _ _ _ _ (updateItems_validate_eq items t s)) in Hr.
      rewrite bool_decide_true in Hr by done.
      unfold ret in Hr. simplify_eq. unfold new_calls in Hin. simpl in Hin.
      rewrite drop_all in Hin. by apply elem_of_nil in Hin. }
  rewrite updateItems_unfold in Hr by done.
  change (new_calls s s') with (new_calls (entered s) s') in *.
  change (ran s s') with (ran (entered s) s').
  apply guarded_merge in Hr as (Hu & resp & -> & Hb); [| | | |done].
  - split; [done|]. split.
    { exists resp. split; [done|]. by apply updateItems_try_ok in Hb as [? _]. }
    unfold updateItems_try in Hb.
    apply bind_inv_ok in Hb as (s1 & g & Hg & Hb).
    apply bind_inv_ok in Hb as (s2 & cols & Hc & Hb).
    apply bind_inv_ok in Hb as (s3 & ids & Hw & Hb).
    apply bind_inv_ok in Hb as (s4 & rows & Hf & Hb).
    apply getColumns_reads_ok in Hc as ->.
    apply refetch_updated_reads in Hf as <-.
    eapply (merged_ran _ _ (entered s)); [| | done | | exact Hb | done].
    + etrans; [by eapply open_group_quiet | by eapply update_loop_quiet].
    + etrans; [by eapply open_group_flag|].
      eapply respects_for_push; [apply _ | | exact Hw].
      intros l. apply update_one_needs_run.
    + intros st Hst. unfold flag.
      apply andb_prop in Hst as [Hst _]. by apply andb_prop in Hst as [_ ?].
  - intros ->. unfold updateItems_try. cbn [negb andb].
    unfold open_group, getColumns, update_one, refetch_updated, run,
      console_warn, getCurrentUndoGroup, incrementUndoGroup.
    no_merge_steps.
  - unfold updateItems_try.
    apply throws_bind; [apply open_group_quiet | intros g].
    apply throws_bind; [apply getColumns_quiet | intros cols].
    apply throws_bind; [apply update_loop_quiet | intros ids].
    apply throws_bind; [apply refetch_updated_quiet | intros rows].
    apply throws_finalize.
  - intros e. unfold updateItems_catch, performUndo, clearMostRecentRedo.
    no_merge_steps.
Qed.

Lemma deleteItems_merge_only ids t u c (s s' : State R) r :
  deleteItems ids t u c s = (s', r) →
  CallDecrementLastUndoGroup ∈ new_calls s s' →
  default false u = false
  ∧ (∃ resp, r = inr resp ∧ success resp = true) ∧ ran s s'.
Proof.
  intros Hr Hin.
  destruct (decide (filter (λ id, found_row (db s) t (default "rowid" c)
                                    (VNum id) = None) ids = []))
    as [Hmiss|Hmiss].
  2:{ unfold deleteItems in Hr.
      rewrite (bind_ok _ _ _ _ _ (deleteItems_validate_eq ids t _ s)) in Hr.
      rewrite bool_decide_true in Hr by done.
      unfold ret in Hr. simplify_eq. unfold new_calls in Hin. simpl in Hin.
      rewrite drop_all in Hin. by apply elem_of_nil in Hin. }
  rewrite deleteItems_unfold in Hr by done.
  change (new_calls s s') with (new_calls (entered_delete s) s') in *.
  change (ran s s') with (ran (entered_delete s) s').
  apply guarded_merge in Hr as (Hu & resp & -> & Hb); [| | | |done].
  - split; [done|]. split.
    { exists resp. split; [done|]. by apply deleteItems_try_ok in Hb as [? _]. }
    unfold deleteItems_try in Hb.
    apply bind_inv_ok in Hb as (s1 & g & Hg & Hb).
    apply bind_inv_ok in Hb as (s2 & n & Hi & Hb).
    apply bind_inv_ok in Hb as (s3 & rows & Hw & Hb).
    eapply (merged_ran _ _ (entered_delete s));
      [| | done | | exact Hb | done].
    + etrans; [by eapply open_group_quiet|].
      etrans; [by eapply incrementUndoGroup_quiet|].
      by eapply delete_loop_quiet.
    + etrans; [by eapply open_group_flag|].
      etrans; [by eapply incrementUndoGroup_flag|].
      eapply respects_for_push; [apply _ | | exact Hw].
      intros id. apply delete_one_needs_run.
    + intros st Hst. unfold flag.
      apply andb_prop in Hst as [Hst _]. by apply andb_prop in Hst as [_ ?].
  - intros ->. unfold deleteItems_try. cbn [negb andb].
    unfold open_group, delete_one, run,
      getCurrentUndoGroup, incrementUndoGroup.
    no_merge_steps.
  - unfold deleteItems_try.
    apply throws_bind; [apply open_group_quiet | intros g].
    apply throws_bind; [apply incrementUndoGroup_quiet | intros n].
    apply throws_bind; [apply delete_loop_quiet | intros rows].
    apply throws_finalize.
  - intros e. unfold deleteItems_catch, performUndo, clearMostRecentRedo.
    no_merge_steps.
Qed.

End MergeOnly.

(** ** What a failure says *)

(** A failure carries an error with a message that is not empty. *)
Definition explained {A} (r : DatabaseResponse A) : Prop :=
  success r = false → ∃ e, error r = Some e ∧ message e ≠ "".

Section Explained.
Context {R : Type} `{Store R}.

Lemma js_or_nonempty o d : d ≠ "" → js_or o d ≠ "".
Proof. intros Hd. unfold js_or. destruct o as [s|]; [|done]. by case_decide. Qed.

Lemma append_nonempty (a b : string) : a ≠ "" → a +:+ b ≠ "".
Proof. destruct a as [|c a]; [done|]. intros _. by inversion 1. Qed.

Lemma guarded_explained {A} (body : M R (DatabaseResponse A)) handler fin
    (s s' : State R) r :
  (∀ s s' r, body s = (s', inr r) → success r = true) →
  (∀ e s s' r, handler e s = (s', inr r) → explained r) →
  try_catch_finally body handler fin s = (s', inr r) →
  explained r.
Proof.
  intros Hbody Hhandler Hr. unfold try_catch_finally in Hr.
  apply try_finally_inv in Hr as (s1 & r1 & Htc & [(u & _ & <-)|(e & _ & ?)]);
    [|done].
  apply try_catch_inv in Htc as [(a & Hb & [= <-])|(s2 & e & _ & Hh)].
  - apply Hbody in Hb. intros ?. congruence.
  - by apply Hhandler in Hh.
Qed.

Ltac explain :=
  intros _; eexists; split; [reflexivity|]; simpl;
  first [ apply js_or_nonempty | idtac ]; by apply append_nonempty.

(** X21. Every response with [success = false] that [getItem],
    [getAllItems], [createItems], [updateItems] or [deleteItems] returns
    carries an [error] whose message is not empty: the message of the fault,
    a fallback text when the fault has none, or the text that names the
    identifiers that were not found. *)
Theorem failures_are_explained :
  (∀ id t c (s s' : State R) r,
     getItem id t c s = (s', inr r) → explained r)
  ∧ (∀ t (s s' : State R) r,
     getAllItems t s = (s', inr r) → explained r)
  ∧ (∀ items t u (s s' : State R) r,
     createItems items t u s = (s', inr r) → explained r)
  ∧ (∀ items t u (s s' : State R) r,
     updateItems items t u s = (s', inr r) → explained r)
  ∧ (∀ ids t u c (s s' : State R) r,
     deleteItems ids t u c s = (s', inr r) → explained r).
Proof.
  split; [|split; [|split; [|split]]].
  - intros id t c s s' r Hr.
    destruct (getItem_cases id t c s) as (resp & Hrun & Hresp).
    rewrite Hrun in Hr. simplify_eq.
    destruct (lookup_row _ _ _ _) as [e|[row|]]; subst r; [explain|done|explain].
  - intros t s s' r. unfold getAllItems, try_catch, bind, prepare, all, ret.
    destruct (db_prepare _ (db s)); [intros; simplify_eq; explain|].
    destruct (stmt_all _ (db s)); intros; simplify_eq; [explain|done].
  - intros items t u s s' r Hr. rewrite createItems_unfold in Hr.
    eapply guarded_explained in Hr; [done | |].
    + intros ??? Hb. by apply createItems_try_ok in Hb as [? _].
    + intros e s1 s2 r' Hh. unfold createItems_catch in Hh. inv_binds Hh.
      apply ret_inv in Hh as [_ ->]. explain.
  - intros items t u s s' r Hr. unfold updateItems in Hr.
    rewrite (bind_ok _ _ _ _ _ (updateItems_validate_eq items t s)) in Hr.
    case_bool_decide.
    { apply ret_inv in Hr as [_ ->]. explain. }
    eapply guarded_explained in Hr; [done | |].
    + intros ??? Hb. by apply updateItems_try_ok in Hb as [? _].
    + intros e s1 s2 r' Hh. unfold updateItems_catch in Hh. inv_binds Hh.
      apply ret_inv in Hh as [_ ->]. explain.
  - intros ids t u c s s' r Hr. unfold deleteItems in Hr.
    rewrite (bind_ok _ _ _ _ _ (deleteItems_validate_eq ids t _ s)) in Hr.
    case_bool_decide.
    { apply ret_inv in Hr as [_ ->]. explain. }
    eapply guarded_explained in Hr; [done | |].
    + intros ??? Hb. by apply deleteItems_try_ok in Hb as [? _].
    + intros e s1 s2 r' Hh. unfold deleteItems_catch in Hh. inv_binds Hh.
      apply ret_inv in Hh as [_ ->]. explain.
Qed.

(** The verified identifiers have no repetition. *)
Lemma js_Set_add_NoDup seen l : NoDup seen → NoDup (js_Set_add seen l).
Proof.
  revert seen. induction l as [|v l IH]; intros seen Hs; simpl; [done|].
  apply IH. case_decide; [done|].
  apply NoDup_app. split; [done|]. split; [|apply NoDup_singleton].
  intros x Hx Hv%list_elem_of_singleton. by subst.
Qed.

End Explained.

(** ** The undo steps of the Shape wrappers *)

Module ShapeTableFacts.
Import RefStore RefStoreFacts.

(** X18. On the reference store, after a [createShape] that recorded a
    change, a [deleteShape] that records one leaves the history records of
    both calls in one group, above every group the log held before: one undo
    step reverts the deletion together with the creation. [deleteShape]
    leaves [useNextUndoGroup] out, and [deleteItems] declares no default for
    it. *)
Theorem deleteShape_joins_the_previous_step
    name args ids (s0 s1 s2 : State Rest) r1 r2 :
  (0 ≤ cur s0)%Z →
  Forall (λ r, (history_group r ≤ cur s0)%Z) (hist s0) →
  createShape name args s0 = (s1, inr r1) → success r1 = true →
  deleteShape name ids s1 = (s2, inr r2) → success r2 = true →
  (length (hist s0) < length (hist s1))%nat →
  (length (hist s1) < length (hist s2))%nat →
  ∃ g new, hist s2 = hist s0 ++ new ∧ tagged g new
    ∧ Forall (λ r, (history_group r < g)%Z) (hist s0).
Proof.
  intros Hc Hinv H1 Hs1 H2 Hs2 Hl1 Hl2.
  by apply (two_calls_one_step (Create args) (Delete ids None) name name
              s0 s1 s2 r1 r2).
Qed.

(** X19. On the reference store, after a [createShape] that recorded a
    change, an [updateShape] that records one opens an undo step of its
    own: the records of the two calls are in two groups, the later one
    above the earlier one, and both above every group the log held
    before. *)
Theorem updateShape_opens_a_step_of_its_own
    name args args' (s0 s1 s2 : State Rest) r1 r2 :
  Forall (λ r, (history_group r ≤ cur s0)%Z) (hist s0) →
  createShape name args s0 = (s1, inr r1) → success r1 = true →
  updateShape name args' s1 = (s2, inr r2) → success r2 = true →
  (length (hist s0) < length (hist s1))%nat →
  (length (hist s1) < length (hist s2))%nat →
  ∃ g1 g2 new1 new2,
    hist s2 = hist s0 ++ new1 ++ new2
    ∧ new1 ≠ [] ∧ new2 ≠ []
    ∧ tagged g1 new1 ∧ tagged g2 new2 ∧ (g1 < g2)%Z
    ∧ Forall (λ r, (history_group r < g1)%Z) (hist s0).
Proof.
  intros Hinv H1 Hs1 H2 Hs2 Hl1 Hl2.
  apply (perform_history (Create args) name true) in H1
    as (k1 & new1 & Hk1 & Ht1 & Hh1 & Hcur1); [|done].
  apply (perform_history (Update args') name true) in H2
    as (k2 & new2 & Hk2 & Ht2 & Hh2 & Hcur2); [|done].
  exists (cur s0 + k1)%Z, (cur s1 + k2)%Z, new1, new2.
  split; [by rewrite Hh2, Hh1, app_assoc|].
  split; [intros ->; rewrite Hh1, app_nil_r in Hl1; lia|].
  split; [intros ->; rewrite Hh2, app_nil_r in Hl2; lia|].
  split; [done|]. split; [done|]. split; [lia|].
  eapply Forall_impl; [exact Hinv|]. simpl. lia.
Qed.
End ShapeTableFacts.

(** ** Time signatures *)

Module TimeSignatureFacts.
Import Stdlib.Strings.Ascii.
Import JsString TimeSignature.

(** A string that holds no [/]. *)
Fixpoint no_slash (s : string) : bool :=
  match s with
  | EmptyString => true
  | String c s => negb (bool_decide (c = "/"%char)) && no_slash s
  end.

Lemma split_no_slash s : no_slash s = true → split "/" s = [s].
Proof.
  induction s as [|c s IH]; simpl; [done|].
  intros [Hc Hs]%andb_prop. apply negb_true_iff, bool_decide_eq_false in Hc.
  rewrite decide_False by done. by rewrite IH.
Qed.

Lemma split_slash a b :
  no_slash a = true → split "/" (a +:+ "/" +:+ b) = a :: split "/" b.
Proof.
  induction a as [|c a IH]; simpl; [done|].
  intros [Hc Ha]%andb_prop. apply negb_true_iff, bool_decide_eq_false in Hc.
  rewrite decide_False by done. by rewrite IH.
Qed.

Lemma append_assoc (a b c : string) : (a +:+ b) +:+ c = a +:+ (b +:+ c).
Proof.
  induction a as [|x a IH]; [done|].
  change (String x ((a +:+ b) +:+ c) = String x (a +:+ (b +:+ c))).
  by f_equal.
Qed.

Lemma append_nil_r (a : string) : a +:+ "" = a.
Proof.
  induction a as [|x a IH]; [done|].
  change (String x (a +:+ "") = String x a). by f_equal.
Qed.

Lemma no_slash_app a b :
  no_slash (a +:+ b) = no_slash a && no_slash b.
Proof. induction a as [|c a IH]; simpl; [done|]. by rewrite IH, andb_assoc. Qed.

(** The digits [pretty] writes. *)
Lemma digit_value_pretty k :
  (k < 10)%N → digit_value (pretty_N_char k) = Some k.
Proof.
  intros Hk.
  assert (k = 0 ∨ k = 1 ∨ k = 2 ∨ k = 3 ∨ k = 4 ∨ k = 5 ∨ k = 6 ∨ k = 7
          ∨ k = 8 ∨ k = 9)%N as Hcases by lia.
  repeat destruct Hcases as [->|Hcases]; try done. by subst.
Qed.

Lemma pretty_N_char_no_slash k : pretty_N_char k ≠ "/"%char.
Proof. unfold pretty_N_char. by repeat case_match. Qed.

Lemma pretty_N_go_app x s r :
  pretty_N_go x s +:+ r = pretty_N_go x (s +:+ r).
Proof.
  revert s. induction (N.lt_wf_0 x) as [x _ IH]; intros s.
  assert (x = 0 ∨ 0 < x)%N as [->|Hx] by lia.
  - by rewrite !pretty_N_go_0.
  - rewrite (pretty_N_go_step x s), (pretty_N_go_step x (s +:+ r)) by done.
    by rewrite IH by (by apply N.div_lt).
Qed.

Lemma no_slash_pretty_N_go x s :
  no_slash (pretty_N_go x s) = no_slash s.
Proof.
  revert s. induction (N.lt_wf_0 x) as [x _ IH]; intros s.
  assert (x = 0 ∨ 0 < x)%N as [->|Hx] by lia.
  - by rewrite pretty_N_go_0.
  - rewrite pretty_N_go_step by done. rewrite IH by (by apply N.div_lt).
    simpl. rewrite bool_decide_false by apply pretty_N_char_no_slash. done.
Qed.

Lemma scan_pretty_N_go x s :
  scan 10 (pretty_N_go x s) 0 = scan 10 s x.
Proof.
  revert s. induction (N.lt_wf_0 x) as [x _ IH]; intros s.
  assert (x = 0 ∨ 0 < x)%N as [->|Hx] by lia.
  - by rewrite pretty_N_go_0.
  - rewrite pretty_N_go_step by done. rewrite IH by (by apply N.div_lt).
    simpl. rewrite digit_value_pretty by (by apply N.mod_lt).
    assert ((x `mod` 10 <? 10)%N = true) as ->
      by (apply N.ltb_lt; by apply N.mod_lt).
    f_equal. rewrite (N.div_mod x 10) at 3 by done. lia.
Qed.

(** A positive number is written with a first digit from [1] to [9]. *)
Definition leading_digit (s : string) : Prop :=
  ∃ c s', s = String c s' ∧ ∃ k, (0 < k < 10)%N ∧ c = pretty_N_char k.

Lemma pretty_N_go_leading x s :
  (0 < x)%N → leading_digit (pretty_N_go x s).
Proof.
  revert s. induction (N.lt_wf_0 x) as [x _ IH]; intros s Hx.
  rewrite pretty_N_go_step by done.
  destruct (N.eq_0_gt_0_cases (x `div` 10)) as [Hd|Hd].
  - rewrite Hd, pretty_N_go_0. eexists _, _. split; [done|].
    exists (x `mod` 10)%N. split; [|done].
    pose proof (N.div_mod x 10 ltac:(done)) as Hdm. rewrite Hd in Hdm.
    pose proof (N.mod_lt x 10 ltac:(done)). lia.
  - apply IH; [by apply N.div_lt | done].
Qed.

(** What [parseInt] makes of a string that starts like that. *)
Lemma parseInt_leading s :
  leading_digit s → parseInt s = Int (Z.of_N (scan 10 s 0)).
Proof.
  intros (c & s' & -> & k & Hk & ->).
  assert (k = 1 ∨ k = 2 ∨ k = 3 ∨ k = 4 ∨ k = 5 ∨ k = 6 ∨ k = 7
          ∨ k = 8 ∨ k = 9)%N as Hcases by lia.
  unfold parseInt.
  repeat destruct Hcases as [->|Hcases]; try subst k;
    lazy -[scan Z.mul Z.of_N]; f_equal; lia.
Qed.

Lemma scan_stops radix s acc :
  starts_with_digit radix s = false → scan radix s acc = acc.
Proof.
  destruct s as [|c s]; simpl; [done|]. unfold is_digit.
  destruct (digit_value c); [|done]. by intros ->.
Qed.

(** [parseInt] reads a written positive integer back, whatever follows
    it, as long as that is no further digit. *)
Lemma parseInt_pretty (n : Z) rest :
  (0 < n)%Z → starts_with_digit 10 rest = false →
  parseInt (pretty n +:+ rest) = Int n.
Proof.
  intros Hn Hrest. destruct n as [|p|p]; try lia.
  change (pretty (Z.pos p)) with (pretty (N.pos p)).
  unfold pretty, pretty_N. rewrite decide_False by done.
  rewrite pretty_N_go_app. simpl.
  rewrite parseInt_leading by (by apply pretty_N_go_leading).
  rewrite scan_pretty_N_go. by rewrite scan_stops.
Qed.

Lemma no_slash_pretty (n : Z) : (0 < n)%Z → no_slash (pretty n) = true.
Proof.
  intros Hn. destruct n as [|p|p]; try lia.
  change (pretty (Z.pos p)) with (pretty (N.pos p)).
  unfold pretty, pretty_N. rewrite decide_False by done.
  by rewrite no_slash_pretty_N_go.
Qed.
Lemma no_slash_pretty_Z (n : Z) : no_slash (pretty n) = true.
Proof.
  destruct n as [|p|p]; [done| |].
  - change (pretty (Z.pos p)) with (pretty (N.pos p)).
    unfold pretty, pretty_N. rewrite decide_False by done.
    by rewrite no_slash_pretty_N_go.
  - change (pretty (Z.neg p)) with (String "-"%char (pretty (N.pos p))).
    cbn [no_slash]. rewrite bool_decide_false by done.
    unfold pretty, pretty_N. rewrite decide_False by done.
    by rewrite no_slash_pretty_N_go.
Qed.

Lemma split_toString (n d : Z) :
  split "/" (pretty n +:+ "/" +:+ pretty d) = [pretty n; pretty d].
Proof.
  rewrite split_slash by apply no_slash_pretty_Z.
  by rewrite split_no_slash by apply no_slash_pretty_Z.
Qed.

Lemma fromString_pretty (n d : Z) x y :
  (0 < n)%Z → d ∈ validDenominators →
  no_slash x = true → no_slash y = true →
  starts_with_digit 10 x = false → starts_with_digit 10 y = false →
  fromString (pretty n +:+ x +:+ "/" +:+ pretty d +:+ y)
  = inr {| numerator := n; denominator := d |}.
Proof.
  intros Hn Hd Hx Hy Hdx Hdy.
  assert (0 < d)%Z as Hd0.
  { unfold validDenominators in Hd.
    repeat (apply elem_of_cons in Hd as [->|Hd]; [done|]).
    by apply elem_of_nil in Hd. }
  unfold fromString.
  replace (pretty n +:+ x +:+ "/" +:+ pretty d +:+ y)
    with ((pretty n +:+ x) +:+ "/" +:+ (pretty d +:+ y))
    by (by rewrite !append_assoc).
  rewrite split_slash
    by (rewrite no_slash_app, no_slash_pretty_Z; done).
  rewrite split_no_slash
    by (rewrite no_slash_app, no_slash_pretty_Z; done).
  rewrite !parseInt_pretty by done.
  rewrite bool_decide_true by done.
  unfold new_TimeSignature. simpl.
  by rewrite bool_decide_false by lia.
Qed.


(** X12. [fromString] reads back what [toString] writes: for a time
    signature with a positive numerator (at most [2^53], where integers are
    exact) and a denominator among the seven valid ones,
    [fromString(ts.toString())] returns a time signature equal to [ts]. *)
Theorem fromString_toString ts :
  (0 < numerator ts ≤ 2 ^ 53)%Z → denominator ts ∈ validDenominators →
  fromString (toString ts) = inr ts.
Proof.
  intros [Hn _] Hd. destruct ts as [n d]. unfold toString. simpl in *.
  rewrite <- (fromString_pretty n d "" "") by done.
  by rewrite !append_nil_r.
Qed.

(** X13. [fromString] reads the digits on either side of the [/] and
    ignores what follows them: after a positive numerator (at most [2^53])
    and after a valid denominator, any text that holds no [/] and does not
    start with a decimal digit leaves the result as it is. *)
Theorem fromString_ignores_what_follows_the_digits (n d : Z) x y :
  (0 < n ≤ 2 ^ 53)%Z → d ∈ validDenominators →
  no_slash x = true → no_slash y = true →
  starts_with_digit 10 x = false → starts_with_digit 10 y = false →
  fromString (pretty n +:+ x +:+ "/" +:+ pretty d +:+ y)
  = fromString (pretty n +:+ "/" +:+ pretty d)
  ∧ fromString (pretty n +:+ x +:+ "/" +:+ pretty d +:+ y)
    = inr {| numerator := n; denominator := d |}.
Proof.
  intros [Hn _] Hd Hx Hy Hdx Hdy.
  rewrite (fromString_pretty n d x y) by done. split; [|done].
  rewrite <- (fromString_pretty n d "" "") by done.
  by rewrite !append_nil_r.
Qed.

(** X14. [toString] tells time signatures apart exactly as [equals] does:
    two time signatures are written alike if and only if [equals] answers
    [true]. *)
Theorem toString_agrees_with_equals a b :
  toString a = toString b ↔ equals a b = true.
Proof.
  unfold toString, equals. split.
  - intros Heq. apply (f_equal (split "/")) in Heq.
    rewrite !split_toString in Heq. injection Heq as Hn Hd.
    apply (inj pretty) in Hn, Hd. rewrite Hn, Hd.
    by rewrite !bool_decide_true.
  - intros [Hn Hd]%andb_prop.
    apply bool_decide_eq_true in Hn, Hd. by rewrite Hn, Hd.
Qed.


(** Witness of X12: six-eight. *)
Lemma fromString_toString_witness :
  fromString (toString {| numerator := 6; denominator := 8 |})
  = inr {| numerator := 6; denominator := 8 |}.
Proof.
  apply (fromString_toString {| numerator := 6; denominator := 8 |}).
  - by vm_compute.
  - vm_compute. do 3 right. left.
Defined.

(** Witness of X13: [4abc/4 beats]. *)
Lemma fromString_ignores_what_follows_the_digits_witness :
  fromString (pretty 4%Z +:+ "abc" +:+ "/" +:+ pretty 4%Z +:+ " beats")
  = fromString (pretty 4%Z +:+ "/" +:+ pretty 4%Z)
  ∧ fromString (pretty 4%Z +:+ "abc" +:+ "/" +:+ pretty 4%Z +:+ " beats")
    = inr {| numerator := 4; denominator := 4 |}.
Proof.
  apply (fromString_ignores_what_follows_the_digits 4 4 "abc" " beats");
    try reflexivity.
  - by vm_compute.
  - vm_compute. do 2 right. left.
Defined.
End TimeSignatureFacts.

(** ** The version check *)

Module VersionCheckerFacts.
Import Stdlib.Strings.Ascii.
Import JsString VersionChecker.

(** Two finite values compare as their multiples of any common unit. *)
Lemma lt_scaled m1 e1 m2 e2 e0 :
  (e0 ≤ e1)%Z → (e0 ≤ e2)%Z →
  lt (Finite m1 e1) (Finite m2 e2)
  = (m1 * 2 ^ (e1 - e0) <? m2 * 2 ^ (e2 - e0))%Z.
Proof.
  intros H1 H2. unfold lt. set (e := Z.min e1 e2).
  assert (0 < 2 ^ (e - e0))%Z as Hk by (apply Z.pow_pos_nonneg; lia).
  replace (2 ^ (e1 - e0))%Z with (2 ^ (e1 - e) * 2 ^ (e - e0))%Z
    by (rewrite <- Z.pow_add_r by lia; f_equal; lia).
  replace (2 ^ (e2 - e0))%Z with (2 ^ (e2 - e) * 2 ^ (e - e0))%Z
    by (rewrite <- Z.pow_add_r by lia; f_equal; lia).
  rewrite !Z.mul_assoc.
  destruct (Z.ltb_spec (m1 * 2 ^ (e1 - e)) (m2 * 2 ^ (e2 - e)));
    destruct (Z.ltb_spec (m1 * 2 ^ (e1 - e) * 2 ^ (e - e0))
                (m2 * 2 ^ (e2 - e) * 2 ^ (e - e0))); try done; nia.
Qed.

Lemma lt_irrefl a : lt a a = false.
Proof.
  destruct a as [|[]|m e]; simpl; try done. apply Z.ltb_irrefl.
Qed.

Lemma lt_asym a b : lt a b = true → lt b a = false.
Proof.
  destruct a as [|[]|m1 e1], b as [|[]|m2 e2]; simpl; try done.
  rewrite (Z.min_comm e2 e1). intros ?%Z.ltb_lt. apply Z.ltb_ge. lia.
Qed.

(** Neither is below the other. *)
Definition level (a b : Double) : Prop := lt a b = false ∧ lt b a = false.

Lemma order3 a b c :
  a ≠ NaN → b ≠ NaN → c ≠ NaN →
  (lt a b = true → lt b c = true → lt a c = true)
  ∧ (level a b → lt b c = true → lt a c = true)
  ∧ (lt a b = true → level b c → lt a c = true)
  ∧ (level a b → level b c → level a c).
Proof.
  intros Ha Hb Hc. unfold level.
  destruct a as [|na|m1 e1]; [done|..];
    destruct b as [|nb|m2 e2]; try done;
    destruct c as [|nc|m3 e3]; try done.
  all: try (simpl; repeat match goal with n : bool |- _ => destruct n end;
            simpl; intuition congruence).
  set (e0 := Z.min e1 (Z.min e2 e3)).
  rewrite (lt_scaled m1 e1 m2 e2 e0), (lt_scaled m2 e2 m1 e1 e0),
    (lt_scaled m2 e2 m3 e3 e0), (lt_scaled m3 e3 m2 e2 e0),
    (lt_scaled m1 e1 m3 e3 e0), (lt_scaled m3 e3 m1 e1 e0) by lia.
  rewrite !Z.ltb_lt, !Z.ltb_ge. lia.
Qed.

Section Compare.
Variable Number : string → Double.

Lemma compare_from_irrefl A indices : compare_from A A indices = false.
Proof.
  induction indices as [|i indices IH]; simpl; [done|].
  unfold gt. by rewrite lt_irrefl.
Qed.

Lemma compare_from_asym A B indices :
  compare_from A B indices = true → compare_from B A indices = false.
Proof.
  induction indices as [|i indices IH]; simpl; [done|]. unfold gt.
  destruct (lt (component B i) (component A i)) eqn:Hba.
  - intros _. by rewrite (lt_asym _ _ Hba).
  - destruct (lt (component A i) (component B i)); [done|]. exact IH.
Qed.

Lemma component_not_NaN A i : Forall (λ x, x ≠ NaN) A → component A i ≠ NaN.
Proof.
  intros HA. unfold component. destruct (A !! i) as [x|] eqn:Hi; [|done].
  simpl. by eapply Forall_lookup_1 in HA.
Qed.

Lemma compare_from_trans A B C indices :
  Forall (λ x, x ≠ NaN) A → Forall (λ x, x ≠ NaN) B →
  Forall (λ x, x ≠ NaN) C →
  compare_from A B indices = true → compare_from B C indices = true →
  compare_from A C indices = true.
Proof.
  intros HA HB HC.
  induction indices as [|i indices IH]; simpl; [done|]. unfold gt.
  destruct (order3 (component C i) (component B i) (component A i))
    as (Ht & Hl & Hr & _); [by apply component_not_NaN..|].
  destruct (order3 (component A i) (component B i) (component C i))
    as (_ & _ & _ & Hlev); [by apply component_not_NaN..|].
  unfold level in *.
  destruct (lt (component B i) (component A i)) eqn:Hba,
    (lt (component A i) (component B i)) eqn:Hab,
    (lt (component C i) (component B i)) eqn:Hcb,
    (lt (component B i) (component C i)) eqn:Hbc; try done;
    intros H1 H2.
  all: try (by rewrite Ht by done).
  all: try (by rewrite Hr by done).
  all: try (by rewrite Hl by done).
  destruct Hlev as [-> ->]; [done..|]. by apply IH.
Qed.

(** Past the end of both versions the loop finds nothing. *)
Lemma compare_from_past A B l1 l2 :
  Forall (λ i, (length A ≤ i)%nat ∧ (length B ≤ i)%nat) l2 →
  compare_from A B (l1 ++ l2) = compare_from A B l1.
Proof.
  intros Hl2. induction l1 as [|i l1 IH]; simpl.
  - induction Hl2 as [|i l2 [HA HB] _ IH]; simpl; [done|].
    unfold component.
    rewrite (lookup_ge_None_2 A i), (lookup_ge_None_2 B i) by done.
    simpl. done.
  - by rewrite IH.
Qed.

Lemma isNewerVersion_upto versionA versionB n :
  (length (components Number versionA) ≤ n)%nat →
  (length (components Number versionB) ≤ n)%nat →
  isNewerVersion Number versionA versionB
  = compare_from (components Number versionA) (components Number versionB)
      (seq 0 n).
Proof.
  intros HA HB. unfold isNewerVersion.
  set (A := components Number versionA) in *.
  set (B := components Number versionB) in *.
  replace n with (Nat.max (length A) (length B)
                  + (n - Nat.max (length A) (length B)))%nat at 1 by lia.
  rewrite seq_app. rewrite compare_from_past; [done|].
  apply Forall_forall. intros i Hi%elem_of_seq. lia.
Qed.

(** A zero, whatever its exponent, compares as [0]. *)
Lemma lt_zero_l e x : lt (Finite 0 e) x = lt zero x.
Proof.
  destruct x as [|[]|m2 e2]; try done. unfold zero.
  rewrite (lt_scaled 0 e m2 e2 (Z.min (Z.min e 0) e2)) by lia.
  rewrite (lt_scaled 0 0 m2 e2 (Z.min (Z.min e 0) e2)) by lia.
  by rewrite !Z.mul_0_l.
Qed.

Lemma lt_zero_r e x : lt x (Finite 0 e) = lt x zero.
Proof.
  destruct x as [|[]|m2 e2]; try done. unfold zero.
  rewrite (lt_scaled m2 e2 0 e (Z.min (Z.min e 0) e2)) by lia.
  rewrite (lt_scaled m2 e2 0 0 (Z.min (Z.min e 0) e2)) by lia.
  by rewrite !Z.mul_0_l.
Qed.

Lemma split_nonempty c s : split c s ≠ [].
Proof.
  induction s as [|x s IH]; simpl; [done|].
  case_decide; [done|]. by destruct (split c s).
Qed.

Lemma split_trailing s :
  split "." (s +:+ ".0") = split "." s ++ ["0"].
Proof.
  induction s as [|x s IH]; [done|].
  change (String x s +:+ ".0") with (String x (s +:+ ".0")).
  cbn [split]. rewrite IH. case_decide; [done|].
  pose proof (split_nonempty "."%char s). by destruct (split "." s).
Qed.

Lemma clean_trailing s : clean (s +:+ ".0") = clean s +:+ ".0".
Proof.
  destruct s as [|x s]; [done|].
  change (String x s +:+ ".0") with (String x (s +:+ ".0")).
  unfold clean. destruct x as [[] [] [] [] [] [] [] []]; done.
Qed.

Lemma components_trailing s :
  components Number (s +:+ ".0") = components Number s ++ [Number "0"].
Proof.
  unfold components. by rewrite clean_trailing, split_trailing, fmap_app.
Qed.

(** One more component, a zero, changes no comparison of the loop. *)
Lemma compare_from_zero_l A B e indices :
  compare_from (A ++ [Finite 0 e]) B indices = compare_from A B indices.
Proof.
  induction indices as [|i indices IH]; simpl; [done|]. rewrite IH.
  assert (component (A ++ [Finite 0 e]) i = component A i
          ∨ (component (A ++ [Finite 0 e]) i = Finite 0 e
             ∧ component A i = zero)) as [->|[-> ->]]; [|done|].
  { unfold component. destruct (decide (i < length A)%nat).
    - left. by rewrite lookup_app_l.
    - destruct (decide (i = length A)) as [->|].
      + right. rewrite list_lookup_middle by done.
        by rewrite lookup_ge_None_2.
      + left. rewrite !lookup_ge_None_2; [done|lia|].
        rewrite length_app. simpl. lia. }
  unfold gt. by rewrite lt_zero_l, lt_zero_r.
Qed.

Lemma compare_from_zero_r A B e indices :
  compare_from A (B ++ [Finite 0 e]) indices = compare_from A B indices.
Proof.
  induction indices as [|i indices IH]; simpl; [done|]. rewrite IH.
  assert (component (B ++ [Finite 0 e]) i = component B i
          ∨ (component (B ++ [Finite 0 e]) i = Finite 0 e
             ∧ component B i = zero)) as [->|[-> ->]]; [|done|].
  { unfold component. destruct (decide (i < length B)%nat).
    - left. by rewrite lookup_app_l.
    - destruct (decide (i = length B)) as [->|].
      + right. rewrite list_lookup_middle by done.
        by rewrite lookup_ge_None_2.
      + left. rewrite !lookup_ge_None_2; [done|lia|].
        rewrite length_app. simpl. lia. }
  unfold gt. by rewrite lt_zero_l, lt_zero_r.
Qed.

(** X15. Whatever [Number] makes of the components, [isNewerVersion] is a
    strict comparison: no version is newer than itself, and of two
    versions at most one is newer than the other. *)
Theorem isNewerVersion_is_strict versionA versionB :
  isNewerVersion Number versionA versionA = false
  ∧ (isNewerVersion Number versionA versionB = true →
     isNewerVersion Number versionB versionA = false).
Proof.
  unfold isNewerVersion. split.
  - apply compare_from_irrefl.
  - rewrite (Nat.max_comm (length (components Number versionB))).
    apply compare_from_asym.
Qed.

(** X16. Among versions none of whose components [Number] turns into
    [NaN], [isNewerVersion] is transitive. *)
Theorem isNewerVersion_is_transitive versionA versionB versionC :
  Forall (λ x, x ≠ NaN) (components Number versionA) →
  Forall (λ x, x ≠ NaN) (components Number versionB) →
  Forall (λ x, x ≠ NaN) (components Number versionC) →
  isNewerVersion Number versionA versionB = true →
  isNewerVersion Number versionB versionC = true →
  isNewerVersion Number versionA versionC = true.
Proof.
  intros HA HB HC.
  set (n := Nat.max (length (components Number versionA))
              (Nat.max (length (components Number versionB))
                 (length (components Number versionC)))).
  rewrite (isNewerVersion_upto versionA versionB n),
    (isNewerVersion_upto versionB versionC n),
    (isNewerVersion_upto versionA versionC n) by lia.
  by apply compare_from_trans.
Qed.

(** X17. When [Number] turns the string [0] into zero, a trailing
    component [.0] changes nothing: a version and the same version followed
    by [.0] compare alike with every other version, on either side. *)
Theorem isNewerVersion_ignores_a_trailing_zero version other e :
  Number "0" = Finite 0 e →
  isNewerVersion Number (version +:+ ".0") other
  = isNewerVersion Number version other
  ∧ isNewerVersion Number other (version +:+ ".0")
    = isNewerVersion Number other version.
Proof.
  intros Hzero.
  set (n := Nat.max (S (length (components Number version)))
              (length (components Number other))).
  assert (length (components Number (version +:+ ".0")) ≤ n)%nat
    by (rewrite components_trailing, length_app; simpl; lia).
  rewrite (isNewerVersion_upto (version +:+ ".0") other n),
    (isNewerVersion_upto version other n),
    (isNewerVersion_upto other (version +:+ ".0") n),
    (isNewerVersion_upto other version n) by lia.
  rewrite components_trailing, Hzero.
  by rewrite compare_from_zero_l, compare_from_zero_r.
Qed.
End Compare.

Section FirstDifference.
Variable Number : string → Double.

(** The loop over the indices [k], ..., [k + n - 1] answers [true] exactly
    when some index of that range has the greater component on the left,
    and no earlier index of the range tells the two components apart. *)
Lemma compare_from_seq A B k n :
  compare_from A B (seq k n) = true
  ↔ ∃ i, (k ≤ i < k + n)%nat
      ∧ gt (component A i) (component B i) = true
      ∧ ∀ j, (k ≤ j < i)%nat →
             gt (component A j) (component B j) = false
             ∧ lt (component A j) (component B j) = false.
Proof.
  revert k. induction n as [|n IH]; intros k; simpl.
  { split; [done|]. intros (i & ? & _). lia. }
  destruct (gt (component A k) (component B k)) eqn:Hgt.
  - split; [intros _|done]. exists k. split; [lia|]. split; [done|].
    intros j ?. lia.
  - destruct (lt (component A k) (component B k)) eqn:Hlt.
    + split; [done|]. intros (i & Hi & Hgi & Hbefore).
      destruct (decide (i = k)) as [->|]; [congruence|].
      destruct (Hbefore k) as [_ ?]; [lia|]. congruence.
    + rewrite IH. split.
      * intros (i & Hi & Hgi & Hbefore). exists i. split; [lia|].
        split; [done|]. intros j Hj.
        destruct (decide (j = k)) as [->|]; [done|]. apply Hbefore. lia.
      * intros (i & Hi & Hgi & Hbefore).
        destruct (decide (i = k)) as [->|]; [congruence|].
        exists i. split; [lia|]. split; [done|].
        intros j Hj. apply Hbefore. lia.
Qed.

(** X23. [isNewerVersion] answers [true] exactly when, at the first
    position where the two versions have components that [<] or [>] tells
    apart, the component of the first version is the greater one; a
    component that is missing counts as [0]. *)
Theorem isNewerVersion_first_difference versionA versionB :
  let A := components Number versionA in
  let B := components Number versionB in
  isNewerVersion Number versionA versionB = true
  ↔ ∃ i, gt (component A i) (component B i) = true
      ∧ ∀ j, (j < i)%nat →
             gt (component A j) (component B j) = false
             ∧ lt (component A j) (component B j) = false.
Proof.
  intros A B. unfold isNewerVersion. fold A B. rewrite compare_from_seq.
  split.
  - intros (i & _ & Hgt & Hbefore). exists i. split; [done|].
    intros j Hj. apply Hbefore. lia.
  - intros (i & Hgt & Hbefore). exists i. split; [|split; [done|]].
    + destruct (decide (i < Nat.max (length A) (length B))%nat); [lia|].
      exfalso. unfold component in Hgt.
      rewrite (lookup_ge_None_2 A i), (lookup_ge_None_2 B i) in Hgt by lia.
      done.
    + intros j Hj. apply Hbefore. lia.
Qed.
End FirstDifference.

(** A conversion for the witnesses: decimal digits as [parseInt] reads
    them, the empty string as zero. *)
Definition decimal (s : string) : Double :=
  match s with
  | EmptyString => zero
  | _ => match TimeSignature.parseInt s with
         | TimeSignature.Int z => Finite z 0
         | _ => NaN
         end
  end.

(** Witness of X15: [v1.10.0] and [1.9.3]. *)
Lemma isNewerVersion_is_strict_witness :
  isNewerVersion decimal "v1.10.0" "v1.10.0" = false
  ∧ isNewerVersion decimal "1.9.3" "v1.10.0" = false.
Proof.
  split.
  - exact (proj1 (isNewerVersion_is_strict decimal "v1.10.0" "1.9.3")).
  - apply (proj2 (isNewerVersion_is_strict decimal "v1.10.0" "1.9.3")).
    by vm_compute.
Defined.

(** Witness of X16: [2.0], [v1.10.0] and [1.9.3]. *)
Lemma isNewerVersion_is_transitive_witness :
  isNewerVersion decimal "2.0" "1.9.3" = true.
Proof.
  apply (isNewerVersion_is_transitive decimal "2.0" "v1.10.0" "1.9.3");
    try (by vm_compute); vm_compute; repeat constructor; done.
Defined.

(** Witness of X17: [1.2] and [1.2.0] against [v1.3]. *)
Lemma isNewerVersion_ignores_a_trailing_zero_witness :
  isNewerVersion decimal ("1.2" +:+ ".0") "v1.3"
  = isNewerVersion decimal "1.2" "v1.3"
  ∧ isNewerVersion decimal "v1.3" ("1.2" +:+ ".0")
    = isNewerVersion decimal "v1.3" "1.2".
Proof.
  apply (isNewerVersion_ignores_a_trailing_zero decimal "1.2" "v1.3" 0).
  by vm_compute.
Defined.
End VersionCheckerFacts.

(** ** The end-to-end scenario of the specification

    The table [widgets(id, name, created_at, updated_at)] on the reference
    store, and a clock that reads a later instant on its second reading. *)
Module Scenario.
Import RefStore.

Definition widgets : Table :=
  {| t_columns := ["id"; "name"; "created_at"; "updated_at"];
     t_rows := []; t_last_id := 0; t_tracked := true |}.

Definition empty_db : DB :=
  Build_Db []
    {| tables := [("widgets", widgets)]; cur_undo_group := 0;
       next_sequence := 1; history_redo := [] |}.

Definition clock0 (n : nat) : string :=
  match n with
  | 0 => "2024-05-01T10:00:00.000Z"
  | _ => "2024-05-01T10:00:00.001Z"
  end.

Definition frame0 : Locals :=
  {| actionWasPerformed := false; currentId := VUndefined |}.

(** A caller that holds the objects [objs] and has made no call yet. *)
Definition start (d : DB) (objs : list Obj) : State Rest :=
  Build_State d objs clock0 0 [] frame0.

Definition item_a : Obj := [("name", VStr "a")].
Definition item_b : Obj := [("name", VStr "b")].

(** The database after [createItems([{name: "a"}, {name: "b"}])]. *)
Definition two_widgets : DB :=
  Eval vm_compute in
    db (createItems [0; 1] "widgets" None (start empty_db [item_a; item_b])).1.

(** A history log with one record in group [0] and one in group [1]. *)
Definition marker (seq group rowid : Z) : HistoryRecord :=
  {| sequence := seq; history_group := group; hr_table := "widgets";
     hr_rowid := rowid; hr_change := DeleteMarker |}.

Definition groups_0_1 : DB :=
  Build_Db [marker 1 0 1; marker 2 1 2]
    {| tables := [("widgets", widgets)]; cur_undo_group := 1;
       next_sequence := 3; history_redo := [] |}.


(** Witness of C5: the response of a failed [updateItems]. *)
Lemma responses_well_formed_witness :
  ∃ s' r, updateItems [0] "widgets" None (start two_widgets [item_a]) = (s', inr r)
    ∧ success r = false ∧ well_formed [] r.
Proof.
  eexists _, _. split; [by vm_compute|]. split; [done|].
  refine (proj1 (proj2 (proj2 (proj2 responses_well_formed)))
            [0] "widgets" None (start two_widgets [item_a]) _ _ _).
  by vm_compute.
Defined.


(** C8 at a batch of two rows, the first without [id], the second the
    existing row [1]: the call fails in the verification loop; no warning is
    logged, no statement is run, and row [1] is not updated. *)
Theorem updateItems_row_without_id_fails_the_call :
  let s := start two_widgets [[("name", VStr "x")];
                              [("id", VNum 1); ("name", VStr "y")]] in
  let out := updateItems [0; 1] "widgets" None s in
  out.2 = inr {| success := false; data := [];
                 error := Some {|
                   message := "No items with ids [] in table "
                              +:+ quoted "widgets";
                   stack := None |} |}
  ∧ calls out.1 = []
  ∧ db out.1 = two_widgets
  ∧ found_row (db out.1) "widgets" "rowid" (VNum 1)
    = Some [("id", VNum 1); ("name", VStr "a");
            ("created_at", VStr "2024-05-01T10:00:00.000Z");
            ("updated_at", VStr "2024-05-01T10:00:00.000Z")].
Proof. by vm_compute. Qed.





(** Witness of C10: the caller's object keeps its [id] and gains no
    timestamp; the copy that was inserted has lost the one and gained the
    others. *)
Lemma caller_objects_unchanged_witness :
  let s := start empty_db [[("id", VNum 7); ("name", VStr "a")]] in
  let s' := (createItems [0] "widgets" None s).1 in
  heap s' !! 0 = Some [("id", VNum 7); ("name", VStr "a")]
  ∧ heap s' !! 2
    = Some [("name", VStr "a");
            ("created_at", VStr "2024-05-01T10:00:00.000Z");
            ("updated_at", VStr "2024-05-01T10:00:00.000Z")].
Proof.
  split; [|by vm_compute].
  refine (proj1 caller_objects_unchanged [0] "widgets" None
            (start empty_db [[("id", VNum 7); ("name", VStr "a")]]) _ _ _
            0 _ eq_refl).
  apply surjective_pairing.
Defined.

(** Counterexample to C4: the clock of the scenario moves between the two
    readings that [createItems] makes, and the two rows it returns carry
    different [created_at] values. *)
Lemma created_at_differs_between_rows :
  ∃ s' row1 row2,
    createItems [0; 1] "widgets" None (start empty_db [item_a; item_b])
    = (s', inr {| success := true; data := [row1; row2]; error := None |})
    ∧ obj_get "id" row1 = VNum 1 ∧ obj_get "id" row2 = VNum 2
    ∧ obj_get "created_at" row1 = VStr "2024-05-01T10:00:00.000Z"
    ∧ obj_get "created_at" row2 = VStr "2024-05-01T10:00:00.001Z"
    ∧ obj_get "created_at" row1 ≠ obj_get "created_at" row2.
Proof. eexists _, _, _. split; [by vm_compute|]. by vm_compute. Qed.


(** Witness of X2: the keys [notes], [name] and the keys [name], [notes]. *)
Lemma insertClause_ignores_key_order_witness :
  let a := [("notes", VStr "n"); ("name", VStr "a")] in
  let b := [("name", VStr "a"); ("notes", VStr "n")] in
  insertClause a = insertClause b
  ∧ Sorted String.le (insertClause a)
  ∧ insertClause a ≡ₚ obj_keys a.
Proof.
  apply (insertClause_ignores_key_order
           [("notes", VStr "n"); ("name", VStr "a")]
           [("name", VStr "a"); ("notes", VStr "n")]).
  apply perm_swap.
Defined.



(** Witness of X5: the deletion of both rows after the two inserts. *)
Lemma deleteItems_runs_only_deletes_of_its_ids_witness :
  let s := start two_widgets [] in
  let s' := (deleteItems [1; 2]%Z "widgets" None None s).1 in
  calls s' = calls s ++ new_calls s s'
  ∧ Forall (runs (deletes "widgets" "rowid" [1; 2]%Z)) (new_calls s s').
Proof.
  refine (deleteItems_runs_only_deletes_of_its_ids [1; 2]%Z "widgets" None None
            (start two_widgets []) _ _ _).
  apply surjective_pairing.
Defined.

(** Witness of X6: the rows returned by the deletion of both rows. *)
Lemma deleteItems_returns_rows_read_before_deleting_witness :
  let s := start two_widgets [] in
  ∃ r, (deleteItems [1; 2]%Z "widgets" None None s).2 = inr r
    ∧ Some <$> data r
      = (λ id, found_row (db s) "widgets" "rowid" (VNum id)) <$> [1; 2]%Z.
Proof.
  intros s. set (out := deleteItems [1; 2]%Z "widgets" None None s).
  assert (∃ r, out.2 = inr r ∧ success r = true) as (r & Hr & Hs)
    by (eexists; split; [by vm_compute | done]).
  exists r. split; [done|].
  refine (deleteItems_returns_rows_read_before_deleting [1; 2]%Z "widgets"
            None None s out.1 r _ Hs).
  change (out = (out.1, inr r)). rewrite <- Hr. apply surjective_pairing.
Defined.

(** Witness of X7: the two inserts return two rows. *)
Lemma one_row_per_item_witness :
  let s := start empty_db [item_a; item_b] in
  ∃ r, (createItems [0; 1] "widgets" None s).2 = inr r
    ∧ length (data r) = 2%nat.
Proof.
  intros s. set (out := createItems [0; 1] "widgets" None s).
  assert (∃ r, out.2 = inr r ∧ success r = true) as (r & Hr & Hs)
    by (eexists; split; [by vm_compute | done]).
  exists r. split; [done|].
  refine (proj1 one_row_per_item [0; 1] "widgets" None s out.1 r _ Hs).
  change (out = (out.1, inr r)). rewrite <- Hr. apply surjective_pairing.
Defined.

Lemma ref_history_returns : history_returns (R := Rest).
Proof.
  split; intros d.
  - by exists (cur_undo_group (rest d)).
  - eexists _, _. reflexivity.
Qed.

Lemma ref_columns_return t : columns_return (R := Rest) t.
Proof.
  intros d. split; [done|]. simpl. unfold ref_all. simpl.
  destruct (find_table t (tables (rest d))); by eexists.
Qed.

(** Witness of X9: [createItems] of no item, with [useNextUndoGroup = false],
    on the empty database. *)
Lemma empty_batch_still_advances_the_group_witness :
  ∃ s', createItems [] "widgets" (Some false) (start empty_db [])
        = (s', inr {| success := true; data := []; error := None |})
    ∧ new_calls (start empty_db []) s'
      = [CallGetCurrentUndoGroup; CallIncrementUndoGroup] ++ [].
Proof.
  exact (proj1 (empty_batch_still_advances_the_group ref_history_returns)
           "widgets" (Some false) (start empty_db [])
           (ref_columns_return "widgets")).
Defined.

(** Witness of X18: a shape is created, then deleted. *)
Lemma deleteShape_joins_the_previous_step_witness :
  let s0 := start empty_db [item_a] in
  let s1 := (createShape "widgets" [0] s0).1 in
  let s2 := (deleteShape "widgets" [1]%Z s1).1 in
  ∃ g new, RefStoreFacts.hist s2 = RefStoreFacts.hist s0 ++ new
    ∧ tagged g new
    ∧ Forall (λ r, (history_group r < g)%Z) (RefStoreFacts.hist s0).
Proof.
  intros s0 s1 s2.
  set (out1 := createShape "widgets" [0] s0).
  set (out2 := deleteShape "widgets" [1]%Z s1).
  assert (∃ r, out1.2 = inr r ∧ success r = true) as (r1 & Hr1 & Hs1)
    by (eexists; split; [by vm_compute | done]).
  assert (∃ r, out2.2 = inr r ∧ success r = true) as (r2 & Hr2 & Hs2)
    by (eexists; split; [by vm_compute | done]).
  refine (ShapeTableFacts.deleteShape_joins_the_previous_step
            "widgets" [0] [1]%Z s0 s1 s2 r1 r2 _ _ _ Hs1 _ Hs2 _ _).
  - by vm_compute.
  - by vm_compute.
  - change (out1 = (out1.1, inr r1)). rewrite <- Hr1. apply surjective_pairing.
  - change (out2 = (out2.1, inr r2)). rewrite <- Hr2. apply surjective_pairing.
  - vm_compute. lia.
  - vm_compute. lia.
Defined.

(** Witness of X19: a shape is created, then renamed. *)
Lemma updateShape_opens_a_step_of_its_own_witness :
  let s0 := start empty_db [item_a; [("id", VNum 1); ("name", VStr "b")]] in
  let s1 := (createShape "widgets" [0] s0).1 in
  let s2 := (updateShape "widgets" [1] s1).1 in
  ∃ g1 g2 new1 new2,
    RefStoreFacts.hist s2 = RefStoreFacts.hist s0 ++ new1 ++ new2
    ∧ new1 ≠ [] ∧ new2 ≠ []
    ∧ tagged g1 new1 ∧ tagged g2 new2 ∧ (g1 < g2)%Z
    ∧ Forall (λ r, (history_group r < g1)%Z) (RefStoreFacts.hist s0).
Proof.
  intros s0 s1 s2.
  set (out1 := createShape "widgets" [0] s0).
  set (out2 := updateShape "widgets" [1] s1).
  assert (∃ r, out1.2 = inr r ∧ success r = true) as (r1 & Hr1 & Hs1)
    by (eexists; split; [by vm_compute | done]).
  assert (∃ r, out2.2 = inr r ∧ success r = true) as (r2 & Hr2 & Hs2)
    by (eexists; split; [by vm_compute | done]).
  refine (ShapeTableFacts.updateShape_opens_a_step_of_its_own
            "widgets" [0] [1] s0 s1 s2 r1 r2 _ _ Hs1 _ Hs2 _ _).
  - by vm_compute.
  - change (out1 = (out1.1, inr r1)). rewrite <- Hr1. apply surjective_pairing.
  - change (out2 = (out2.1, inr r2)). rewrite <- Hr2. apply surjective_pairing.
  - vm_compute. lia.
  - vm_compute. lia.
Defined.
End Scenario.
